(** * Smilei particle kernels: the Vranic merger and the Monte-Carlo radiation

    A shallow embedding of [src/Merging/MergingVranic.cpp] and
    [src/Radiation/RadiationMonteCarlo.cpp], and the properties of the
    specification that bear on them.

    Numbers.  The properties are stated "in exact arithmetic", so a C++
    [double] is a real number ([R]).  Exact arithmetic has no value for a
    division by zero, the square root of a negative number or an arc cosine
    outside [-1, 1]; the [double] computation produces an infinity or a NaN
    there.  Such an operation ends the embedded computation with
    [NotANumber], unless the next operation turns the infinity into a
    finite number again, as [std::min] does with +infinity and a finite
    number.  An [unsigned int] is a [Z] reduced modulo [2^32].

    Memory.  A column of the particle store and a [std::vector] are lists.
    Reading or writing outside a list, and converting a [double] that no
    [unsigned int] represents, are undefined behaviour in C++: the embedded
    computation ends with [Undefined].  A [std::vector] requested with a
    size above its maximum throws: [LengthError].

    Loops.  A [for] loop over a range is a recursion on the number of its
    iterations.  A [while] loop takes fuel and ends with [OutOfFuel] when
    the fuel does not suffice. *)

From Stdlib Require Import Reals Lra Lia ZArith.
From stdpp Require Import base option list.

Open Scope R_scope.

(** ** Outcomes of a kernel *)

Inductive failure := Undefined | NotANumber | LengthError | OutOfFuel.

Inductive outcome (A : Type) :=
  | Ok (a : A)
  | Fail (e : failure).
Arguments Ok {A} a.
Arguments Fail {A} e.

#[global] Instance outcome_ret : MRet outcome := fun _ a => Ok a.
#[global] Instance outcome_bind : MBind outcome := fun _ _ f m =>
  match m with
  | Ok a => f a
  | Fail e => Fail e
  end.

(** [for (i = lo; i < hi; i++) body], threading the loop state. *)
Fixpoint for_loop {S : Type} (n i : nat) (body : nat -> S -> outcome S) (s : S)
  : outcome S :=
  match n with
  | O => Ok s
  | Datatypes.S n' => s' ← body i s; for_loop n' (Datatypes.S i) body s'
  end.

Definition for_range {S : Type} (lo hi : nat) (body : nat -> S -> outcome S) (s : S)
  : outcome S :=
  for_loop (hi - lo) lo body s.

(** ** Arrays *)

(** [a[i]] as an rvalue. *)
Definition load {A : Type} (a : list A) (i : nat) : outcome A :=
  match a !! i with
  | Some v => Ok v
  | None => Fail Undefined
  end.

(** [a[i] = v]. *)
Definition store {A : Type} (a : list A) (i : nat) (v : A) : outcome (list A) :=
  if (i <? length a)%nat then Ok (<[i:=v]> a) else Fail Undefined.

(** ** Arithmetic of [double] and [unsigned int] *)

Definition fdiv (a b : R) : outcome R :=
  if Req_dec_T b 0 then Fail NotANumber else Ok (a / b).

Definition fsqrt (a : R) : outcome R :=
  if Rlt_dec a 0 then Fail NotANumber else Ok (sqrt a).

Definition facos (a : R) : outcome R :=
  if Rlt_dec a (-1) then Fail NotANumber
  else if Rlt_dec 1 a then Fail NotANumber
  else Ok (acos a).

(** Comparisons of two [double]s as conditions. *)
Definition Rleb (a b : R) : bool := if Rle_dec a b then true else false.
Definition Rltb (a b : R) : bool := if Rlt_dec a b then true else false.
Definition Reqb (a b : R) : bool := if Req_dec_T a b then true else false.

Definition fln (a : R) : outcome R :=
  if Rle_dec a 0 then Fail NotANumber else Ok (ln a).

Definition fasin (a : R) : outcome R :=
  if Rlt_dec a (-1) then Fail NotANumber
  else if Rlt_dec 1 a then Fail NotANumber
  else Ok (asin a).

(** [std::min(a / b, c)] for a finite [c]; [std::min(x, c)] is [c] when
    [c < x] and [x] otherwise.  A positive [a] over a zero [b] is
    +infinity and the minimum is [c], a finite number: the computation goes
    on.  A negative [a] over zero is -infinity and zero over zero is a NaN,
    and the minimum is that value.  The zero of the real numbers stands for
    the positive zero. *)
Definition min_of_quotient (a b c : R) : outcome R :=
  if Req_dec_T b 0 then (if Rlt_dec 0 a then Ok c else Fail NotANumber)
  else Ok (Rmin (a / b) c).

(** [atan2] of <cmath>: the principal argument of the point [(x, y)]. *)
Definition atan2 (y x : R) : R :=
  if Rlt_dec 0 x then atan (y / x)
  else if Rlt_dec x 0 then
    (if Rle_dec 0 y then atan (y / x) + PI else atan (y / x) - PI)
  else if Rlt_dec 0 y then PI / 2
  else if Rlt_dec y 0 then - (PI / 2)
  else 0.

Definition uint_max : Z := 2 ^ 32.

(** Arithmetic on [unsigned int] wraps around.  Reduction modulo [2^32]
    commutes with sums and products, so an expression is reduced once. *)
Definition wrap (z : Z) : Z := (z mod uint_max)%Z.

(** [(unsigned int) x] for a finite [double x]: truncation toward zero,
    undefined when the truncated value is not an [unsigned int]. *)
Definition uint_of_double (x : R) : outcome Z :=
  if Rle_dec x (-1) then Fail Undefined
  else if Rlt_dec x 0 then Ok 0%Z
  else if Rlt_dec x (IZR uint_max) then Ok (Int_part x)
  else Fail Undefined.

(** [(unsigned int) (a / b)]: with [b = 0] the quotient is an infinity or a
    NaN, which no [unsigned int] represents. *)
Definition uint_of_quotient (a b : R) : outcome Z :=
  if Req_dec_T b 0 then Fail Undefined else uint_of_double (a / b).

(** ** The particle store

    The columns of [Particles] that the two kernels use.  [Particles.h] is
    not part of the sources at hand; the record lists the accessors the
    kernels call. *)

Record Particles := mkParticles {
  Position : list (list R);      (* position(d, i), one column per dimension *)
  momentum_x : list R;           (* momentum(0, i) *)
  momentum_y : list R;           (* momentum(1, i) *)
  momentum_z : list R;           (* momentum(2, i) *)
  weight : list R;
  charge : list Z;
  chi : list R;
  tau : list R;
  cell_keys : list Z;
  isQuantumParameter : bool;
  isMonteCarlo : bool
}.

Definition set_momentum (p : Particles) (mx my mz : list R) : Particles :=
  mkParticles (Position p) mx my mz (weight p) (charge p) (chi p) (tau p)
              (cell_keys p) (isQuantumParameter p) (isMonteCarlo p).

Definition set_weight (p : Particles) (w : list R) : Particles :=
  mkParticles (Position p) (momentum_x p) (momentum_y p) (momentum_z p) w
              (charge p) (chi p) (tau p) (cell_keys p)
              (isQuantumParameter p) (isMonteCarlo p).

Definition set_cell_keys (p : Particles) (k : list Z) : Particles :=
  mkParticles (Position p) (momentum_x p) (momentum_y p) (momentum_z p)
              (weight p) (charge p) (chi p) (tau p) k
              (isQuantumParameter p) (isMonteCarlo p).

Definition set_tau (p : Particles) (t : list R) : Particles :=
  mkParticles (Position p) (momentum_x p) (momentum_y p) (momentum_z p)
              (weight p) (charge p) (chi p) t (cell_keys p)
              (isQuantumParameter p) (isMonteCarlo p).

Definition set_chi (p : Particles) (c : list R) : Particles :=
  mkParticles (Position p) (momentum_x p) (momentum_y p) (momentum_z p)
              (weight p) (charge p) c (tau p) (cell_keys p)
              (isQuantumParameter p) (isMonteCarlo p).

(** The momentum of particle [i]. *)
Definition momentum_at (p : Particles) (i : nat) : outcome (R * R * R) :=
  px ← load (momentum_x p) i;
  py ← load (momentum_y p) i;
  pz ← load (momentum_z p) i;
  Ok (px, py, pz).

(** * The Vranic merger: [MergingVranic::operator()] *)

Module MergingVranic.

(** The members of the merger object that [operator()] reads or writes
    (declared in [Merging.h], which is not part of the sources at hand). *)
Record Merging := mkMerging {
  merging_ppc_min_threshold_ : Z;
  dimensions_ : Z * Z * Z
}.

(** Minima and maxima of the momentum norm and of the two angles. *)
Record Extrema := mkExtrema {
  mr_min : R; mr_max : R;
  theta_min : R; theta_max : R;
  phi_min : R; phi_max : R
}.

(** The state of the first loop: the extrema and the two scratch vectors
    [particles_theta] and [particles_phi]. *)
Definition BoundsState : Type := Extrema * list R * list R.

(** First step, the statements before the loop (particle [istart]). *)
Definition bounds_init (particles : Particles) (istart n : nat) : outcome BoundsState :=
  '(px, py, pz) ← momentum_at particles istart;
  let momentum_norm := sqrt (px * px + py * py + pz * pz) in
  particles_theta ← store (replicate n 0) 0 (atan2 py px);
  sin_phi ← fdiv pz momentum_norm;
  phi ← fasin sin_phi;
  particles_phi ← store (replicate n 0) 0 phi;
  Ok (mkExtrema momentum_norm momentum_norm
                (atan2 py px) (atan2 py px) phi phi,
      particles_theta, particles_phi).

(** First step, the body of the loop over [ipart] in [istart+1, iend). *)
Definition bounds_step (particles : Particles) (istart : nat)
    (ipart : nat) (st : BoundsState) : outcome BoundsState :=
  let '(ex, particles_theta, particles_phi) := st in
  let ip := (ipart - istart)%nat in
  '(px, py, pz) ← momentum_at particles ipart;
  let momentum_norm := sqrt (px * px + py * py + pz * pz) in
  sin_phi ← fdiv pz momentum_norm;
  phi ← fasin sin_phi;
  particles_phi ← store particles_phi ip phi;
  particles_theta ← store particles_theta ip (atan2 py px);
  Ok (mkExtrema (Rmin (mr_min ex) momentum_norm) (Rmax (mr_max ex) momentum_norm)
                (Rmin (theta_min ex) (atan2 py px)) (Rmax (theta_max ex) (atan2 py px))
                (Rmin (phi_min ex) phi) (Rmax (phi_max ex) phi),
      particles_theta, particles_phi).

Definition bounds_pass (particles : Particles) (istart iend : nat) : outcome BoundsState :=
  st ← bounds_init particles istart (iend - istart);
  for_range (istart + 1) iend (bounds_step particles istart) st.

(** "Extra to include the max in the discretization". *)
Definition inflate (ex : Extrema) : Extrema :=
  mkExtrema (mr_min ex) (mr_max ex + (mr_max ex - mr_min ex) * 0.01)
            (theta_min ex) (theta_max ex + (theta_max ex - theta_min ex) * 0.01)
            (phi_min ex) (phi_max ex + (phi_max ex - phi_min ex) * 0.01).

(** Second step: one discretization step and the "min and max are very
    close" test, for one axis of dimension [dim].  Returns the step and the
    dimension. *)
Definition axis_delta (vmin vmax : R) (dim : Z) : R * Z :=
  let delta := (vmax - vmin) / IZR dim in
  if Rlt_dec delta 1e-10 then (0, 1%Z) else (delta, dim).

(** The cell direction unit vectors [cell_vec_x], [cell_vec_y], [cell_vec_z],
    vectors of [dim1 * dim2] zeros filled over [theta_i], [phi_i]. *)
Definition cell_vec_step (ex : Extrema) (theta_delta phi_delta : R) (dim2 : Z)
    (theta_i phi_i : nat) (cv : list R * list R * list R)
  : outcome (list R * list R * list R) :=
  let '(cell_vec_x, cell_vec_y, cell_vec_z) := cv in
  let icc := wrap (Z.of_nat theta_i * dim2 + Z.of_nat phi_i) in
  let theta := theta_min ex + (INR theta_i + 0.5) * theta_delta in
  let phi := phi_min ex + (INR phi_i + 0.5) * phi_delta in
  cell_vec_x ← store cell_vec_x (Z.to_nat icc) (cos phi * cos theta);
  cell_vec_y ← store cell_vec_y (Z.to_nat icc) (cos phi * sin theta);
  cell_vec_z ← store cell_vec_z (Z.to_nat icc) (sin phi);
  Ok (cell_vec_x, cell_vec_y, cell_vec_z).

Definition cell_vectors (ex : Extrema) (theta_delta phi_delta : R) (dim1 dim2 : Z)
    (cv : list R * list R * list R) : outcome (list R * list R * list R) :=
  for_range 0 (Z.to_nat dim1) (fun theta_i cv =>
    for_range 0 (Z.to_nat dim2) (cell_vec_step ex theta_delta phi_delta dim2 theta_i) cv) cv.

(** The loop that fills [momentum_cell_index]. *)
Definition cell_index_step (particles : Particles) (istart : nat) (ex : Extrema)
    (mr_delta theta_delta phi_delta : R) (dim1 dim2 : Z)
    (particles_theta particles_phi : list R)
    (ipart : nat) (momentum_cell_index : list Z) : outcome (list Z) :=
  let ip := (ipart - istart)%nat in
  '(px, py, pz) ← momentum_at particles ipart;
  let momentum_norm := sqrt (px * px + py * py + pz * pz) in
  mr_i ← uint_of_quotient (momentum_norm - mr_min ex) mr_delta;
  theta ← load particles_theta ip;
  theta_i ← uint_of_quotient (theta - theta_min ex) theta_delta;
  phi ← load particles_phi ip;
  phi_i ← uint_of_quotient (phi - phi_min ex) phi_delta;
  store momentum_cell_index ip
        (wrap (mr_i * dim1 * dim2 + theta_i * dim2 + phi_i)).

(** "The number of particles per momentum cells is then determined." *)
Definition count_step (momentum_cell_index : list Z)
    (ip : nat) (particles_per_momentum_cells : list Z) : outcome (list Z) :=
  ic ← load momentum_cell_index ip;
  c ← load particles_per_momentum_cells (Z.to_nat ic);
  store particles_per_momentum_cells (Z.to_nat ic) (wrap (c + 1)).

(** "Computation of the cell index in the sorted array of particles": the
    state is ([momentum_cell_particle_index], [particles_per_momentum_cells]). *)
Definition offset_step (ic : nat) (st : list Z * list Z) : outcome (list Z * list Z) :=
  let '(momentum_cell_particle_index, particles_per_momentum_cells) := st in
  o ← load momentum_cell_particle_index (ic - 1);
  c ← load particles_per_momentum_cells (ic - 1);
  momentum_cell_particle_index ← store momentum_cell_particle_index ic (wrap (o + c));
  particles_per_momentum_cells ← store particles_per_momentum_cells (ic - 1) 0%Z;
  Ok (momentum_cell_particle_index, particles_per_momentum_cells).

(** Fourth step: the state is ([sorted_particles],
    [particles_per_momentum_cells]). *)
Definition sort_step (istart : nat) (momentum_cell_index momentum_cell_particle_index : list Z)
    (ip : nat) (st : list Z * list Z) : outcome (list Z * list Z) :=
  let '(sorted_particles, particles_per_momentum_cells) := st in
  ic ← load momentum_cell_index ip;
  o ← load momentum_cell_particle_index (Z.to_nat ic);
  c ← load particles_per_momentum_cells (Z.to_nat ic);
  sorted_particles ← store sorted_particles (Z.to_nat (wrap (o + c)))
                           (wrap (Z.of_nat istart + Z.of_nat ip));
  particles_per_momentum_cells ← store particles_per_momentum_cells (Z.to_nat ic) (wrap (c + 1));
  Ok (sorted_particles, particles_per_momentum_cells).

(** The counting sort as a whole, from [momentum_cell_index] to
    ([sorted_particles], [momentum_cell_particle_index],
    [particles_per_momentum_cells]). *)
Definition counting_sort (istart n : nat) (momentum_cells : Z) (momentum_cell_index : list Z)
  : outcome (list Z * list Z * list Z) :=
  let cells := Z.to_nat momentum_cells in
  particles_per_momentum_cells ←
    for_range 0 n (count_step momentum_cell_index) (replicate cells 0%Z);
  '(momentum_cell_particle_index, particles_per_momentum_cells) ←
    for_range 1 cells offset_step (replicate cells 0%Z, particles_per_momentum_cells);
  particles_per_momentum_cells ← store particles_per_momentum_cells (cells - 1) 0%Z;
  '(sorted_particles, particles_per_momentum_cells) ←
    for_range 0 n (sort_step istart momentum_cell_index momentum_cell_particle_index)
              (replicate n 0%Z, particles_per_momentum_cells);
  Ok (sorted_particles, momentum_cell_particle_index, particles_per_momentum_cells).

(** Fifth step.  The totals of one packet: [total_weight], [total_momentum]
    and [total_energy], accumulated over the four particles of the packet. *)
Definition Totals : Type := R * (R * R * R) * R.

Definition totals_step (particles : Particles) (sorted_particles : list Z) (first : Z)
    (ip : nat) (t : Totals) : outcome Totals :=
  let '(total_weight, (tm0, tm1, tm2), total_energy) := t in
  ipart ← load sorted_particles (Z.to_nat (wrap (first + Z.of_nat ip)));
  w ← load (weight particles) (Z.to_nat ipart);
  '(px, py, pz) ← momentum_at particles (Z.to_nat ipart);
  Ok (total_weight + w,
      (tm0 + px * w, tm1 + py * w, tm2 + pz * w),
      total_energy + sqrt (1 + px * px + py * py + pz * pz)).

(** The momenta given to the two merged particles of a packet, from the
    totals and the direction [d] of the momentum cell. *)
Definition merged_momenta (t : Totals) (d : R * R * R)
  : outcome ((R * R * R) * (R * R * R)) :=
  let '(total_weight, (tm0, tm1, tm2), total_energy) := t in
  let '(dx, dy, dz) := d in
  new_energy ← fdiv total_energy total_weight;
  new_momentum_norm ← fsqrt (new_energy * new_energy - 1);
  let total_momentum_norm := sqrt (tm0 * tm0 + tm1 * tm1 + tm2 * tm2) in
  ratio ← fdiv total_momentum_norm (total_weight * new_momentum_norm);
  omega ← facos ratio;
  let sin_omega := sin omega in
  let cos_omega := cos omega in
  e1_x ← fdiv tm0 total_momentum_norm;
  e1_y ← fdiv tm1 total_momentum_norm;
  e1_z ← fdiv tm2 total_momentum_norm;
  let e2_x := e1_y * e1_y * dx - e1_x * (e1_y * dy + e1_z * dz) + e1_z * e1_z * dx in
  let e2_y := e1_z * e1_z * dy - e1_y * (e1_z * dz + e1_x * dx) + e1_x * e1_x * dy in
  let e2_z := e1_x * e1_x * dz - e1_z * (e1_x * dx + e1_y * dy) + e1_y * e1_y * dz in
  Ok ((new_momentum_norm * (cos_omega * e1_x + sin_omega * e2_x),
       new_momentum_norm * (cos_omega * e1_y + sin_omega * e2_y),
       new_momentum_norm * (cos_omega * e1_z + sin_omega * e2_z)),
      (new_momentum_norm * (cos_omega * e1_x - sin_omega * e2_x),
       new_momentum_norm * (cos_omega * e1_y - sin_omega * e2_y),
       new_momentum_norm * (cos_omega * e1_z - sin_omega * e2_z))).

(** "Update momentum of the first particle" and of the second: particle
    [ipart] receives the momentum [m] and the weight [w]. *)
Definition overwrite (particles : Particles) (ipart : nat) (m : R * R * R) (w : R)
  : outcome Particles :=
  let '(m0, m1, m2) := m in
  mx ← store (momentum_x particles) ipart m0;
  my ← store (momentum_y particles) ipart m1;
  mz ← store (momentum_z particles) ipart m2;
  wt ← store (weight particles) ipart w;
  Ok (set_weight (set_momentum particles mx my mz) wt).

(** "Other particles are tagged to be removed after": the body of the loop
    over [ip] in [ipack*4 + 2, ipack*4 + 4). *)
Definition tag_step (sorted_particles : list Z) (first ipack : Z)
    (ip : nat) (particles : Particles) : outcome Particles :=
  ipart ← load sorted_particles
               (Z.to_nat (wrap (first + ipack * 4 + Z.of_nat ip)));
  keys ← store (cell_keys particles) (Z.to_nat ipart) (-1)%Z;
  Ok (set_cell_keys particles keys).

(** The body of the loop over the packets of one momentum cell. *)
Definition merge_packet (sorted_particles : list Z) (first : Z) (d : R * R * R)
    (ipack : nat) (particles : Particles) : outcome Particles :=
  let base := (ipack * 4)%nat in
  t ← for_range base (base + 4) (totals_step particles sorted_particles first)
                (0, (0, 0, 0), 0);
  '(ma, mb) ← merged_momenta t d;
  let total_weight := t.1.1 in
  ipart ← load sorted_particles (Z.to_nat (wrap (first + Z.of_nat base)));
  particles ← overwrite particles (Z.to_nat ipart) ma (0.5 * total_weight);
  ipart ← load sorted_particles (Z.to_nat (wrap (first + Z.of_nat base + 1)));
  particles ← overwrite particles (Z.to_nat ipart) mb (0.5 * total_weight);
  for_range (base + 2) (base + 4)
            (tag_step sorted_particles first (Z.of_nat ipack)) particles.

(** The scratch vectors the fifth step reads. *)
Record Sorted := mkSorted {
  sorted_particles : list Z;
  momentum_cell_particle_index : list Z;
  particles_per_momentum_cells : list Z;
  cell_vec_x : list R;
  cell_vec_y : list R;
  cell_vec_z : list R
}.

(** The body of the innermost loop over the momentum cells. *)
Definition merge_cell (s : Sorted) (momentum_angular_cells dim2 : Z)
    (mr_i theta_i phi_i : nat) (particles : Particles) : outcome Particles :=
  let icc := wrap (Z.of_nat theta_i * dim2 + Z.of_nat phi_i) in
  let ic := wrap (Z.of_nat mr_i * momentum_angular_cells + icc) in
  count ← load (particles_per_momentum_cells s) (Z.to_nat ic);
  if (4 <=? count)%Z then
    let npack := (count / 4)%Z in
    first ← load (momentum_cell_particle_index s) (Z.to_nat ic);
    dx ← load (cell_vec_x s) (Z.to_nat icc);
    dy ← load (cell_vec_y s) (Z.to_nat icc);
    dz ← load (cell_vec_z s) (Z.to_nat icc);
    for_range 0 (Z.to_nat npack)
              (merge_packet (sorted_particles s) first (dx, dy, dz)) particles
  else Ok particles.

Definition merge_cells (s : Sorted) (momentum_angular_cells dim0 dim1 dim2 : Z)
    (particles : Particles) : outcome Particles :=
  for_range 0 (Z.to_nat dim0) (fun mr_i =>
    for_range 0 (Z.to_nat dim1) (fun theta_i =>
      for_range 0 (Z.to_nat dim2)
                (merge_cell s momentum_angular_cells dim2 mr_i theta_i))) particles.

(** The body of [operator()] when the range holds enough particles, for
    [0 <= istart <= iend]. *)
Definition merge_range (self : Merging) (particles : Particles) (istart iend : nat)
  : outcome (Merging * Particles) :=
  let n := (iend - istart)%nat in
  (* Dimensions *)
  let self := mkMerging (merging_ppc_min_threshold_ self) (5, 5, 5)%Z in
  let '(dim0, dim1, dim2) := dimensions_ self in
  let momentum_cells := wrap (dim0 * dim1 * dim2) in
  let momentum_angular_cells := wrap (dim1 * dim2) in
  let angular_cells := Z.to_nat (wrap (dim1 * dim2)) in
  (* First step: Computation of the maxima and minima *)
  '(ex, particles_theta, particles_phi) ← bounds_pass particles istart iend;
  let ex := inflate ex in
  (* Second step: Computation of the discretization and steps *)
  let '(mr_delta, dim0) := axis_delta (mr_min ex) (mr_max ex) dim0 in
  let '(theta_delta, dim1) := axis_delta (theta_min ex) (theta_max ex) dim1 in
  let '(phi_delta, dim2) := axis_delta (phi_min ex) (phi_max ex) dim2 in
  let self := mkMerging (merging_ppc_min_threshold_ self) (dim0, dim1, dim2) in
  '(cvx, cvy, cvz) ←
    cell_vectors ex theta_delta phi_delta dim1 dim2
                 (replicate angular_cells 0, replicate angular_cells 0,
                  replicate angular_cells 0);
  momentum_cell_index ←
    for_range istart iend
              (cell_index_step particles istart ex mr_delta theta_delta phi_delta
                               dim1 dim2 particles_theta particles_phi)
              (replicate n 0%Z);
  (* Counting of the particles per cell, and fourth step: sort *)
  '(sorted, offsets, counts) ← counting_sort istart n momentum_cells momentum_cell_index;
  (* Fifth step: merge *)
  particles ← merge_cells (mkSorted sorted offsets counts cvx cvy cvz)
                          momentum_angular_cells dim0 dim1 dim2 particles;
  Ok (self, particles).

(** [MergingVranic::operator()(particles, smpi, istart, iend)].  The MPI
    handle is not used.  A negative [iend - istart] converts to a large
    [unsigned int], so the test passes, and the scratch vectors are then
    requested with a size no vector can have. *)
Definition call (self : Merging) (particles : Particles) (istart iend : Z)
  : outcome (Merging * Particles) :=
  if (merging_ppc_min_threshold_ self <? wrap (iend - istart))%Z then
    if (iend - istart <? 0)%Z then Fail LengthError
    else if (istart <? 0)%Z then Fail Undefined
    else merge_range self particles (Z.to_nat istart) (Z.to_nat iend)
  else Ok (self, particles).

End MergingVranic.

(** * The Monte-Carlo radiation: [RadiationMonteCarlo] *)

Module RadiationMonteCarlo.

(** The queries of [RadiationTables] that the kernel calls.  The class is
    not part of the sources at hand: its functions are parameters.  The
    table pointers that the kernel passes along are part of the functions. *)
Record RadiationTables := mkRadiationTables {
  getMinimumChiDiscontinuous : R;
  getMinimumChiContinuous : R;
  computePhotonProductionYield : R -> R -> R;
  getRidgersCorrectedRadiatedEnergy : R -> R -> R;
  computeRandomPhotonChiWithInterpolation : R -> R -> R
}.

(** The members of the radiation object ([Radiation.h] and
    [RadiationMonteCarlo.h], not part of the sources at hand).  [rand_] is
    the number of values drawn so far from the generator. *)
Record Radiation := mkRadiation {
  one_over_mass_ : R;
  dt_ : R;
  epsilon_tau_ : R;
  max_monte_carlo_iterations_ : Z;
  nDim_ : nat;
  radiation_photon_sampling_ : nat;
  radiation_photon_gamma_threshold_ : R;
  inv_radiation_photon_sampling_ : R;
  new_photons_ : Particles;
  rand_ : nat
}.

Definition set_new_photons (self : Radiation) (ph : Particles) : Radiation :=
  mkRadiation (one_over_mass_ self) (dt_ self) (epsilon_tau_ self)
              (max_monte_carlo_iterations_ self) (nDim_ self)
              (radiation_photon_sampling_ self)
              (radiation_photon_gamma_threshold_ self)
              (inv_radiation_photon_sampling_ self) ph (rand_ self).

Definition set_rand (self : Radiation) (n : nat) : Radiation :=
  mkRadiation (one_over_mass_ self) (dt_ self) (epsilon_tau_ self)
              (max_monte_carlo_iterations_ self) (nDim_ self)
              (radiation_photon_sampling_ self)
              (radiation_photon_gamma_threshold_ self)
              (inv_radiation_photon_sampling_ self) (new_photons_ self) n.

(** The constructor: the members it sets from the species. *)
Definition make (one_over_mass dt epsilon_tau : R) (max_monte_carlo_iterations : Z)
    (nDim sampling : nat) (gamma_threshold : R) (photons : Particles) : Radiation :=
  mkRadiation one_over_mass dt epsilon_tau max_monte_carlo_iterations nDim
              sampling gamma_threshold (1 / INR sampling) photons 0.

(** Modelled from the spec: [Particles::size] and [Particles::createParticles],
    which are not part of the sources at hand.  "createParticles(n): appends
    n uninitialised slots to a buffer; returns no value but grows size by n."
    The [chi] and [tau] columns exist when the capability flags say so.  A
    slot holds [0] until it is written. *)
Definition size (p : Particles) : nat := length (weight p).

Definition createParticles (p : Particles) (n : nat) : Particles :=
  mkParticles (map (fun column => column ++ replicate n 0) (Position p))
              (momentum_x p ++ replicate n 0)
              (momentum_y p ++ replicate n 0)
              (momentum_z p ++ replicate n 0)
              (weight p ++ replicate n 0)
              (charge p ++ replicate n 0%Z)
              (if isQuantumParameter p then chi p ++ replicate n 0 else chi p)
              (if isMonteCarlo p then tau p ++ replicate n 0 else tau p)
              (cell_keys p ++ replicate n 0%Z)
              (isQuantumParameter p) (isMonteCarlo p).

(** [p.position(d, i) = v]. *)
Definition store_position (p : Particles) (d i : nat) (v : R) : outcome Particles :=
  column ← load (Position p) d;
  column ← store column i v;
  Ok (mkParticles (<[d:=column]> (Position p))
                  (momentum_x p) (momentum_y p) (momentum_z p) (weight p)
                  (charge p) (chi p) (tau p) (cell_keys p)
                  (isQuantumParameter p) (isMonteCarlo p)).

Definition set_charge (p : Particles) (c : list Z) : Particles :=
  mkParticles (Position p) (momentum_x p) (momentum_y p) (momentum_z p)
              (weight p) c (chi p) (tau p) (cell_keys p)
              (isQuantumParameter p) (isMonteCarlo p).

(** [position_x[ipart]], [position_y[ipart]], [position_z[ipart]]. *)
Definition position_at (p : Particles) (d i : nat) : outcome R :=
  column ← load (Position p) d;
  load column i.

Section Kernel.

(** [Random::uniform], as the sequence of the values the generator yields,
    and [Radiation::computeParticleChi], both declared outside the sources
    at hand.  The arguments of the latter are the ratio of charge to squared
    mass, the momentum, the Lorentz factor and the two fields. *)
Variable uniform : nat -> R.
Variable computeParticleChi : R -> R * R * R -> R -> R * R * R -> R * R * R -> R.

Variable tables : RadiationTables.

(** The body of the loop "For all new photons...". *)
Definition photon_step (self : Radiation) (particles : Particles) (ipart : nat)
    (gammaph inv_old_norm_p photon_chi : R)
    (idNew : nat) (ph : Particles) : outcome Particles :=
  x ← position_at particles 0 ipart;
  ph ← store_position ph 0 idNew x;
  ph ← (if (1 <? nDim_ self)%nat then
          y ← position_at particles 1 ipart;
          ph ← store_position ph 1 idNew y;
          if (2 <? nDim_ self)%nat then
            z ← position_at particles 2 ipart;
            store_position ph 2 idNew z
          else Ok ph
        else Ok ph);
  '(px, py, pz) ← momentum_at particles ipart;
  mx ← store (momentum_x ph) idNew (gammaph * px * inv_old_norm_p);
  my ← store (momentum_y ph) idNew (gammaph * py * inv_old_norm_p);
  mz ← store (momentum_z ph) idNew (gammaph * pz * inv_old_norm_p);
  let ph := set_momentum ph mx my mz in
  w ← load (weight particles) ipart;
  wt ← store (weight ph) idNew (w * inv_radiation_photon_sampling_ self);
  let ph := set_weight ph wt in
  c ← store (charge ph) idNew 0%Z;
  let ph := set_charge ph c in
  ph ← (if isQuantumParameter ph then
          c ← store (chi ph) idNew photon_chi; Ok (set_chi ph c)
        else Ok ph);
  if isMonteCarlo ph then
    t ← store (tau ph) idNew (-1); Ok (set_tau ph t)
  else Ok ph.

(** [RadiationMonteCarlo::photonEmission], compiled without [_GPU].
    [photon_species] tells whether the pointer is non-null.  Returns the
    object (for [new_photons_]), the particles and the returned energy. *)
Definition photonEmission (self : Radiation) (ipart : nat)
    (particle_chi particle_gamma : R) (particles : Particles)
    (random_number : R) (photon_species : bool)
  : outcome (Radiation * Particles * R) :=
  let radiated_energy := 0 in
  let photon_chi :=
    computeRandomPhotonChiWithInterpolation tables particle_chi random_number in
  ratio ← fdiv photon_chi particle_chi;
  let gammaph := ratio * (particle_gamma - 1) in
  (* Update of the particle properties, with momentum conservation *)
  old_norm_p ← fsqrt (particle_gamma * particle_gamma - 1);
  inv_old_norm_p ← fdiv gammaph old_norm_p;
  '(px, py, pz) ← momentum_at particles ipart;
  mx ← store (momentum_x particles) ipart (px - px * inv_old_norm_p);
  my ← store (momentum_y particles) ipart (py - py * inv_old_norm_p);
  mz ← store (momentum_z particles) ipart (pz - pz * inv_old_norm_p);
  let particles := set_momentum particles mx my mz in
  '(px, py, pz) ← momentum_at particles ipart;
  (* Creation of macro-photons if requested *)
  if photon_species && Rleb (radiation_photon_gamma_threshold_ self) gammaph then
    let ph := createParticles (new_photons_ self) (radiation_photon_sampling_ self) in
    let npart := size ph in
    inv_old_norm_p ← fdiv 1 (sqrt (px * px + py * py + pz * pz));
    ph ← for_range (npart - radiation_photon_sampling_ self) npart
                   (photon_step self particles ipart gammaph inv_old_norm_p photon_chi) ph;
    Ok (set_new_photons self ph, particles, radiated_energy)
  else
    let gammaph := particle_gamma - sqrt (1 + px * px + py * py + pz * pz) in
    w ← load (weight particles) ipart;
    Ok (self, particles, radiated_energy + w * gammaph).

(** [Ex[k]], [Ey[k]], [Ez[k]] for a buffer laid out as [Ex.. Ey.. Ez..]:
    the three pointers are [&buffer[0]], [&buffer[nparts]] and
    [&buffer[2*nparts]], with [nparts = size / 3]. *)
Definition loadZ (a : list R) (i : Z) : outcome R :=
  if (i <? 0)%Z then Fail Undefined else load a (Z.to_nat i).

Definition field_at (part : list R) (k : Z) : outcome (R * R * R) :=
  let nparts := (Z.of_nat (length part) / 3)%Z in
  x ← loadZ part (0 * nparts + k);
  y ← loadZ part (1 * nparts + k);
  z ← loadZ part (2 * nparts + k);
  Ok (x, y, z).

(** The per-particle variables of [operator()]. *)
Record Local := mkLocal {
  emission_time : R;
  local_it_time : R;
  mc_it_nb : Z
}.

(** What [operator()] changes while it runs: the object ([new_photons_] and
    the generator), the particles and [radiated_energy_loc]. *)
Definition Run : Type := Radiation * Particles * R.

(** "New final optical depth to reach for emision":
    [while (tau[ipart] <= epsilon_tau_) tau[ipart] = -log(1. - rand_->uniform())]. *)
Fixpoint new_optical_depth (fuel : nat) (ipart : nat) (st : Radiation * Particles)
  : outcome (Radiation * Particles) :=
  let '(self, particles) := st in
  t ← load (tau particles) ipart;
  if Rleb t (epsilon_tau_ self) then
    match fuel with
    | O => Fail OutOfFuel
    | S fuel =>
        l ← fln (1 - uniform (rand_ self));
        tau' ← store (tau particles) ipart (- l);
        new_optical_depth fuel ipart
          (set_rand self (S (rand_ self)), set_tau particles tau')
    end
  else Ok st.

Inductive flow := Continue | Break.

(** One turn of the loop "Monte-Carlo Manager inside the time step". *)
Definition monte_carlo_step (fuel : nat) (photon_species : bool) (Epart Bpart : list R)
    (ipart : nat) (ipart_ref : Z) (charge_over_mass_square : R)
    (st : Run * Local) : outcome (flow * (Run * Local)) :=
  let '(self, particles, radiated_energy_loc, l) := st in
  '(px, py, pz) ← momentum_at particles ipart;
  let gamma := sqrt (1 + px * px + py * py + pz * pz) in
  if Reqb gamma 1 then Ok (Break, st)
  else
    E ← field_at Epart (Z.of_nat ipart - ipart_ref);
    B ← field_at Bpart (Z.of_nat ipart - ipart_ref);
    let particle_chi :=
      computeParticleChi charge_over_mass_square (px, py, pz) gamma E B in
    (* Discontinuous emission: New emission *)
    t ← load (tau particles) ipart;
    '(self, particles) ←
      (if Rltb (getMinimumChiDiscontinuous tables) particle_chi
          && Rleb t (epsilon_tau_ self)
       then new_optical_depth fuel ipart (self, particles)
       else Ok (self, particles));
    t ← load (tau particles) ipart;
    if Rltb (epsilon_tau_ self) t then
      (* Discontinuous emission: emission under progress *)
      let temp := computePhotonProductionYield tables particle_chi gamma in
      (* Time to discontinuous emission, or synchronization *)
      emission_time ← min_of_quotient t temp (dt_ self - local_it_time l);
      let t := t - temp * emission_time in
      tau' ← store (tau particles) ipart t;
      let particles := set_tau particles tau' in
      '(self, particles, radiated_energy_loc) ←
        (if Rleb t (epsilon_tau_ self) then
           let random_number := uniform (rand_ self) in
           let self := set_rand self (S (rand_ self)) in
           '(self, particles, e) ←
             photonEmission self ipart particle_chi gamma particles
                            random_number photon_species;
           tau' ← store (tau particles) ipart (-1);
           Ok (self, set_tau particles tau', radiated_energy_loc + e)
         else Ok (self, particles, radiated_energy_loc));
      Ok (Continue,
          (self, particles, radiated_energy_loc,
           mkLocal emission_time (local_it_time l + emission_time) (mc_it_nb l + 1)))
    else if Rleb particle_chi (getMinimumChiDiscontinuous tables)
            && Rleb t (epsilon_tau_ self)
            && Rltb (getMinimumChiContinuous tables) particle_chi
            && Rltb 1 gamma then
      (* Continuous emission *)
      let emission_time := dt_ self - local_it_time l in
      let cont_rad_energy :=
        getRidgersCorrectedRadiatedEnergy tables particle_chi emission_time in
      temp ← fdiv (cont_rad_energy * gamma) (gamma * gamma - 1);
      mx ← store (momentum_x particles) ipart (px - temp * px);
      my ← store (momentum_y particles) ipart (py - temp * py);
      mz ← store (momentum_z particles) ipart (pz - temp * pz);
      let particles := set_momentum particles mx my mz in
      '(px, py, pz) ← momentum_at particles ipart;
      w ← load (weight particles) ipart;
      Ok (Continue,
          (self, particles,
           radiated_energy_loc + w * (gamma - sqrt (1 + px * px + py * py + pz * pz)),
           mkLocal emission_time (dt_ self) (mc_it_nb l)))
    else
      (* No emission since particle_chi is too low *)
      Ok (Continue,
          (self, particles, radiated_energy_loc,
           mkLocal (emission_time l) (dt_ self) (mc_it_nb l))).

(** [while ((local_it_time < dt_) && (mc_it_nb < max_monte_carlo_iterations_))]. *)
Fixpoint monte_carlo_loop (fuel fuel_tau : nat) (photon_species : bool)
    (Epart Bpart : list R) (ipart : nat) (ipart_ref : Z)
    (charge_over_mass_square : R) (st : Run * Local) : outcome (Run * Local) :=
  let '(self, _, _, l) := st in
  if Rltb (local_it_time l) (dt_ self)
     && (mc_it_nb l <? max_monte_carlo_iterations_ self)%Z then
    match fuel with
    | O => Fail OutOfFuel
    | S fuel =>
        '(f, st) ← monte_carlo_step fuel_tau photon_species Epart Bpart ipart
                                    ipart_ref charge_over_mass_square st;
        match f with
        | Break => Ok st
        | Continue =>
            monte_carlo_loop fuel fuel_tau photon_species Epart Bpart ipart
                             ipart_ref charge_over_mass_square st
        end
    end
  else Ok st.

(** The body of the first loop over the particles. *)
Definition particle_step (fuel fuel_tau : nat) (photon_species : bool)
    (Epart Bpart : list R) (ipart_ref : Z) (ipart : nat) (st : Run) : outcome Run :=
  let '(self, particles, _) := st in
  c ← load (charge particles) ipart;
  let charge_over_mass_square := IZR c * (one_over_mass_ self) ^ 2 in
  '(st, _) ← monte_carlo_loop fuel fuel_tau photon_species Epart Bpart ipart
                              ipart_ref charge_over_mass_square
                              (st, mkLocal 0 0 0);
  Ok st.

(** The body of the second loop: "Update of the quantum parameter chi". *)
Definition chi_step (self : Radiation) (Epart Bpart : list R) (ipart_ref : Z)
    (ipart : nat) (particles : Particles) : outcome Particles :=
  c ← load (charge particles) ipart;
  let charge_over_mass_square := IZR c * (one_over_mass_ self) ^ 2 in
  '(px, py, pz) ← momentum_at particles ipart;
  let gamma := sqrt (1 + px * px + py * py + pz * pz) in
  E ← field_at Epart (Z.of_nat ipart - ipart_ref);
  B ← field_at Bpart (Z.of_nat ipart - ipart_ref);
  c ← store (chi particles) ipart
            (computeParticleChi charge_over_mass_square (px, py, pz) gamma E B);
  Ok (set_chi particles c).

(** [for (int ipart = istart; ipart < iend; ipart++)]. *)
Definition int_range {S : Type} (istart iend : Z) (body : nat -> S -> outcome S) (s : S)
  : outcome S :=
  if (iend <=? istart)%Z then Ok s
  else if (istart <? 0)%Z then Fail Undefined
  else for_range (Z.to_nat istart) (Z.to_nat iend) body s.

(** [RadiationMonteCarlo::operator()], compiled without [_GPU].  The two
    kinds of fuel bound the turns of the Monte-Carlo loop of a particle and
    the draws of one new optical depth.  Returns the object, the particles
    and [radiated_energy]. *)
Definition call (fuel fuel_tau : nat) (self : Radiation) (particles : Particles)
    (photon_species : bool) (Epart Bpart : list R) (radiated_energy : R)
    (istart iend ipart_ref : Z) : outcome (Radiation * Particles * R) :=
  let radiated_energy_loc := 0 in
  '(self, particles, radiated_energy_loc) ←
    int_range istart iend
              (particle_step fuel fuel_tau photon_species Epart Bpart ipart_ref)
              (self, particles, radiated_energy_loc);
  let radiated_energy := radiated_energy + radiated_energy_loc in
  particles ← int_range istart iend (chi_step self Epart Bpart ipart_ref) particles;
  Ok (self, particles, radiated_energy).

End Kernel.

End RadiationMonteCarlo.

Import MergingVranic RadiationMonteCarlo.

(** * The quantities of the specification

    What the properties below measure on a particle store: the particles of
    a packet and their total weight, weighted momentum and weighted
    energy. *)

(** The four particles of packet [ipack] of the momentum cell whose
    particles start at [first] in [sorted_particles]. *)
Definition packet (sorted_particles : list Z) (first : Z) (ipack : nat)
  : outcome (list nat) :=
  let member k := load sorted_particles
                       (Z.to_nat (wrap (first + Z.of_nat (ipack * 4 + k)))) in
  z0 ← member 0%nat; z1 ← member 1%nat; z2 ← member 2%nat; z3 ← member 3%nat;
  Ok [Z.to_nat z0; Z.to_nat z1; Z.to_nat z2; Z.to_nat z3].

(** The sum of [weight[i]] over the particles [ids]. *)
Fixpoint total_weight (p : Particles) (ids : list nat) : outcome R :=
  match ids with
  | [] => Ok 0
  | i :: ids =>
      w ← load (weight p) i;
      rest ← total_weight p ids;
      Ok (w + rest)
  end.

(** The sum of [weight[i] * momentum[i]] over the particles [ids]. *)
Fixpoint weighted_momentum (p : Particles) (ids : list nat) : outcome (R * R * R) :=
  match ids with
  | [] => Ok (0, 0, 0)
  | i :: ids =>
      w ← load (weight p) i;
      '(px, py, pz) ← momentum_at p i;
      '(sx, sy, sz) ← weighted_momentum p ids;
      Ok (w * px + sx, w * py + sy, w * pz + sz)
  end.

(** The sum of [weight[i] * sqrt (1 + |momentum[i]|^2)] over the particles
    [ids]. *)
Fixpoint weighted_energy (p : Particles) (ids : list nat) : outcome R :=
  match ids with
  | [] => Ok 0
  | i :: ids =>
      w ← load (weight p) i;
      '(px, py, pz) ← momentum_at p i;
      rest ← weighted_energy p ids;
      Ok (w * sqrt (1 + px * px + py * py + pz * pz) + rest)
  end.

(** Two outcomes agree: the same failure, or results related by [R]. *)
Definition same_outcome {A : Type} (R : A -> A -> Prop) (a b : outcome A) : Prop :=
  match a, b with
  | Ok x, Ok y => R x y
  | Fail e, Fail e' => e = e'
  | _, _ => False
  end.

(** Two stores with the same momenta and weights, and as many tags. *)
Definition alike (p q : Particles) : Prop :=
  momentum_x p = momentum_x q /\ momentum_y p = momentum_y q /\
  momentum_z p = momentum_z q /\ weight p = weight q /\
  length (cell_keys p) = length (cell_keys q).

(** The part of an outcome of the merger that is the particle store. *)
Definition particles_of (r : outcome (Merging * Particles)) : outcome Particles :=
  '(_, particles) ← r; Ok particles.

(** Particle [j] of the buffer [ph] is a photon of weight [w] and momentum
    [m], without charge, at the position of particle [ipart] of [particles]
    in the [nDim] dimensions of the simulation. *)
Definition is_photon_of (nDim : nat) (particles : Particles) (ipart : nat)
    (w : R) (m : R * R * R) (ph : Particles) (j : nat) : Prop :=
  load (weight ph) j = Ok w /\
  load (charge ph) j = Ok 0%Z /\
  momentum_at ph j = Ok m /\
  forall d, (d < nDim)%nat ->
    exists x, position_at particles d ipart = Ok x /\ position_at ph d j = Ok x.

(** Particle [j] is the same in the buffers [ph] and [ph']. *)
Definition same_particle (ph ph' : Particles) (j : nat) : Prop :=
  load (weight ph') j = load (weight ph) j /\
  load (charge ph') j = load (charge ph) j /\
  momentum_at ph' j = momentum_at ph j /\
  forall d, position_at ph' d j = position_at ph d j.

(** * Test stores

    A cell of twelve particles with entry tags [keys].  Particles 0 to 7
    share the momentum (3/4, 0, 0) and the weight [w]; particles 8 and 10
    have the momentum (0, 2, 0), particles 9 and 11 the momentum (0, 0, 1),
    all four with weight 1.  The norms range over [3/4, 2] and both angles
    over [0, PI/2], so no axis of the momentum grid collapses. *)

Definition store12 (mx my mz w : list R) (keys : list Z) : Particles :=
  mkParticles [] mx my mz w [] [] [] keys false false.

Definition twelve (w : R) (keys : list Z) : Particles :=
  store12 [3/4; 3/4; 3/4; 3/4; 3/4; 3/4; 3/4; 3/4; 0; 0; 0; 0]
          [0; 0; 0; 0; 0; 0; 0; 0; 2; 0; 2; 0]
          [0; 0; 0; 0; 0; 0; 0; 0; 0; 1; 0; 1]
          [w; w; w; w; w; w; w; w; 1; 1; 1; 1]
          keys.

Definition no_tags : list Z := replicate 12 0%Z.

(** The same tags, with particle 1 dead on entry. *)
Definition one_dead : list Z := [0; -1; 0; 0; 0; 0; 0; 0; 0; 0; 0; 0]%Z.

(** A merger with threshold 0, configured with a 7 x 3 x 2 grid. *)
Definition merger0 : Merging := mkMerging 0 (7, 3, 2)%Z.

(** The extrema of the twelve particles after inflation, and the three
    steps of the discretization. *)
Definition ex12 : Extrema := inflate (mkExtrema (3/4) 2 0 (PI/2) 0 (PI/2)).
Definition dr12 : R := (mr_max ex12 - mr_min ex12) / 5.
Definition dt12 : R := (theta_max ex12 - theta_min ex12) / 5.
Definition dp12 : R := (phi_max ex12 - phi_min ex12) / 5.

(** The direction of the momentum cell [(theta_i, phi_i)], and the table of
    the 25 directions in the order of [cell_vec_x], [cell_vec_y] and
    [cell_vec_z]. *)
Definition cell_direction (ex : Extrema) (theta_delta phi_delta : R) (theta_i phi_i : nat)
  : R * R * R :=
  let theta := theta_min ex + (INR theta_i + 0.5) * theta_delta in
  let phi := phi_min ex + (INR phi_i + 0.5) * phi_delta in
  (cos phi * cos theta, cos phi * sin theta, sin phi).

Definition cell_table (ex : Extrema) (theta_delta phi_delta : R) : list (R * R * R) :=
  map (fun k => cell_direction ex theta_delta phi_delta (k / 5) (k mod 5)) (seq 0 25).

Definition direction12 : R * R * R := cell_direction ex12 dt12 dp12 0 0.

(** The result of the counting sort of the twelve particles: the cell 0
    holds the particles 0 to 7, the cell 4 the particles 9 and 11, the cell
    120 the particles 8 and 10. *)
Definition sorted_12 : list Z := [0; 1; 2; 3; 4; 5; 6; 7; 9; 11; 8; 10]%Z.
Definition offsets_12 : list Z :=
  [0; 8; 8; 8; 8]%Z ++ replicate 116 10%Z ++ replicate 4 12%Z.
Definition counts_12 : list Z :=
  [8; 0; 0; 0; 2]%Z ++ replicate 115 0%Z ++ [2]%Z ++ replicate 4 0%Z.

Definition scratch12 : Sorted :=
  mkSorted sorted_12 offsets_12 counts_12
           (map (fun d => d.1.1) (cell_table ex12 dt12 dp12))
           (map (fun d => d.1.2) (cell_table ex12 dt12 dp12))
           (map (fun d => d.2) (cell_table ex12 dt12 dp12)).

(** The angle [omega] of the packets of cell 0. *)
Definition omega12 : R := acos (9 / 16).

(** The twelve particles of weight 3/4 after the first packet of cell 0,
    and after both packets, for a cell direction [(_, dy, dz)]. *)
Definition after_packet_0 (k0 k1 k4 k5 k6 k7 k8 k9 k10 k11 : Z) (dy dz : R) : Particles :=
  let ay := 4 / 3 * (sin omega12 * dy) in
  let az := 4 / 3 * (sin omega12 * dz) in
  store12 [3/4; 3/4; 3/4; 3/4; 3/4; 3/4; 3/4; 3/4; 0; 0; 0; 0]
          [ay; - ay; 0; 0; 0; 0; 0; 0; 2; 0; 2; 0]
          [az; - az; 0; 0; 0; 0; 0; 0; 0; 1; 0; 1]
          [3/2; 3/2; 3/4; 3/4; 3/4; 3/4; 3/4; 3/4; 1; 1; 1; 1]
          [k0; k1; -1; -1; k4; k5; k6; k7; k8; k9; k10; k11]%Z.

Definition after_packet_1 (k0 k1 k4 k5 k6 k7 k9 k11 : Z) (dy dz : R) : Particles :=
  let ay := 4 / 3 * (sin omega12 * dy) in
  let az := 4 / 3 * (sin omega12 * dz) in
  store12 [3/4; 3/4; 3/4; 3/4; 3/4; 3/4; 3/4; 3/4; 0; 0; 0; 0]
          [ay; - ay; 0; 0; ay; - ay; 0; 0; 2; 0; 2; 0]
          [az; - az; 0; 0; az; - az; 0; 0; 0; 1; 0; 1]
          [3/2; 3/2; 3/4; 3/4; 3/2; 3/2; 3/4; 3/4; 1; 1; 1; 1]
          [k0; k1; -1; -1; k4; k5; k6; k7; -1; k9; -1; k11]%Z.

(** A cell of five particles with the same momentum (1, 0, 0) and the
    weight 1: the three axes of the momentum grid collapse. *)
Definition five : Particles :=
  store12 [1; 1; 1; 1; 1] [0; 0; 0; 0; 0] [0; 0; 0; 0; 0] [1; 1; 1; 1; 1]
          (replicate 5 0%Z).

(** An electron at the position 7 of a simulation in one dimension, with
    the momentum (4/3, 0, 0), that is the Lorentz factor 5/3, the weight 3
    and the optical depth [t]; an empty buffer of photons; tables whose
    photon chi is [ratio] times the chi of the particle, with a yield of 1
    and the thresholds 1/4 and 1/2; a radiation object with a time step of
    2, one Monte-Carlo iteration, two photons per emission and no threshold
    on the photon gamma. *)
Definition electron (t : R) : Particles :=
  mkParticles [[7]] [4/3] [0] [0] [3] [-1]%Z [0] [t] [0]%Z true true.

Definition no_photons : Particles :=
  mkParticles [[]] [] [] [] [] [] [] [] [] true true.

Definition tables0 (ratio : R) : RadiationTables :=
  mkRadiationTables (1/2) (1/4) (fun chi gamma => 1) (fun chi dt => 0)
                    (fun chi u => ratio * chi).

Definition radiation0 : Radiation := make 1 2 (1/2) 1 1 2 0 no_photons.

(** The electron after an emission with the factor of recoil [f], and the
    two photons of momentum [q] along x that the emission appends. *)
Definition electron_after (f t : R) : Particles :=
  mkParticles [[7]] [4/3 - 4/3 * f] [0 - 0 * f] [0 - 0 * f] [3] [-1]%Z [0] [t] [0]%Z
              true true.

Definition two_photons (q chi_photon : R) : Particles :=
  mkParticles [[7; 7]] [q; q] [0; 0] [0; 0] [3 / 2; 3 / 2] [0; 0]%Z
              [chi_photon; chi_photon] [-1; -1] [0; 0]%Z true true.

(** Tables like [tables0 (1/2)] whose yield of photons is zero. *)
Definition tables_zero_yield : RadiationTables :=
  mkRadiationTables (1/2) (1/4) (fun chi gamma => 0) (fun chi dt => 0)
                    (fun chi u => 1/2 * chi).

(** An electron at rest. *)
Definition electron_at_rest (t : R) : Particles :=
  mkParticles [[7]] [0] [0] [0] [3] [-1]%Z [0] [t] [0]%Z true true.

(** The runs of [operator()] below have no field, a generator that always
    yields [1 - exp (-1)], so that every optical depth drawn is 1, and a
    quantum parameter [c] whatever the particle. *)
Definition no_field : list R := [0; 0; 0].

Definition uniform0 (n : nat) : R := 1 - exp (-1).

Definition chi_const (c : R) : R -> R * R * R -> R -> R * R * R -> R * R * R -> R :=
  fun _ _ _ _ _ => c.

(** How the column [tau] may change from [a] to [b] while the radiation
    runs: an entry keeps its value, or becomes -1, or ends above [eps]. *)
Definition tau_kept (eps : R) (a b : list R) : Prop :=
  length b = length a /\
  forall i t', b !! i = Some t' -> a !! i = Some t' \/ t' = -1 \/ eps < t'.

(** * Invariants of the loops and frames of the two kernels

    What the loops of [operator()] have established after a number of
    turns, and what a call may change of a store. *)

(** The number of entries of [l] equal to [c], and the number of entries
    below [c]. *)
Fixpoint occurrences (c : Z) (l : list Z) : nat :=
  match l with
  | [] => 0
  | x :: l => ((if (x =? c)%Z then 1 else 0) + occurrences c l)%nat
  end.

Fixpoint below (c : Z) (l : list Z) : nat :=
  match l with
  | [] => 0
  | x :: l => ((if (x <? c)%Z then 1 else 0) + below c l)%nat
  end.

(** The slot of the entry [k] of [l] in the sorted vector. *)
Definition slot (l : list Z) (k : nat) (c : Z) : nat :=
  (below c l + occurrences c (take k l))%nat.

(** What the vector [particles_per_momentum_cells] holds when the first [k]
    entries of [momentum_cell_index] are counted. *)
Definition counted (mci : list Z) (cells k : nat) (counts : list Z) : Prop :=
  length counts = cells /\
  forall c, (c < cells)%nat ->
    counts !! c = Some (Z.of_nat (occurrences (Z.of_nat c) (take k mci))).

(** What [momentum_cell_particle_index] and [particles_per_momentum_cells]
    hold when the loop over the cells is about to run its turn [ic]. *)
Definition offsets_upto (mci : list Z) (cells ic : nat) (st : list Z * list Z) : Prop :=
  length st.1 = cells /\ length st.2 = cells /\
  (forall c, (c < ic)%nat ->
     st.1 !! c = Some (Z.of_nat (below (Z.of_nat c) mci))) /\
  (forall c, (c + 1 < ic)%nat -> st.2 !! c = Some 0%Z) /\
  (forall c, (ic <= c + 1)%nat -> (c < cells)%nat ->
     st.2 !! c = Some (Z.of_nat (occurrences (Z.of_nat c) mci))).

(** What [sorted_particles] and the counters hold when the first [k]
    particles are placed. *)
Definition placed (mci : list Z) (istart cells k : nat) (st : list Z * list Z) : Prop :=
  length st.1 = length mci /\
  counted mci cells k st.2 /\
  forall ip c, (ip < k)%nat -> mci !! ip = Some c ->
    st.1 !! slot mci ip c = Some (Z.of_nat (istart + ip)).

(** Particle [i] has the same momentum, weight and tag in [p] and [p']. *)
Definition untouched (i : nat) (p p' : Particles) : Prop :=
  momentum_x p' !! i = momentum_x p !! i /\
  momentum_y p' !! i = momentum_y p !! i /\
  momentum_z p' !! i = momentum_z p !! i /\
  weight p' !! i = weight p !! i /\
  cell_keys p' !! i = cell_keys p !! i.

(** The columns that the merger has no statement for. *)
Definition same_other_columns (p p' : Particles) : Prop :=
  Position p' = Position p /\ charge p' = charge p /\ chi p' = chi p /\
  tau p' = tau p /\ isQuantumParameter p' = isQuantumParameter p /\
  isMonteCarlo p' = isMonteCarlo p.

(** The store [p'] differs from [p] at most in the momentum, the weight and
    the tag of particles listed in [sorted]. *)
Definition only_sorted (sorted : list Z) (p p' : Particles) : Prop :=
  same_other_columns p p' /\
  forall i, (forall z, z ∈ sorted -> Z.to_nat z <> i) -> untouched i p p'.

(** Particle [ipart] has its two angles in the scratch vectors [th] and
    [ph], and its norm and angles between the extrema [ex]. *)
Definition within (ex : Extrema) (particles : Particles) (istart : nat)
    (th ph : list R) (ipart : nat) : Prop :=
  exists px py pz,
    momentum_at particles ipart = Ok (px, py, pz) /\
    th !! (ipart - istart)%nat = Some (atan2 py px) /\
    ph !! (ipart - istart)%nat = Some (asin (pz / sqrt (px * px + py * py + pz * pz))) /\
    mr_min ex <= sqrt (px * px + py * py + pz * pz) <= mr_max ex /\
    theta_min ex <= atan2 py px <= theta_max ex /\
    phi_min ex <= asin (pz / sqrt (px * px + py * py + pz * pz)) <= phi_max ex.

(** The state of the loop of the first step when the particles before [k]
    are seen. *)
Definition bounded_upto (particles : Particles) (istart n k : nat) (st : BoundsState)
  : Prop :=
  length st.1.2 = n /\ length st.2 = n /\
  forall ipart, (istart <= ipart < k)%nat -> within st.1.1 particles istart st.1.2 st.2 ipart.

(** The three vectors hold the direction of the cell [(theta_i, phi_i)] at
    the index [theta_i * d2 + phi_i]. *)
Definition holds_direction (ex : Extrema) (theta_delta phi_delta : R) (d2 : nat)
    (cv : list R * list R * list R) (theta_i phi_i : nat) : Prop :=
  let d := cell_direction ex theta_delta phi_delta theta_i phi_i in
  cv.1.1 !! (theta_i * d2 + phi_i)%nat = Some d.1.1 /\
  cv.1.2 !! (theta_i * d2 + phi_i)%nat = Some d.1.2 /\
  cv.2 !! (theta_i * d2 + phi_i)%nat = Some d.2.

(** The three vectors have [n] entries each. *)
Definition same_lengths (n : nat) (cv : list R * list R * list R) : Prop :=
  length cv.1.1 = n /\ length cv.1.2 = n /\ length cv.2 = n.

(** What the radiation may change of a store: the momentum, the optical
    depth and the quantum parameter of the particles [i] that satisfy
    [inside]. *)
Definition radiated (inside : nat -> Prop) (p p' : Particles) : Prop :=
  Position p' = Position p /\ weight p' = weight p /\ charge p' = charge p /\
  cell_keys p' = cell_keys p /\ isQuantumParameter p' = isQuantumParameter p /\
  isMonteCarlo p' = isMonteCarlo p /\
  forall i, ~ inside i ->
    momentum_x p' !! i = momentum_x p !! i /\ momentum_y p' !! i = momentum_y p !! i /\
    momentum_z p' !! i = momentum_z p !! i /\ tau p' !! i = tau p !! i /\
    chi p' !! i = chi p !! i.

(** What the radiation may change of its object: the buffer of photons and
    the state of the generator. *)
Definition same_settings (self self' : Radiation) : Prop :=
  one_over_mass_ self' = one_over_mass_ self /\ dt_ self' = dt_ self /\
  epsilon_tau_ self' = epsilon_tau_ self /\
  max_monte_carlo_iterations_ self' = max_monte_carlo_iterations_ self /\
  nDim_ self' = nDim_ self /\
  radiation_photon_sampling_ self' = radiation_photon_sampling_ self /\
  radiation_photon_gamma_threshold_ self' = radiation_photon_gamma_threshold_ self /\
  inv_radiation_photon_sampling_ self' = inv_radiation_photon_sampling_ self.

(** Every momentum of [p'] is the momentum of the same particle in [p]
    times a factor. *)
Definition rescaled (p p' : Particles) : Prop :=
  forall i px py pz, momentum_at p i = Ok (px, py, pz) ->
    exists k, momentum_at p' i = Ok (k * px, k * py, k * pz).

(** A draw of the generator that gives an optical depth above
    [epsilon_tau_], or no number at all. *)
Definition good_draws (uniform : nat -> R) (eps : R) : Prop :=
  forall n, 1 - uniform n <= 0 \/ eps < - ln (1 - uniform n).

(** The quantum parameter of particle [i] in [p] is the one that
    [computeParticleChi] gives for the charge and the momentum of the
    particle in [q] and the fields at the particle. *)
Definition chi_updated
    (computeParticleChi : R -> R * R * R -> R -> R * R * R -> R * R * R -> R)
    (self : Radiation) (Epart Bpart : list R) (ipart_ref : Z)
    (q p : Particles) (i : nat) : Prop :=
  exists c px py pz E B,
    load (charge q) i = Ok c /\ momentum_at q i = Ok (px, py, pz) /\
    field_at Epart (Z.of_nat i - ipart_ref) = Ok E /\
    field_at Bpart (Z.of_nat i - ipart_ref) = Ok B /\
    load (chi p) i
    = Ok (computeParticleChi (IZR c * one_over_mass_ self ^ 2) (px, py, pz)
            (sqrt (1 + px * px + py * py + pz * pz)) E B).

(** * Properties *)

(** ** The outcome monad, loops and arrays *)

Lemma bind_Ok {A B : Type} (m : outcome A) (f : A -> outcome B) (b : B) :
  m ≫= f = Ok b -> exists a, m = Ok a /\ f a = Ok b.
Proof.
  destruct m as [a|e]; cbn; intros H; [exists a; split; [reflexivity|exact H] | discriminate].
Qed.

Lemma bind_Ok_l {A B : Type} (m : outcome A) (f : A -> outcome B) (a : A) :
  m = Ok a -> m ≫= f = f a.
Proof. intros ->. reflexivity. Qed.

(** Splits a hypothesis [m ≫= f = Ok b] into its two halves. *)
Tactic Notation "bind_inv" hyp(H) :=
  let a := fresh "a" in
  let Ha := fresh "Ha" in
  apply bind_Ok in H; destruct H as (a & Ha & H).

Tactic Notation "bind_inv" hyp(H) "as" ident(a) ident(Ha) :=
  apply bind_Ok in H; destruct H as (a & Ha & H).

Lemma for_loop_step {S : Type} (n i : nat) (body : nat -> S -> outcome S) (s s' : S) :
  body i s = Ok s' ->
  for_loop (Datatypes.S n) i body s = for_loop n (Datatypes.S i) body s'.
Proof. intros H. cbn. rewrite H. reflexivity. Qed.

Lemma for_loop_idle {S : Type} (n i : nat) (body : nat -> S -> outcome S) (s : S) :
  (forall j, (i <= j < i + n)%nat -> body j s = Ok s) ->
  for_loop n i body s = Ok s.
Proof.
  revert i. induction n as [|n IH]; intros i H; [reflexivity|].
  rewrite (for_loop_step n i body s s) by (apply H; lia).
  apply IH. intros j Hj. apply H. lia.
Qed.

Lemma for_loop_app {S : Type} (n m i : nat) (body : nat -> S -> outcome S) (s : S) :
  for_loop (n + m) i body s = s' ← for_loop n i body s; for_loop m (i + n) body s'.
Proof.
  revert i s. induction n as [|n IH]; intros i s; cbn.
  - replace (i + 0)%nat with i by lia. reflexivity.
  - destruct (body i s) as [s1|e]; cbn; [|reflexivity].
    rewrite IH. replace (Datatypes.S i + n)%nat with (i + Datatypes.S n)%nat by lia.
    reflexivity.
Qed.

(** A property of the state that every turn keeps holds after the loop. *)
Lemma for_loop_inv {S : Type} (P : S -> Prop) (n i : nat)
    (body : nat -> S -> outcome S) (s s' : S) :
  (forall j x y, P x -> body j x = Ok y -> P y) ->
  P s -> for_loop n i body s = Ok s' -> P s'.
Proof.
  intros Hbody. revert i s. induction n as [|n IH]; intros i s Hs H; cbn in H.
  - injection H as <-. exact Hs.
  - bind_inv H. eapply IH; [|exact H]. eapply Hbody; eassumption.
Qed.

Lemma for_range_4 {S : Type} (b : nat) (body : nat -> S -> outcome S) (s : S) :
  for_range b (b + 4) body s =
  s1 ← body b s; s2 ← body (b + 1)%nat s1; s3 ← body (b + 2)%nat s2; body (b + 3)%nat s3.
Proof.
  unfold for_range. replace (b + 4 - b)%nat with 4%nat by lia. cbn.
  replace (Datatypes.S b) with (b + 1)%nat by lia.
  replace (Datatypes.S (b + 1)) with (b + 2)%nat by lia.
  replace (Datatypes.S (b + 2)) with (b + 3)%nat by lia.
  destruct (body b s) as [s1|]; cbn; [|reflexivity].
  destruct (body (b + 1)%nat s1) as [s2|]; cbn; [|reflexivity].
  destruct (body (b + 2)%nat s2) as [s3|]; cbn; [|reflexivity].
  destruct (body (b + 3)%nat s3); reflexivity.
Qed.

Lemma for_range_2 {S : Type} (b : nat) (body : nat -> S -> outcome S) (s : S) :
  for_range (b + 2) (b + 4) body s = s1 ← body (b + 2)%nat s; body (b + 3)%nat s1.
Proof.
  unfold for_range. replace (b + 4 - (b + 2))%nat with 2%nat by lia. cbn.
  replace (Datatypes.S (b + 2)) with (b + 3)%nat by lia.
  destruct (body (b + 2)%nat s) as [s1|]; cbn; [|reflexivity].
  destruct (body (b + 3)%nat s1); reflexivity.
Qed.

Lemma load_Ok {A : Type} (a : list A) (i : nat) (v : A) :
  load a i = Ok v <-> a !! i = Some v.
Proof.
  unfold load. destruct (a !! i); split; intros H; try discriminate; congruence.
Qed.

Lemma store_Ok {A : Type} (a a' : list A) (i : nat) (v : A) :
  store a i v = Ok a' <-> (i < length a)%nat /\ a' = <[i:=v]> a.
Proof.
  unfold store. destruct (Nat.ltb_spec i (length a)); split.
  - intros [= <-]. split; [assumption|reflexivity].
  - intros [_ ->]. reflexivity.
  - discriminate.
  - intros [H' _]. lia.
Qed.

Lemma store_length {A : Type} (a a' : list A) (i : nat) (v : A) :
  store a i v = Ok a' -> length a' = length a.
Proof. intros [_ ->]%store_Ok. apply length_insert. Qed.

Lemma store_same {A : Type} (a a' : list A) (i : nat) (v : A) :
  store a i v = Ok a' -> a' !! i = Some v.
Proof. intros [Hi ->]%store_Ok. apply list_lookup_insert_eq. exact Hi. Qed.

Lemma store_other {A : Type} (a a' : list A) (i j : nat) (v : A) :
  store a i v = Ok a' -> i <> j -> a' !! j = a !! j.
Proof. intros [_ ->]%store_Ok Hij. apply list_lookup_insert_ne. exact Hij. Qed.

(** ** One packet of the merger *)

Lemma momentum_at_Ok (p : Particles) (i : nat) (px py pz : R) :
  momentum_at p i = Ok (px, py, pz) <->
  momentum_x p !! i = Some px /\ momentum_y p !! i = Some py /\ momentum_z p !! i = Some pz.
Proof.
  unfold momentum_at, load.
  destruct (momentum_x p !! i), (momentum_y p !! i), (momentum_z p !! i); cbn;
    split; try discriminate; try (intros (? & ? & ?); discriminate).
  - intros [= -> -> ->]. auto.
  - intros ([= ->] & [= ->] & [= ->]). reflexivity.
Qed.

(** The two merged momenta carry, with half of the total weight each, the
    total momentum of the packet. *)
Lemma merged_momenta_sum (tw tm0 tm1 tm2 te : R) (d ma mb : R * R * R) :
  merged_momenta (tw, (tm0, tm1, tm2), te) d = Ok (ma, mb) ->
  0.5 * tw * ma.1.1 + 0.5 * tw * mb.1.1 = tm0 /\
  0.5 * tw * ma.1.2 + 0.5 * tw * mb.1.2 = tm1 /\
  0.5 * tw * ma.2 + 0.5 * tw * mb.2 = tm2.
Proof.
  destruct d as [[dx dy] dz]. unfold merged_momenta.
  intros H.
  bind_inv H. bind_inv H. bind_inv H. bind_inv H. bind_inv H. bind_inv H. bind_inv H.
  injection H as <- <-. cbn [fst snd].
  unfold fdiv in *. unfold fsqrt in *. unfold facos in *.
  repeat match goal with
         | H : (if ?c then _ else _) = Ok _ |- _ => destruct c; [discriminate|]
         end.
  repeat match goal with
         | H : Ok _ = Ok _ |- _ => injection H as <-
         end.
  set (N := sqrt (tm0 * tm0 + tm1 * tm1 + tm2 * tm2)) in *.
  set (pa := sqrt (te / tw * (te / tw) - 1)) in *.
  assert (Hcos : cos (acos (N / (tw * pa))) = N / (tw * pa)) by (apply cos_acos; lra).
  rewrite Hcos. replace 0.5 with (/ 2) by lra.
  assert (Hpa : pa <> 0) by (intros E; rewrite E, Rmult_0_r in *; congruence).
  repeat split; field; repeat split; assumption.
Qed.

Lemma totals_step_Ok (p : Particles) (sorted : list Z) (first : Z) (ip : nat)
    (tw a b c te : R) (t' : Totals) :
  totals_step p sorted first ip (tw, (a, b, c), te) = Ok t' ->
  exists z w px py pz,
    load sorted (Z.to_nat (wrap (first + Z.of_nat ip))) = Ok z /\
    load (weight p) (Z.to_nat z) = Ok w /\
    momentum_at p (Z.to_nat z) = Ok (px, py, pz) /\
    t' = (tw + w, (a + px * w, b + py * w, c + pz * w),
          te + sqrt (1 + px * px + py * py + pz * pz)).
Proof.
  unfold totals_step. intros H.
  bind_inv H as z Hz. bind_inv H as w Hw. bind_inv H as m Hm. destruct m as [[px py] pz].
  injection H as <-. exists z, w, px, py, pz. auto.
Qed.

Lemma overwrite_Ok (p p' : Particles) (i : nat) (m : R * R * R) (w : R) :
  overwrite p i m w = Ok p' ->
  store (momentum_x p) i m.1.1 = Ok (momentum_x p') /\
  store (momentum_y p) i m.1.2 = Ok (momentum_y p') /\
  store (momentum_z p) i m.2 = Ok (momentum_z p') /\
  store (weight p) i w = Ok (weight p') /\
  cell_keys p' = cell_keys p.
Proof.
  destruct m as [[m0 m1] m2]. unfold overwrite. intros H.
  bind_inv H. bind_inv H. bind_inv H. bind_inv H. injection H as <-. cbn.
  repeat split; assumption.
Qed.

Lemma tag_step_Ok (sorted : list Z) (first ipack : Z) (ip : nat) (p p' : Particles) :
  tag_step sorted first ipack ip p = Ok p' ->
  momentum_x p' = momentum_x p /\ momentum_y p' = momentum_y p /\
  momentum_z p' = momentum_z p /\ weight p' = weight p /\
  exists z, load sorted (Z.to_nat (wrap (first + ipack * 4 + Z.of_nat ip))) = Ok z /\
            store (cell_keys p) (Z.to_nat z) (-1)%Z = Ok (cell_keys p').
Proof.
  unfold tag_step. intros H. bind_inv H as z Hz. bind_inv H as k Hk.
  injection H as <-. cbn. repeat split. exists z. auto.
Qed.

(** What a successful [merge_packet] did: it read four particles, computed
    the two merged momenta from their totals, and overwrote the first two;
    the tags leave momenta and weights alone. *)
Lemma merge_packet_Ok (sorted : list Z) (first : Z) (d : R * R * R) (ipack : nat)
    (p p' : Particles) :
  merge_packet sorted first d ipack p = Ok p' ->
  exists z0 z1 z2 z3 w0 w1 w2 w3 m0 m1 m2 m3 ma mb pa,
    packet sorted first ipack = Ok [Z.to_nat z0; Z.to_nat z1; Z.to_nat z2; Z.to_nat z3] /\
    (load (weight p) (Z.to_nat z0) = Ok w0 /\ momentum_at p (Z.to_nat z0) = Ok m0) /\
    (load (weight p) (Z.to_nat z1) = Ok w1 /\ momentum_at p (Z.to_nat z1) = Ok m1) /\
    (load (weight p) (Z.to_nat z2) = Ok w2 /\ momentum_at p (Z.to_nat z2) = Ok m2) /\
    (load (weight p) (Z.to_nat z3) = Ok w3 /\ momentum_at p (Z.to_nat z3) = Ok m3) /\
    merged_momenta
      (0 + w0 + w1 + w2 + w3,
       (0 + m0.1.1 * w0 + m1.1.1 * w1 + m2.1.1 * w2 + m3.1.1 * w3,
        0 + m0.1.2 * w0 + m1.1.2 * w1 + m2.1.2 * w2 + m3.1.2 * w3,
        0 + m0.2 * w0 + m1.2 * w1 + m2.2 * w2 + m3.2 * w3),
       0 + sqrt (1 + m0.1.1 * m0.1.1 + m0.1.2 * m0.1.2 + m0.2 * m0.2)
         + sqrt (1 + m1.1.1 * m1.1.1 + m1.1.2 * m1.1.2 + m1.2 * m1.2)
         + sqrt (1 + m2.1.1 * m2.1.1 + m2.1.2 * m2.1.2 + m2.2 * m2.2)
         + sqrt (1 + m3.1.1 * m3.1.1 + m3.1.2 * m3.1.2 + m3.2 * m3.2)) d
      = Ok (ma, mb) /\
    overwrite p (Z.to_nat z0) ma (0.5 * (0 + w0 + w1 + w2 + w3)) = Ok pa /\
    (exists pb, overwrite pa (Z.to_nat z1) mb (0.5 * (0 + w0 + w1 + w2 + w3)) = Ok pb /\
       momentum_x p' = momentum_x pb /\ momentum_y p' = momentum_y pb /\
       momentum_z p' = momentum_z pb /\ weight p' = weight pb).
Proof.
  unfold merge_packet. rewrite for_range_4. intros H.
  bind_inv H as t Ht.
  bind_inv Ht as t0 Ht0.
  apply totals_step_Ok in Ht0 as (z0 & w0 & x0 & y0 & u0 & Hz0 & Hw0 & Hm0 & ->).
  bind_inv Ht as t1 Ht1.
  apply totals_step_Ok in Ht1 as (z1 & w1 & x1 & y1 & u1 & Hz1 & Hw1 & Hm1 & ->).
  bind_inv Ht as t2 Ht2.
  apply totals_step_Ok in Ht2 as (z2 & w2 & x2 & y2 & u2 & Hz2 & Hw2 & Hm2 & ->).
  apply totals_step_Ok in Ht as (z3 & w3 & x3 & y3 & u3 & Hz3 & Hw3 & Hm3 & ->).
  bind_inv H as mm Hmm. destruct mm as [ma mb]. cbn [fst snd] in H.
  bind_inv H as za Hza. bind_inv H as pa Hpa.
  bind_inv H as zb Hzb. bind_inv H as pb Hpb.
  rewrite for_range_2 in H. bind_inv H as pc Hpc.
  apply tag_step_Ok in Hpc as (Hx4 & Hy4 & Hz4 & Hw4 & _).
  apply tag_step_Ok in H as (Hx5 & Hy5 & Hz5 & Hw5 & _).
  assert (E0 : za = z0) by (rewrite Hz0 in Hza; congruence). subst za.
  assert (E1 : zb = z1).
  { replace (first + Z.of_nat (ipack * 4) + 1)%Z
      with (first + Z.of_nat (ipack * 4 + 1))%Z in Hzb by lia.
    rewrite Hz1 in Hzb. congruence. }
  subst zb.
  exists z0, z1, z2, z3, w0, w1, w2, w3, (x0, y0, u0), (x1, y1, u1), (x2, y2, u2),
         (x3, y3, u3), ma, mb, pa.
  cbn [fst snd]. repeat split; try assumption.
  - unfold packet. replace (ipack * 4 + 0)%nat with (ipack * 4)%nat by lia.
    rewrite Hz0, Hz1, Hz2, Hz3. reflexivity.
  - exists pb. repeat split; congruence.
Qed.

Lemma load_congr {A : Type} (a : list A) (i : nat) (v v' : A) :
  load a i = Ok v -> v = v' -> load a i = Ok v'.
Proof. intros H <-. exact H. Qed.

(** After the two overwrites of a packet, both merged particles hold the
    weight that was written: a second write to the same particle writes the
    same value. *)
Lemma merged_weights (p pa pb : Particles) (i0 i1 : nat) (ma mb : R * R * R) (w : R) :
  overwrite p i0 ma w = Ok pa -> overwrite pa i1 mb w = Ok pb ->
  load (weight pb) i0 = Ok w /\ load (weight pb) i1 = Ok w.
Proof.
  intros (_ & _ & _ & Ha & _)%overwrite_Ok (_ & _ & _ & Hb & _)%overwrite_Ok.
  split; apply load_Ok.
  - destruct (decide (i1 = i0)) as [->|Hne].
    + eapply store_same; eassumption.
    + rewrite (store_other _ _ _ _ _ Hb Hne). eapply store_same; eassumption.
  - eapply store_same; eassumption.
Qed.

(** C4 - Weight conservation of the Vranic merger.  Whenever a packet of
    four particles is merged, each of the two surviving particles (the first
    two of the packet) receives half of the sum of the four weights, so the
    weights of the survivors add up to the weights of the four inputs. *)
Theorem merge_packet_conserves_weight (sorted : list Z) (first : Z) (d : R * R * R)
    (ipack : nat) (p p' : Particles) :
  merge_packet sorted first d ipack p = Ok p' ->
  exists i0 i1 i2 i3 w0 w1 w2 w3,
    packet sorted first ipack = Ok [i0; i1; i2; i3] /\
    load (weight p) i0 = Ok w0 /\ load (weight p) i1 = Ok w1 /\
    load (weight p) i2 = Ok w2 /\ load (weight p) i3 = Ok w3 /\
    load (weight p') i0 = Ok (0.5 * (w0 + w1 + w2 + w3)) /\
    load (weight p') i1 = Ok (0.5 * (w0 + w1 + w2 + w3)) /\
    total_weight p' [i0; i1] = Ok (w0 + w1 + w2 + w3).
Proof.
  intros H.
  apply merge_packet_Ok in H
    as (z0 & z1 & z2 & z3 & w0 & w1 & w2 & w3 & m0 & m1 & m2 & m3 & ma & mb & pa
        & Hpk & [Hw0 _] & [Hw1 _] & [Hw2 _] & [Hw3 _] & _ & Hpa & pb & Hpb & _ & _ & _ & Hw).
  destruct (merged_weights _ _ _ _ _ _ _ _ Hpa Hpb) as [Ha Hb].
  rewrite <- Hw in Ha, Hb.
  exists (Z.to_nat z0), (Z.to_nat z1), (Z.to_nat z2), (Z.to_nat z3), w0, w1, w2, w3.
  repeat split; try assumption.
  - eapply load_congr; [exact Ha|lra].
  - eapply load_congr; [exact Hb|lra].
  - cbn. rewrite Ha, Hb. cbn. f_equal. lra.
Qed.

(** After the two overwrites of a packet on two different particles, the
    first holds the first momentum and the second holds the second. *)
Lemma merged_particles (p pa pb : Particles) (i0 i1 : nat) (ma mb : R * R * R) (w : R) :
  overwrite p i0 ma w = Ok pa -> overwrite pa i1 mb w = Ok pb -> i0 <> i1 ->
  momentum_at pb i0 = Ok ma /\ momentum_at pb i1 = Ok mb.
Proof.
  intros (Hx & Hy & Hz & _)%overwrite_Ok (Hx' & Hy' & Hz' & _)%overwrite_Ok Hne.
  destruct ma as [[ax ay] az], mb as [[bx by'] bz]. cbn [fst snd] in *.
  split; apply momentum_at_Ok; repeat split.
  - rewrite (store_other _ _ _ _ _ Hx') by auto. eapply store_same; eassumption.
  - rewrite (store_other _ _ _ _ _ Hy') by auto. eapply store_same; eassumption.
  - rewrite (store_other _ _ _ _ _ Hz') by auto. eapply store_same; eassumption.
  - eapply store_same; eassumption.
  - eapply store_same; eassumption.
  - eapply store_same; eassumption.
Qed.

Lemma momentum_at_congr (p p' : Particles) (i : nat) :
  momentum_x p' = momentum_x p -> momentum_y p' = momentum_y p ->
  momentum_z p' = momentum_z p -> momentum_at p' i = momentum_at p i.
Proof. unfold momentum_at. intros -> -> ->. reflexivity. Qed.

(** X7 - Whenever a packet of four particles is merged and the computation
    stays within the real numbers (the new energy per weight is at least 1,
    the total momentum is not zero and the arc cosine is taken inside
    [-1, 1]), the two surviving particles, two different particles, carry
    component by component the weighted momentum of the four inputs: the
    terms in [sin omega] cancel. *)
Lemma merge_packet_conserves_momentum (sorted : list Z) (first : Z) (d : R * R * R)
    (ipack : nat) (p p' : Particles) (i0 i1 i2 i3 : nat) :
  merge_packet sorted first d ipack p = Ok p' ->
  packet sorted first ipack = Ok [i0; i1; i2; i3] ->
  i0 <> i1 ->
  exists m,
    weighted_momentum p [i0; i1; i2; i3] = Ok m /\
    weighted_momentum p' [i0; i1] = Ok m.
Proof.
  intros H Hpk Hne.
  apply merge_packet_Ok in H
    as (z0 & z1 & z2 & z3 & w0 & w1 & w2 & w3 & m0 & m1 & m2 & m3 & ma & mb & pa
        & Hpk' & [Hw0 Hm0] & [Hw1 Hm1] & [Hw2 Hm2] & [Hw3 Hm3] & Hmm & Hpa
        & pb & Hpb & Hx & Hy & Hz & Hw).
  rewrite Hpk in Hpk'. injection Hpk' as -> -> -> ->.
  destruct (merged_weights _ _ _ _ _ _ _ _ Hpa Hpb) as [Ha Hb].
  destruct (merged_particles _ _ _ _ _ _ _ _ Hpa Hpb Hne) as [Hma Hmb].
  rewrite <- Hw in Ha, Hb.
  rewrite <- (momentum_at_congr pb p' _ Hx Hy Hz) in Hma.
  rewrite <- (momentum_at_congr pb p' _ Hx Hy Hz) in Hmb.
  apply merged_momenta_sum in Hmm as (Sx & Sy & Sz).
  destruct m0 as [[x0 y0] u0], m1 as [[x1 y1] u1], m2 as [[x2 y2] u2],
           m3 as [[x3 y3] u3], ma as [[ax ay] az], mb as [[bx by'] bz].
  cbn [fst snd] in *.
  eexists. split.
  - cbn. rewrite Hw0, Hw1, Hw2, Hw3, Hm0, Hm1, Hm2, Hm3. cbn. reflexivity.
  - cbn. rewrite Ha, Hb, Hma, Hmb. cbn. f_equal.
    f_equal; [f_equal|]; lra.
Qed.

(** ** Running the merger on a store

    Each lemma below gives the value of one statement of the merger from
    the values of the statements before it. *)

Lemma fdiv_val (a b c : R) : b <> 0 -> a / b = c -> fdiv a b = Ok c.
Proof.
  intros Hb <-. unfold fdiv. destruct (Req_dec_T b 0); [contradiction|reflexivity].
Qed.

Lemma min_of_quotient_val (a b c : R) :
  b <> 0 -> min_of_quotient a b c = Ok (Rmin (a / b) c).
Proof. intros H. unfold min_of_quotient. destruct (Req_dec_T b 0); [lra|reflexivity]. Qed.

Lemma min_of_quotient_zero (a c : R) : 0 < a -> min_of_quotient a 0 c = Ok c.
Proof.
  intros H. unfold min_of_quotient. destruct (Req_dec_T 0 0); [|lra].
  destruct (Rlt_dec 0 a); [reflexivity|lra].
Qed.

Lemma fsqrt_val (a r : R) : 0 <= r -> r * r = a -> fsqrt a = Ok r.
Proof.
  intros Hr <-. unfold fsqrt. destruct (Rlt_dec _ _); [nra|].
  f_equal. apply sqrt_square. assumption.
Qed.

Lemma facos_val (a : R) : -1 <= a <= 1 -> facos a = Ok (acos a).
Proof.
  intros Ha. unfold facos.
  destruct (Rlt_dec _ _); [lra|]. destruct (Rlt_dec _ _); [lra|reflexivity].
Qed.

Lemma fasin_val (a c : R) : -1 <= a <= 1 -> asin a = c -> fasin a = Ok c.
Proof.
  intros Ha <-. unfold fasin.
  destruct (Rlt_dec a (-1)); [lra|]. destruct (Rlt_dec 1 a); [lra|reflexivity].
Qed.

Lemma norm_val (a b c r : R) :
  0 <= r -> a * a + b * b + c * c = r * r -> sqrt (a * a + b * b + c * c) = r.
Proof. intros Hr ->. apply sqrt_square; assumption. Qed.

Lemma energy_val (a b c e : R) :
  0 <= e -> e * e = 1 + a * a + b * b + c * c -> sqrt (1 + a * a + b * b + c * c) = e.
Proof. intros He <-. apply sqrt_square. assumption. Qed.

Lemma atan2_x_axis (x : R) : 0 < x -> atan2 0 x = 0.
Proof.
  intros Hx. unfold atan2. destruct (Rlt_dec 0 x); [|lra].
  unfold Rdiv. rewrite Rmult_0_l. apply atan_0.
Qed.

Lemma atan2_y_axis (y : R) : 0 < y -> atan2 y 0 = PI / 2.
Proof.
  intros Hy. unfold atan2. destruct (Rlt_dec 0 0); [lra|].
  destruct (Rlt_dec 0 y); [reflexivity|lra].
Qed.

Lemma atan2_origin : atan2 0 0 = 0.
Proof. unfold atan2. destruct (Rlt_dec 0 0); [lra|]. reflexivity. Qed.

Lemma uint_of_quotient_val (a b : R) (z : Z) :
  b <> 0 -> (0 <= z < uint_max)%Z -> IZR z <= a / b < IZR z + 1 ->
  uint_of_quotient a b = Ok z.
Proof.
  intros Hb Hz Hq. unfold uint_of_quotient, uint_of_double.
  destruct (Req_dec_T b 0); [contradiction|].
  assert (0 <= IZR z) by (apply IZR_le; lia).
  assert (IZR z + 1 <= IZR uint_max) by (rewrite <- plus_IZR; apply IZR_le; lia).
  destruct (Rle_dec _ _); [lra|]. destruct (Rlt_dec _ _); [lra|].
  destruct (Rlt_dec _ _); [|lra].
  f_equal. symmetry. apply Int_part_spec. lra.
Qed.

Lemma bounds_init_val (P : Particles) (istart n : nat) (px py pz r t f : R) :
  momentum_at P istart = Ok (px, py, pz) ->
  sqrt (px * px + py * py + pz * pz) = r -> r <> 0 ->
  -1 <= pz / r <= 1 -> asin (pz / r) = f -> atan2 py px = t ->
  (0 < n)%nat ->
  bounds_init P istart n =
  Ok (mkExtrema r r t t f f, <[0%nat := t]> (replicate n 0), <[0%nat := f]> (replicate n 0)).
Proof.
  intros Hm Hr Hr0 Hb Hf Ht Hn. unfold bounds_init. rewrite Hm. cbn.
  rewrite Hr, Ht. rewrite (fdiv_val pz r (pz / r)) by auto. cbn.
  rewrite (fasin_val (pz / r) f) by auto. cbn.
  unfold store. rewrite length_replicate. apply Nat.ltb_lt in Hn. rewrite Hn. reflexivity.
Qed.

Lemma bounds_step_val (P : Particles) (istart ipart : nat) (ex : Extrema)
    (th ph : list R) (px py pz r t f : R) :
  momentum_at P ipart = Ok (px, py, pz) ->
  sqrt (px * px + py * py + pz * pz) = r -> r <> 0 ->
  -1 <= pz / r <= 1 -> asin (pz / r) = f -> atan2 py px = t ->
  (ipart - istart < length ph)%nat -> (ipart - istart < length th)%nat ->
  bounds_step P istart ipart (ex, th, ph) =
  Ok (mkExtrema (Rmin (mr_min ex) r) (Rmax (mr_max ex) r)
                (Rmin (theta_min ex) t) (Rmax (theta_max ex) t)
                (Rmin (phi_min ex) f) (Rmax (phi_max ex) f),
      <[(ipart - istart)%nat := t]> th, <[(ipart - istart)%nat := f]> ph).
Proof.
  intros Hm Hr Hr0 Hb Hf Ht Hph Hth. unfold bounds_step. rewrite Hm. cbn.
  rewrite Hr, Ht. rewrite (fdiv_val pz r (pz / r)) by auto. cbn.
  rewrite (fasin_val (pz / r) f) by auto. cbn.
  unfold store. apply Nat.ltb_lt in Hph, Hth. rewrite Hph, Hth. reflexivity.
Qed.

Lemma axis_delta_keep (vmin vmax : R) (dim : Z) :
  1e-10 <= (vmax - vmin) / IZR dim ->
  axis_delta vmin vmax dim = ((vmax - vmin) / IZR dim, dim).
Proof. intros H. unfold axis_delta. destruct (Rlt_dec _ _); [lra|reflexivity]. Qed.

Lemma axis_delta_collapse (vmin vmax : R) (dim : Z) :
  (vmax - vmin) / IZR dim < 1e-10 -> axis_delta vmin vmax dim = (0, 1%Z).
Proof. intros H. unfold axis_delta. destruct (Rlt_dec _ _); [reflexivity|lra]. Qed.

Lemma cell_vectors_55 (ex : Extrema) (dt dp : R) :
  cell_vectors ex dt dp 5 5 (replicate 25 0, replicate 25 0, replicate 25 0) =
  Ok (map (fun d => d.1.1) (cell_table ex dt dp),
      map (fun d => d.1.2) (cell_table ex dt dp),
      map (fun d => d.2) (cell_table ex dt dp)).
Proof. reflexivity. Qed.

Lemma cell_index_step_val (P : Particles) (istart : nat) (ex : Extrema)
    (dr dt dp : R) (dim1 dim2 : Z) (th ph : list R) (ipart : nat) (mci : list Z)
    (px py pz r t f : R) (a b c : Z) :
  momentum_at P ipart = Ok (px, py, pz) ->
  sqrt (px * px + py * py + pz * pz) = r ->
  uint_of_quotient (r - mr_min ex) dr = Ok a ->
  th !! (ipart - istart)%nat = Some t ->
  uint_of_quotient (t - theta_min ex) dt = Ok b ->
  ph !! (ipart - istart)%nat = Some f ->
  uint_of_quotient (f - phi_min ex) dp = Ok c ->
  (ipart - istart < length mci)%nat ->
  cell_index_step P istart ex dr dt dp dim1 dim2 th ph ipart mci =
  Ok (<[(ipart - istart)%nat := wrap (a * dim1 * dim2 + b * dim2 + c)]> mci).
Proof.
  intros Hm Hr Ha Ht Hb Hf Hc Hi. unfold cell_index_step. rewrite Hm. cbn.
  rewrite Hr, Ha. cbn. unfold load. rewrite Ht. cbn. rewrite Hb. cbn.
  rewrite Hf. cbn. rewrite Hc. cbn. unfold store.
  apply Nat.ltb_lt in Hi. rewrite Hi. reflexivity.
Qed.

Lemma totals_step_val (p : Particles) (sorted : list Z) (first : Z) (ip : nat)
    (tw a b c te : R) (z : Z) (w px py pz : R) :
  load sorted (Z.to_nat (wrap (first + Z.of_nat ip))) = Ok z ->
  load (weight p) (Z.to_nat z) = Ok w ->
  momentum_at p (Z.to_nat z) = Ok (px, py, pz) ->
  totals_step p sorted first ip (tw, (a, b, c), te) =
  Ok (tw + w, (a + px * w, b + py * w, c + pz * w),
      te + sqrt (1 + px * px + py * py + pz * pz)).
Proof.
  intros Hz Hw Hm. unfold totals_step. rewrite Hz. cbn. rewrite Hw. cbn.
  rewrite Hm. reflexivity.
Qed.

Lemma tag_step_val (sorted : list Z) (first ipack : Z) (ip : nat) (p : Particles)
    (z : Z) (keys : list Z) :
  load sorted (Z.to_nat (wrap (first + ipack * 4 + Z.of_nat ip))) = Ok z ->
  store (cell_keys p) (Z.to_nat z) (-1)%Z = Ok keys ->
  tag_step sorted first ipack ip p = Ok (set_cell_keys p keys).
Proof. intros Hz Hk. unfold tag_step. rewrite Hz. cbn. rewrite Hk. reflexivity. Qed.

Lemma merge_packet_val (sorted : list Z) (first : Z) (d : R * R * R) (ipack : nat)
    (p : Particles) (z0 z1 z2 z3 : Z)
    (w0 w1 w2 w3 x0 y0 u0 x1 y1 u1 x2 y2 u2 x3 y3 u3 : R)
    (t : Totals) (ma mb : R * R * R) (pa pb : Particles) (za zb : Z) (ka kb : list Z) :
  load sorted (Z.to_nat (wrap (first + Z.of_nat (ipack * 4)))) = Ok z0 ->
  load sorted (Z.to_nat (wrap (first + Z.of_nat (ipack * 4 + 1)))) = Ok z1 ->
  load sorted (Z.to_nat (wrap (first + Z.of_nat (ipack * 4 + 2)))) = Ok z2 ->
  load sorted (Z.to_nat (wrap (first + Z.of_nat (ipack * 4 + 3)))) = Ok z3 ->
  load (weight p) (Z.to_nat z0) = Ok w0 -> momentum_at p (Z.to_nat z0) = Ok (x0, y0, u0) ->
  load (weight p) (Z.to_nat z1) = Ok w1 -> momentum_at p (Z.to_nat z1) = Ok (x1, y1, u1) ->
  load (weight p) (Z.to_nat z2) = Ok w2 -> momentum_at p (Z.to_nat z2) = Ok (x2, y2, u2) ->
  load (weight p) (Z.to_nat z3) = Ok w3 -> momentum_at p (Z.to_nat z3) = Ok (x3, y3, u3) ->
  (0 + w0 + w1 + w2 + w3,
   (0 + x0 * w0 + x1 * w1 + x2 * w2 + x3 * w3,
    0 + y0 * w0 + y1 * w1 + y2 * w2 + y3 * w3,
    0 + u0 * w0 + u1 * w1 + u2 * w2 + u3 * w3),
   0 + sqrt (1 + x0 * x0 + y0 * y0 + u0 * u0) + sqrt (1 + x1 * x1 + y1 * y1 + u1 * u1)
     + sqrt (1 + x2 * x2 + y2 * y2 + u2 * u2) + sqrt (1 + x3 * x3 + y3 * y3 + u3 * u3)) = t ->
  merged_momenta t d = Ok (ma, mb) ->
  overwrite p (Z.to_nat z0) ma (0.5 * t.1.1) = Ok pa ->
  overwrite pa (Z.to_nat z1) mb (0.5 * t.1.1) = Ok pb ->
  load sorted (Z.to_nat (wrap (first + Z.of_nat ipack * 4 + Z.of_nat (ipack * 4 + 2)))) = Ok za ->
  store (cell_keys pb) (Z.to_nat za) (-1)%Z = Ok ka ->
  load sorted (Z.to_nat (wrap (first + Z.of_nat ipack * 4 + Z.of_nat (ipack * 4 + 3)))) = Ok zb ->
  store ka (Z.to_nat zb) (-1)%Z = Ok kb ->
  merge_packet sorted first d ipack p = Ok (set_cell_keys pb kb).
Proof.
  intros Hz0 Hz1 Hz2 Hz3 Hw0 Hm0 Hw1 Hm1 Hw2 Hm2 Hw3 Hm3 Ht Hmm Hpa Hpb Hza Hka Hzb Hkb.
  unfold merge_packet. rewrite for_range_4.
  rewrite (totals_step_val _ _ _ _ _ _ _ _ _ _ _ _ _ _ Hz0 Hw0 Hm0). cbn [mbind outcome_bind].
  rewrite (totals_step_val _ _ _ _ _ _ _ _ _ _ _ _ _ _ Hz1 Hw1 Hm1). cbn [mbind outcome_bind].
  rewrite (totals_step_val _ _ _ _ _ _ _ _ _ _ _ _ _ _ Hz2 Hw2 Hm2). cbn [mbind outcome_bind].
  rewrite (totals_step_val _ _ _ _ _ _ _ _ _ _ _ _ _ _ Hz3 Hw3 Hm3). cbn [mbind outcome_bind].
  rewrite Ht, Hmm. cbn [mbind outcome_bind]. rewrite Hz0. cbn [mbind outcome_bind].
  rewrite Hpa. cbn [mbind outcome_bind].
  replace (first + Z.of_nat (ipack * 4) + 1)%Z with (first + Z.of_nat (ipack * 4 + 1))%Z by lia.
  rewrite Hz1. cbn [mbind outcome_bind]. rewrite Hpb. cbn [mbind outcome_bind].
  rewrite for_range_2.
  rewrite (tag_step_val _ _ _ _ _ _ _ Hza Hka). cbn [mbind outcome_bind].
  exact (tag_step_val _ _ _ _ (set_cell_keys pb ka) _ _ Hzb Hkb).
Qed.

Lemma merge_cell_idle (s : Sorted) (mac dim2 : Z) (a b c : nat) (p : Particles) (count : Z) :
  load (particles_per_momentum_cells s)
       (Z.to_nat (wrap (Z.of_nat a * mac + wrap (Z.of_nat b * dim2 + Z.of_nat c)))) = Ok count ->
  (4 <=? count)%Z = false ->
  merge_cell s mac dim2 a b c p = Ok p.
Proof.
  intros Hc Hlt. unfold merge_cell. rewrite Hc. cbn [mbind outcome_bind].
  rewrite Hlt. reflexivity.
Qed.

Lemma merge_cell_val (s : Sorted) (mac dim2 : Z) (a b c : nat) (p : Particles)
    (count first : Z) (dx dy dz : R) (p' : Particles) :
  load (particles_per_momentum_cells s)
       (Z.to_nat (wrap (Z.of_nat a * mac + wrap (Z.of_nat b * dim2 + Z.of_nat c)))) = Ok count ->
  (4 <=? count)%Z = true ->
  load (momentum_cell_particle_index s)
       (Z.to_nat (wrap (Z.of_nat a * mac + wrap (Z.of_nat b * dim2 + Z.of_nat c)))) = Ok first ->
  load (cell_vec_x s) (Z.to_nat (wrap (Z.of_nat b * dim2 + Z.of_nat c))) = Ok dx ->
  load (cell_vec_y s) (Z.to_nat (wrap (Z.of_nat b * dim2 + Z.of_nat c))) = Ok dy ->
  load (cell_vec_z s) (Z.to_nat (wrap (Z.of_nat b * dim2 + Z.of_nat c))) = Ok dz ->
  for_loop (Z.to_nat (count / 4)) 0
           (merge_packet (sorted_particles s) first (dx, dy, dz)) p = Ok p' ->
  merge_cell s mac dim2 a b c p = Ok p'.
Proof.
  intros Hc Hle Hf Hx Hy Hz Hl. unfold merge_cell. rewrite Hc. cbn [mbind outcome_bind].
  rewrite Hle, Hf. cbn [mbind outcome_bind]. rewrite Hx. cbn [mbind outcome_bind].
  rewrite Hy. cbn [mbind outcome_bind]. rewrite Hz. cbn [mbind outcome_bind].
  unfold for_range. rewrite Nat.sub_0_r. exact Hl.
Qed.

(** ** The merger on the twelve particles *)

Ltac minmax := repeat first
  [ rewrite Rmin_left by lra | rewrite Rmin_right by lra
  | rewrite Rmax_left by lra | rewrite Rmax_right by lra ].

(** One turn of the first loop, for a particle of momentum (3/4, 0, 0),
    (0, 2, 0) or (0, 0, 1). *)
Ltac bounds_x := eapply bounds_step_val;
  [ reflexivity | apply (norm_val _ _ _ (3/4)); lra | lra | lra
  | replace (0 / (3/4)) with 0 by lra; apply asin_0 | apply atan2_x_axis; lra
  | cbn; lia | cbn; lia ].
Ltac bounds_y := eapply bounds_step_val;
  [ reflexivity | apply (norm_val _ _ _ 2); lra | lra | lra
  | replace (0 / 2) with 0 by lra; apply asin_0 | apply atan2_y_axis; lra
  | cbn; lia | cbn; lia ].
Ltac bounds_z := eapply bounds_step_val;
  [ reflexivity | apply (norm_val _ _ _ 1); lra | lra | lra
  | replace (1 / 1) with 1 by lra; apply asin_1 | apply atan2_origin
  | cbn; lia | cbn; lia ].
Ltac turn k :=
  erewrite for_loop_step by k;
  cbn [mr_min mr_max theta_min theta_max phi_min phi_max]; minmax.

Lemma bounds_twelve (w : R) (keys : list Z) :
  bounds_pass (twelve w keys) 0 12 =
  Ok (mkExtrema (3/4) 2 0 (PI/2) 0 (PI/2),
      [0; 0; 0; 0; 0; 0; 0; 0; PI/2; 0; PI/2; 0],
      [0; 0; 0; 0; 0; 0; 0; 0; 0; PI/2; 0; PI/2]).
Proof.
  pose proof PI2_1 as Hpi.
  unfold bounds_pass.
  erewrite bind_Ok_l; cycle 1.
  { eapply bounds_init_val;
    [ reflexivity | apply (norm_val _ _ _ (3/4)); lra | lra | lra
    | replace (0 / (3/4)) with 0 by lra; apply asin_0 | apply atan2_x_axis; lra
    | cbn; lia ]. }
  unfold for_range. cbn [Nat.sub Nat.add replicate].
  do 7 turn bounds_x. turn bounds_y. turn bounds_z. turn bounds_y. turn bounds_z.
  cbn. reflexivity.
Qed.

Lemma dr12_val : dr12 = 101 / 400.
Proof. unfold dr12, ex12, inflate. cbn. lra. Qed.

Lemma dt12_val : dt12 = 101 / 1000 * PI.
Proof. unfold dt12, ex12, inflate. cbn. lra. Qed.

Lemma dp12_val : dp12 = 101 / 1000 * PI.
Proof. unfold dp12, ex12, inflate. cbn. lra. Qed.

Lemma bucket_zero (d : R) : d <> 0 -> uint_of_quotient (0 - 0) d = Ok 0%Z.
Proof.
  intros Hd. apply uint_of_quotient_val; [assumption|unfold uint_max; lia|].
  replace ((0 - 0) / d) with 0 by (field; assumption). lra.
Qed.

Lemma bucket_four (d : R) :
  d = 101 / 1000 * PI -> uint_of_quotient (PI / 2 - 0) d = Ok 4%Z.
Proof.
  intros ->. pose proof PI_RGT_0.
  apply uint_of_quotient_val; [lra|unfold uint_max; lia|].
  replace ((PI / 2 - 0) / (101 / 1000 * PI)) with (500 / 101) by (field; lra).
  lra.
Qed.

Lemma bucket_theta_zero : uint_of_quotient (0 - 0) dt12 = Ok 0%Z.
Proof. apply bucket_zero. rewrite dt12_val. pose proof PI_RGT_0. lra. Qed.

Lemma bucket_theta_four : uint_of_quotient (PI / 2 - 0) dt12 = Ok 4%Z.
Proof. apply bucket_four, dt12_val. Qed.

Lemma bucket_phi_zero : uint_of_quotient (0 - 0) dp12 = Ok 0%Z.
Proof. apply bucket_zero. rewrite dp12_val. pose proof PI_RGT_0. lra. Qed.

Lemma bucket_phi_four : uint_of_quotient (PI / 2 - 0) dp12 = Ok 4%Z.
Proof. apply bucket_four, dp12_val. Qed.

Lemma bucket_norm (r : R) (z : Z) :
  (0 <= z < 5)%Z -> IZR z * (101 / 400) <= r - 3 / 4 < (IZR z + 1) * (101 / 400) ->
  uint_of_quotient (r - 3 / 4) dr12 = Ok z.
Proof.
  intros Hz Hr. rewrite dr12_val.
  apply uint_of_quotient_val; [lra|unfold uint_max; lia|].
  split.
  - apply Rmult_le_reg_r with (101 / 400); [lra|].
    replace ((r - 3 / 4) / (101 / 400) * (101 / 400)) with (r - 3 / 4) by field. lra.
  - apply Rmult_lt_reg_r with (101 / 400); [lra|].
    replace ((r - 3 / 4) / (101 / 400) * (101 / 400)) with (r - 3 / 4) by field. lra.
Qed.

(** One turn of the loop that fills [momentum_cell_index], for a particle
    of norm [N] that falls into the bucket [A] of the norms. *)
Ltac index_turn N A :=
  erewrite for_loop_step; cycle 1;
  [ eapply cell_index_step_val;
    [ reflexivity | apply (norm_val _ _ _ N); lra
    | apply (bucket_norm N A); [lia|cbn; lra]
    | reflexivity
    | first [apply bucket_theta_zero | apply bucket_theta_four]
    | reflexivity
    | first [apply bucket_phi_zero | apply bucket_phi_four]
    | cbn; lia ]
  | cbn [Nat.sub list_insert] ].

Lemma cell_index_twelve (w : R) (keys : list Z) :
  for_range 0 12
    (cell_index_step (twelve w keys) 0 ex12 dr12 dt12 dp12 5 5
       [0; 0; 0; 0; 0; 0; 0; 0; PI/2; 0; PI/2; 0]
       [0; 0; 0; 0; 0; 0; 0; 0; 0; PI/2; 0; PI/2])
    (replicate 12 0%Z) =
  Ok [0; 0; 0; 0; 0; 0; 0; 0; 120; 4; 120; 4]%Z.
Proof.
  unfold for_range. cbn [Nat.sub replicate].
  do 8 index_turn (3/4) 0%Z. index_turn 2 4%Z. index_turn 1 0%Z.
  index_turn 2 4%Z. index_turn 1 0%Z.
  cbn [for_loop]. f_equal.
Qed.

Lemma counting_sort_twelve :
  counting_sort 0 12 125 [0; 0; 0; 0; 0; 0; 0; 0; 120; 4; 120; 4]%Z =
  Ok (sorted_12, offsets_12, counts_12).
Proof. vm_compute. reflexivity. Qed.

(** The momenta of the two merged particles of a packet of cell 0: the
    totals are the weight 3, the momentum (9/4, 0, 0) and the energy 5. *)
Lemma merged_momenta_twelve (dx dy dz : R) :
  merged_momenta (3, (9 / 4, 0, 0), 5) (dx, dy, dz) =
  Ok ((3 / 4, 4 / 3 * (sin omega12 * dy), 4 / 3 * (sin omega12 * dz)),
      (3 / 4, - (4 / 3 * (sin omega12 * dy)), - (4 / 3 * (sin omega12 * dz)))).
Proof.
  unfold merged_momenta.
  rewrite (fdiv_val 5 3 (5 / 3)) by lra. cbn [mbind outcome_bind].
  rewrite (fsqrt_val _ (4 / 3)) by lra. cbn [mbind outcome_bind].
  rewrite (norm_val _ _ _ (9 / 4)) by lra.
  rewrite (fdiv_val (9 / 4) (3 * (4 / 3)) (9 / 16)) by lra. cbn [mbind outcome_bind].
  rewrite facos_val by lra. cbn [mbind outcome_bind].
  rewrite (fdiv_val (9 / 4) (9 / 4) 1) by lra. cbn [mbind outcome_bind].
  rewrite (fdiv_val 0 (9 / 4) 0) by lra. cbn [mbind outcome_bind].
  fold omega12. assert (Hc : cos omega12 = 9 / 16) by (apply cos_acos; lra).
  rewrite Hc. do 2 f_equal; [f_equal; [f_equal|]|f_equal; [f_equal|]]; lra.
Qed.

(** One packet of cell 0, whose four particles have the momentum
    (3/4, 0, 0) and the weight 3/4. *)
Ltac packet_turn :=
  erewrite merge_packet_val; cycle 1;
  [ vm_compute; reflexivity | vm_compute; reflexivity
  | vm_compute; reflexivity | vm_compute; reflexivity
  | reflexivity | reflexivity | reflexivity | reflexivity
  | reflexivity | reflexivity | reflexivity | reflexivity
  | instantiate (1 := (3, (9/4, 0, 0), 5));
    rewrite (energy_val _ _ _ (5/4)) by lra;
    do 2 f_equal; [|f_equal; [f_equal|]|]; lra
  | apply merged_momenta_twelve
  | replace (0.5 * (3, (9 / 4, 0, 0), 5).1.1) with (3 / 2) by (cbn; lra); reflexivity
  | replace (0.5 * (3, (9 / 4, 0, 0), 5).1.1) with (3 / 2) by (cbn; lra); reflexivity
  | vm_compute; reflexivity | reflexivity
  | vm_compute; reflexivity | reflexivity
  | ].

Lemma packet_0_twelve (k0 k1 k2 k3 k4 k5 k6 k7 k8 k9 k10 k11 : Z) (dx dy dz : R) :
  merge_packet sorted_12 0 (dx, dy, dz) 0
               (twelve (3/4) [k0; k1; k2; k3; k4; k5; k6; k7; k8; k9; k10; k11]) =
  Ok (after_packet_0 k0 k1 k4 k5 k6 k7 k8 k9 k10 k11 dy dz).
Proof. packet_turn. reflexivity. Qed.

Lemma packet_1_twelve (k0 k1 k4 k5 k6 k7 k8 k9 k10 k11 : Z) (dx dy dz : R) :
  merge_packet sorted_12 0 (dx, dy, dz) 1
               (after_packet_0 k0 k1 k4 k5 k6 k7 k8 k9 k10 k11 dy dz) =
  Ok (after_packet_1 k0 k1 k4 k5 k6 k7 k9 k11 dy dz).
Proof. packet_turn. reflexivity. Qed.

Ltac below5 j :=
  let E := fresh in
  assert (E : j = 0%nat \/ j = 1%nat \/ j = 2%nat \/ j = 3%nat \/ j = 4%nat) by lia;
  destruct E as [->|[->|[->|[->| ->]]]]; try lia.

Ltac idle_cell :=
  eapply merge_cell_idle;
  [ change (particles_per_momentum_cells scratch12) with counts_12;
    vm_compute; reflexivity
  | reflexivity ].

Lemma merge_cells_twelve (k0 k1 k2 k3 k4 k5 k6 k7 k8 k9 k10 k11 : Z) :
  merge_cells scratch12 25 5 5 5
              (twelve (3/4) [k0; k1; k2; k3; k4; k5; k6; k7; k8; k9; k10; k11]) =
  Ok (after_packet_1 k0 k1 k4 k5 k6 k7 k9 k11 direction12.1.2 direction12.2).
Proof.
  unfold merge_cells, for_range.
  change (Z.to_nat 5 - 0)%nat with 5%nat.
  erewrite for_loop_step; cycle 1.
  { erewrite for_loop_step; cycle 1.
    { erewrite for_loop_step; cycle 1.
      { eapply merge_cell_val.
        - change (particles_per_momentum_cells scratch12) with counts_12.
          vm_compute. reflexivity.
        - reflexivity.
        - change (momentum_cell_particle_index scratch12) with offsets_12.
          vm_compute. reflexivity.
        - reflexivity.
        - reflexivity.
        - reflexivity.
        - change (Z.to_nat (8 / 4)) with 2%nat.
          change (sorted_particles scratch12) with sorted_12.
          erewrite for_loop_step by apply packet_0_twelve.
          erewrite for_loop_step by apply packet_1_twelve.
          reflexivity. }
      apply for_loop_idle. intros j Hj. below5 j; idle_cell. }
    apply for_loop_idle. intros i Hi. apply for_loop_idle. intros j Hj.
    below5 i; below5 j; idle_cell. }
  apply for_loop_idle. intros h Hh. apply for_loop_idle. intros i Hi.
  apply for_loop_idle. intros j Hj.
  below5 h; below5 i; below5 j; idle_cell.
Qed.

(** The call up to the fifth step: the scratch vectors of the twelve
    particles do not depend on the weights or on the tags. *)
Lemma call_twelve_scratch (w : R) (keys : list Z) :
  MergingVranic.call merger0 (twelve w keys) 0 12 =
  particles ← merge_cells scratch12 25 5 5 5 (twelve w keys);
  Ok (mkMerging 0 (5, 5, 5)%Z, particles).
Proof.
  pose proof PI2_1 as Hpi.
  unfold MergingVranic.call.
  change (merging_ppc_min_threshold_ merger0 <? wrap (12 - 0))%Z with true.
  change (12 - 0 <? 0)%Z with false. change (0 <? 0)%Z with false.
  cbn match. unfold merge_range.
  change (Z.to_nat 0) with 0%nat. change (Z.to_nat 12) with 12%nat.
  rewrite bounds_twelve.
  cbn [mbind outcome_bind dimensions_ merging_ppc_min_threshold_ merger0].
  fold ex12.
  rewrite (axis_delta_keep (mr_min ex12)) by (fold dr12; rewrite dr12_val; lra).
  rewrite (axis_delta_keep (theta_min ex12)) by (fold dt12; rewrite dt12_val; lra).
  rewrite (axis_delta_keep (phi_min ex12)) by (fold dp12; rewrite dp12_val; lra).
  fold dr12 dt12 dp12.
  change (Z.to_nat (wrap (5 * 5))) with 25%nat.
  rewrite cell_vectors_55. cbn [mbind outcome_bind].
  change (12 - 0)%nat with 12%nat.
  rewrite cell_index_twelve. cbn [mbind outcome_bind].
  change (wrap (5 * 5 * 5)) with 125%Z. change (wrap (5 * 5)) with 25%Z.
  rewrite counting_sort_twelve. cbn [mbind outcome_bind].
  reflexivity.
Qed.

(** The whole call with the weight 3/4: both packets of cell 0 are merged,
    the particles 2 and 3 are tagged, and so are the particles 8 and 10 of
    cell 120. *)
Lemma call_twelve (k0 k1 k2 k3 k4 k5 k6 k7 k8 k9 k10 k11 : Z) :
  MergingVranic.call merger0
    (twelve (3/4) [k0; k1; k2; k3; k4; k5; k6; k7; k8; k9; k10; k11]) 0 12 =
  Ok (mkMerging 0 (5, 5, 5)%Z,
      after_packet_1 k0 k1 k4 k5 k6 k7 k9 k11 direction12.1.2 direction12.2).
Proof. rewrite call_twelve_scratch, merge_cells_twelve. reflexivity. Qed.

(** With the weight 2 the new energy per weight of the first packet is
    5/8, below 1: the new momentum norm is the square root of a negative
    number. *)
Lemma for_loop_fail {S : Type} (n i : nat) (body : nat -> S -> outcome S) (s : S)
    (e : failure) :
  body i s = Fail e -> for_loop (Datatypes.S n) i body s = Fail e.
Proof. intros H. cbn. rewrite H. reflexivity. Qed.

Lemma merged_momenta_heavy (d : R * R * R) :
  merged_momenta (8, (6, 0, 0), 5) d = Fail NotANumber.
Proof.
  destruct d as [[dx dy] dz]. unfold merged_momenta.
  rewrite (fdiv_val 5 8 (5 / 8)) by lra. cbn [mbind outcome_bind].
  unfold fsqrt. destruct (Rlt_dec _ _); [reflexivity|lra].
Qed.

Lemma merge_packet_heavy (keys : list Z) (d : R * R * R) :
  merge_packet sorted_12 0 d 0 (twelve 2 keys) = Fail NotANumber.
Proof.
  unfold merge_packet. rewrite for_range_4.
  erewrite totals_step_val; [|vm_compute; reflexivity|reflexivity|reflexivity].
  cbn [mbind outcome_bind].
  erewrite totals_step_val; [|vm_compute; reflexivity|reflexivity|reflexivity].
  cbn [mbind outcome_bind].
  erewrite totals_step_val; [|vm_compute; reflexivity|reflexivity|reflexivity].
  cbn [mbind outcome_bind].
  erewrite totals_step_val; [|vm_compute; reflexivity|reflexivity|reflexivity].
  cbn [mbind outcome_bind].
  match goal with
  | |- context [merged_momenta ?t d] =>
      replace t with (8, (6, 0, 0), 5)
        by (rewrite (energy_val _ _ _ (5/4)) by lra;
            do 2 f_equal; [|f_equal; [f_equal|]|]; lra)
  end.
  rewrite merged_momenta_heavy. reflexivity.
Qed.

Lemma call_heavy (keys : list Z) :
  MergingVranic.call merger0 (twelve 2 keys) 0 12 = Fail NotANumber.
Proof.
  rewrite call_twelve_scratch.
  unfold merge_cells, for_range. change (Z.to_nat 5 - 0)%nat with 5%nat.
  erewrite for_loop_fail; [reflexivity|].
  erewrite for_loop_fail; [reflexivity|].
  erewrite for_loop_fail; [reflexivity|].
  unfold merge_cell.
  change (particles_per_momentum_cells scratch12) with counts_12.
  change (momentum_cell_particle_index scratch12) with offsets_12.
  change (sorted_particles scratch12) with sorted_12.
  replace (load counts_12 (Z.to_nat (wrap (Z.of_nat 0 * 25 + wrap (Z.of_nat 0 * 5 + Z.of_nat 0)))))
    with (Ok 8%Z : outcome Z) by (vm_compute; reflexivity).
  cbn [mbind outcome_bind]. change (4 <=? 8)%Z with true. cbn match.
  replace (load offsets_12 (Z.to_nat (wrap (Z.of_nat 0 * 25 + wrap (Z.of_nat 0 * 5 + Z.of_nat 0)))))
    with (Ok 0%Z : outcome Z) by (vm_compute; reflexivity).
  cbn [mbind outcome_bind].
  change (Z.to_nat (wrap (Z.of_nat 0 * 5 + Z.of_nat 0))) with 0%nat.
  change (load (cell_vec_x scratch12) 0) with (Ok direction12.1.1 : outcome R).
  change (load (cell_vec_y scratch12) 0) with (Ok direction12.1.2 : outcome R).
  change (load (cell_vec_z scratch12) 0) with (Ok direction12.2 : outcome R).
  cbn [mbind outcome_bind].
  unfold for_range. change (Z.to_nat (8 / 4) - 0)%nat with 2%nat.
  erewrite for_loop_fail; [reflexivity|]. apply merge_packet_heavy.
Qed.

(** ** The merger on five particles of the same momentum *)

Ltac bounds_unit := eapply bounds_step_val;
  [ reflexivity | apply (norm_val _ _ _ 1); lra | lra | lra
  | replace (0 / 1) with 0 by lra; apply asin_0 | apply atan2_x_axis; lra
  | cbn; lia | cbn; lia ].

Lemma bounds_five :
  bounds_pass five 0 5 =
  Ok (mkExtrema 1 1 0 0 0 0, [0; 0; 0; 0; 0], [0; 0; 0; 0; 0]).
Proof.
  unfold bounds_pass.
  erewrite bind_Ok_l; cycle 1.
  { eapply bounds_init_val;
    [ reflexivity | apply (norm_val _ _ _ 1); lra | lra | lra
    | replace (0 / 1) with 0 by lra; apply asin_0 | apply atan2_x_axis; lra
    | cbn; lia ]. }
  unfold for_range. cbn [Nat.sub Nat.add replicate].
  do 4 turn bounds_unit.
  cbn. reflexivity.
Qed.

Lemma uint_of_quotient_zero (a : R) : uint_of_quotient a 0 = Fail Undefined.
Proof. unfold uint_of_quotient. destruct (Req_dec_T 0 0); [reflexivity|contradiction]. Qed.

(** All three axes collapse, and the first particle is then binned with
    a step of zero. *)
Lemma call_five : MergingVranic.call merger0 five 0 5 = Fail Undefined.
Proof.
  unfold MergingVranic.call.
  change (merging_ppc_min_threshold_ merger0 <? wrap (5 - 0))%Z with true.
  change (5 - 0 <? 0)%Z with false. change (0 <? 0)%Z with false.
  cbn match. unfold merge_range.
  change (Z.to_nat 0) with 0%nat. change (Z.to_nat 5) with 5%nat.
  rewrite bounds_five.
  cbn [mbind outcome_bind dimensions_ merging_ppc_min_threshold_ merger0].
  unfold inflate. cbn [mr_min mr_max theta_min theta_max phi_min phi_max].
  rewrite !axis_delta_collapse by lra.
  change (Z.to_nat (wrap (5 * 5))) with 25%nat.
  match goal with
  | |- context [cell_vectors ?ex ?dt ?dp ?d1 ?d2 ?cv] =>
      destruct (cell_vectors ex dt dp d1 d2 cv) as [[[cvx cvy] cvz]|e] eqn:Hcv;
        [|discriminate Hcv]
  end.
  cbn [mbind outcome_bind].
  unfold for_range. change (5 - 0)%nat with 5%nat.
  erewrite for_loop_fail; [reflexivity|].
  unfold cell_index_step.
  erewrite bind_Ok_l by reflexivity.
  cbn [mr_min]. rewrite uint_of_quotient_zero. reflexivity.
Qed.

(** ** The merger and the tags on entry *)

Lemma same_outcome_refl {A : Type} (m : outcome A) : same_outcome eq m m.
Proof. destruct m; reflexivity. Qed.

Lemma same_outcome_bind {A B : Type} (R : A -> A -> Prop) (S : B -> B -> Prop)
    (m1 m2 : outcome A) (f g : A -> outcome B) :
  same_outcome R m1 m2 ->
  (forall x y, R x y -> same_outcome S (f x) (g y)) ->
  same_outcome S (m1 ≫= f) (m2 ≫= g).
Proof.
  destruct m1 as [x|e], m2 as [y|e']; cbn; intros H Hf;
    try contradiction; [apply Hf; exact H | exact H].
Qed.

Lemma same_outcome_loop {S : Type} (R : S -> S -> Prop) (n i : nat)
    (body1 body2 : nat -> S -> outcome S) (x y : S) :
  (forall j a b, R a b -> same_outcome R (body1 j a) (body2 j b)) ->
  R x y ->
  same_outcome R (for_loop n i body1 x) (for_loop n i body2 y).
Proof.
  intros Hbody. revert i x y. induction n as [|n IH]; intros i x y Hxy; cbn.
  - exact Hxy.
  - eapply same_outcome_bind; [apply Hbody; exact Hxy|].
    intros a b Hab. apply IH. exact Hab.
Qed.

Lemma alike_refl (p : Particles) : alike p p.
Proof. repeat split. Qed.

Lemma alike_totals (p q : Particles) (sorted : list Z) (first : Z) (ip : nat) (t : Totals) :
  alike p q -> totals_step p sorted first ip t = totals_step q sorted first ip t.
Proof.
  intros (Hx & Hy & Hz & Hw & _). unfold totals_step, momentum_at.
  rewrite Hx, Hy, Hz, Hw. reflexivity.
Qed.

Lemma alike_overwrite (p q : Particles) (i : nat) (m : R * R * R) (w : R) :
  alike p q -> same_outcome alike (overwrite p i m w) (overwrite q i m w).
Proof.
  intros (Hx & Hy & Hz & Hw & Hk). destruct m as [[m0 m1] m2]. unfold overwrite.
  rewrite Hx, Hy, Hz, Hw.
  destruct (store (momentum_x q) i m0); cbn; [|reflexivity].
  destruct (store (momentum_y q) i m1); cbn; [|reflexivity].
  destruct (store (momentum_z q) i m2); cbn; [|reflexivity].
  destruct (store (weight q) i w); cbn; [|reflexivity].
  repeat split. exact Hk.
Qed.

Lemma alike_tag (sorted : list Z) (first ipack : Z) (ip : nat) (p q : Particles) :
  alike p q ->
  same_outcome alike (tag_step sorted first ipack ip p) (tag_step sorted first ipack ip q).
Proof.
  intros (Hx & Hy & Hz & Hw & Hk). unfold tag_step.
  destruct (load sorted _) as [z|e]; cbn; [|reflexivity].
  unfold store. rewrite Hk.
  destruct (Z.to_nat z <? length (cell_keys q))%nat; cbn; [|reflexivity].
  repeat split; try assumption. cbn. rewrite !length_insert. exact Hk.
Qed.

Lemma alike_packet (sorted : list Z) (first : Z) (d : R * R * R) (ipack : nat)
    (p q : Particles) :
  alike p q ->
  same_outcome alike (merge_packet sorted first d ipack p)
                     (merge_packet sorted first d ipack q).
Proof.
  intros Hpq. unfold merge_packet.
  eapply same_outcome_bind with (R := eq).
  { unfold for_range.
    apply same_outcome_loop; [|reflexivity].
    intros j a b <-. rewrite (alike_totals p q) by exact Hpq. apply same_outcome_refl. }
  intros t ? <-.
  eapply same_outcome_bind; [apply same_outcome_refl|]. intros [ma mb] ? <-.
  eapply same_outcome_bind; [apply same_outcome_refl|]. intros z0 ? <-.
  eapply same_outcome_bind; [apply alike_overwrite; exact Hpq|]. intros pa qa Ha.
  eapply same_outcome_bind; [apply same_outcome_refl|]. intros z1 ? <-.
  eapply same_outcome_bind; [apply alike_overwrite; exact Ha|]. intros pb qb Hb.
  unfold for_range. apply same_outcome_loop; [|exact Hb].
  intros j a b Hab. apply alike_tag. exact Hab.
Qed.

Lemma alike_cell (s : Sorted) (mac dim2 : Z) (a b c : nat) (p q : Particles) :
  alike p q ->
  same_outcome alike (merge_cell s mac dim2 a b c p) (merge_cell s mac dim2 a b c q).
Proof.
  intros Hpq. unfold merge_cell.
  eapply same_outcome_bind; [apply same_outcome_refl|]. intros count ? <-.
  destruct (4 <=? count)%Z; [|exact Hpq].
  eapply same_outcome_bind; [apply same_outcome_refl|]. intros first ? <-.
  eapply same_outcome_bind; [apply same_outcome_refl|]. intros dx ? <-.
  eapply same_outcome_bind; [apply same_outcome_refl|]. intros dy ? <-.
  eapply same_outcome_bind; [apply same_outcome_refl|]. intros dz ? <-.
  unfold for_range. apply same_outcome_loop; [|exact Hpq].
  intros j x y Hxy. apply alike_packet. exact Hxy.
Qed.

Lemma alike_cells (s : Sorted) (mac dim0 dim1 dim2 : Z) (p q : Particles) :
  alike p q ->
  same_outcome alike (merge_cells s mac dim0 dim1 dim2 p) (merge_cells s mac dim0 dim1 dim2 q).
Proof.
  intros Hpq. unfold merge_cells, for_range.
  apply same_outcome_loop; [|exact Hpq]. intros h x y Hxy.
  apply same_outcome_loop; [|exact Hxy]. intros i x' y' Hxy'.
  apply same_outcome_loop; [|exact Hxy']. intros j x'' y'' Hxy''.
  apply alike_cell. exact Hxy''.
Qed.

(** The amended C9 - The merger does not look at the tags on entry.  A
    particle with [cell_keys[i] = -1] on entry is binned, counted and merged
    like any other: whatever the tags [keys] on entry, [operator()] fails in
    the same way, or leaves the same object, the same momenta and the same
    weights. *)
Theorem vranic_ignores_entry_tags (self : Merging) (p : Particles) (keys : list Z)
    (istart iend : Z) :
  length keys = length (cell_keys p) ->
  same_outcome (fun r r' => r.1 = r'.1 /\ alike r.2 r'.2)
    (MergingVranic.call self p istart iend)
    (MergingVranic.call self (set_cell_keys p keys) istart iend).
Proof.
  intros Hlen. unfold MergingVranic.call.
  destruct (_ <? _)%Z; [|cbn; split; [reflexivity|]; repeat split; cbn; congruence].
  destruct (_ <? _)%Z; [reflexivity|].
  destruct (_ <? _)%Z; [reflexivity|].
  unfold merge_range. cbn [dimensions_ merging_ppc_min_threshold_].
  change (bounds_pass (set_cell_keys p keys)) with (bounds_pass p).
  eapply same_outcome_bind; [apply same_outcome_refl|]. intros [[ex th] ph] ? <-.
  destruct (axis_delta _ _ 5) as [mr_delta dim0].
  destruct (axis_delta _ _ 5) as [theta_delta dim1].
  destruct (axis_delta _ _ 5) as [phi_delta dim2].
  eapply same_outcome_bind; [apply same_outcome_refl|]. intros [[cvx cvy] cvz] ? <-.
  change (cell_index_step (set_cell_keys p keys)) with (cell_index_step p).
  eapply same_outcome_bind; [apply same_outcome_refl|]. intros mci ? <-.
  eapply same_outcome_bind; [apply same_outcome_refl|]. intros [[sorted offsets] counts] ? <-.
  eapply same_outcome_bind.
  { apply alike_cells. repeat split. cbn. congruence. }
  intros x y Hxy. cbn. split; [reflexivity|exact Hxy].
Qed.

(** ** The properties of the merger *)

Lemma sin_omega12_pos : 0 < sin omega12.
Proof.
  unfold omega12. rewrite sin_acos by lra. apply sqrt_lt_R0. unfold Rsqr. lra.
Qed.

Lemma direction12_z_pos : 0 < direction12.2.
Proof.
  pose proof PI_RGT_0 as Hpi.
  unfold direction12, cell_direction. cbn [snd INR].
  rewrite dp12_val. unfold ex12, inflate. cbn [phi_min].
  replace 0.5 with (1 / 2) by lra.
  apply sin_gt_0; lra.
Qed.

(** C1 - Energy conservation of the Vranic merger fails on the code.  On
    the twelve particles of weight 3/4 the first packet of cell 0 holds the
    particles 0 to 3, of weighted energy 4 * 3/4 * 5/4 = 15/4; the two
    survivors, particles 0 and 1, leave the call with a larger weighted
    energy.  The code adds the energies of the packet without their weights
    and does not normalise the vector [e2]. *)
Theorem vranic_energy_not_conserved :
  exists self' p' e_in e_out,
    MergingVranic.call merger0 (twelve (3/4) no_tags) 0 12 = Ok (self', p') /\
    packet sorted_12 0 0 = Ok [0; 1; 2; 3]%nat /\
    weighted_energy (twelve (3/4) no_tags) [0; 1; 2; 3]%nat = Ok e_in /\
    weighted_energy p' [0; 1]%nat = Ok e_out /\
    e_in = 15 / 4 /\ e_in < e_out.
Proof.
  pose proof sin_omega12_pos as Hs. pose proof direction12_z_pos as Hz.
  set (ay := 4 / 3 * (sin omega12 * direction12.1.2)).
  set (az := 4 / 3 * (sin omega12 * direction12.2)).
  assert (Haz : 0 < az) by (unfold az; apply Rmult_lt_0_compat; [lra|];
                            apply Rmult_lt_0_compat; assumption).
  assert (Hup : 5 / 4 < sqrt (1 + 3 / 4 * (3 / 4) + ay * ay + az * az)).
  { rewrite <- (sqrt_square (5 / 4)) at 1 by lra. apply sqrt_lt_1; nra. }
  assert (Hdown : 5 / 4 < sqrt (1 + 3 / 4 * (3 / 4) + - ay * - ay + - az * - az)).
  { rewrite <- (sqrt_square (5 / 4)) at 1 by lra. apply sqrt_lt_1; nra. }
  exists (mkMerging 0 (5, 5, 5)%Z).
  exists (after_packet_1 0 0 0 0 0 0 0 0 direction12.1.2 direction12.2).
  exists (3 / 4 * (5 / 4) + (3 / 4 * (5 / 4) + (3 / 4 * (5 / 4) + (3 / 4 * (5 / 4) + 0)))).
  exists (3 / 2 * sqrt (1 + 3 / 4 * (3 / 4) + ay * ay + az * az)
          + (3 / 2 * sqrt (1 + 3 / 4 * (3 / 4) + - ay * - ay + - az * - az) + 0)).
  split; [apply call_twelve|]. split; [vm_compute; reflexivity|].
  split; [|split; [|split]].
  - cbn. rewrite (energy_val _ _ _ (5 / 4)) by lra. reflexivity.
  - reflexivity.
  - lra.
  - lra.
Qed.

(** C2 - The count of the Vranic merger fails on the code.  On the twelve
    particles the cell 0 holds the eight particles 0 to 7, in two packets.
    The second packet holds the particles 4 to 7, and its particles #2 and
    #3 are the particles 6 and 7: they keep their tag 0, and the particles 8
    and 10, which belong to a cell of two particles, are tagged -1 in their
    place.  The tagging loop adds [ipack * 4] twice to the index into
    [sorted_particles]. *)
Theorem vranic_tags_other_particles :
  exists self' p',
    MergingVranic.call merger0 (twelve (3/4) no_tags) 0 12 = Ok (self', p') /\
    counting_sort 0 12 125 [0; 0; 0; 0; 0; 0; 0; 0; 120; 4; 120; 4]%Z
      = Ok (sorted_12, offsets_12, counts_12) /\
    packet sorted_12 0 1 = Ok [4; 5; 6; 7]%nat /\
    cell_keys p' = [0; 0; -1; -1; 0; 0; 0; 0; -1; 0; -1; 0]%Z.
Proof.
  do 2 eexists. split; [apply call_twelve|].
  split; [apply counting_sort_twelve|].
  split; [vm_compute; reflexivity|reflexivity].
Qed.

(** C3 - Momentum conservation of the Vranic merger fails on the code.  On
    the twelve particles of weight 2 the first packet of cell 0 has the
    total weight 8 and the energy sum 5, not weighted: the new energy per
    weight is 5/8 and the new momentum norm is the square root of
    25/64 - 1.  The survivors receive no real momentum, so they do not carry
    the weighted momentum (6, 0, 0) of the four inputs. *)
Theorem vranic_momentum_not_a_number :
  MergingVranic.call merger0 (twelve 2 no_tags) 0 12 = Fail NotANumber /\
  packet sorted_12 0 0 = Ok [0; 1; 2; 3]%nat /\
  weighted_momentum (twelve 2 no_tags) [0; 1; 2; 3]%nat
    = Ok (2 * (3/4) + (2 * (3/4) + (2 * (3/4) + (2 * (3/4) + 0))),
          2 * 0 + (2 * 0 + (2 * 0 + (2 * 0 + 0))),
          2 * 0 + (2 * 0 + (2 * 0 + (2 * 0 + 0)))) /\
  (forall d, merged_momenta (8, (6, 0, 0), 5) d = Fail NotANumber).
Proof.
  split; [apply call_heavy|]. split; [vm_compute; reflexivity|].
  split; [reflexivity|]. apply merged_momenta_heavy.
Qed.

(** A packet that is merged and the theorem on its weights, on the first
    packet of the twelve particles of weight 3/4. *)
Lemma merge_packet_conserves_weight_witness :
  merge_packet sorted_12 0 (1, 0, 0) 0 (twelve (3/4) no_tags)
    = Ok (after_packet_0 0 0 0 0 0 0 0 0 0 0 0 0) /\
  exists i0 i1 i2 i3 w0 w1 w2 w3,
    packet sorted_12 0 0 = Ok [i0; i1; i2; i3] /\
    load (weight (twelve (3/4) no_tags)) i0 = Ok w0 /\
    load (weight (twelve (3/4) no_tags)) i1 = Ok w1 /\
    load (weight (twelve (3/4) no_tags)) i2 = Ok w2 /\
    load (weight (twelve (3/4) no_tags)) i3 = Ok w3 /\
    load (weight (after_packet_0 0 0 0 0 0 0 0 0 0 0 0 0)) i0 = Ok (0.5 * (w0 + w1 + w2 + w3)) /\
    load (weight (after_packet_0 0 0 0 0 0 0 0 0 0 0 0 0)) i1 = Ok (0.5 * (w0 + w1 + w2 + w3)) /\
    total_weight (after_packet_0 0 0 0 0 0 0 0 0 0 0 0 0) [i0; i1] = Ok (w0 + w1 + w2 + w3).
Proof.
  split.
  - apply (packet_0_twelve 0 0 0 0 0 0 0 0 0 0 0 0 1 0 0).
  - apply (merge_packet_conserves_weight sorted_12 0 (1, 0, 0) 0 (twelve (3/4) no_tags)).
    apply (packet_0_twelve 0 0 0 0 0 0 0 0 0 0 0 0 1 0 0).
Defined.

(** C8 - The collapse of an axis fails on the code.  On five particles of
    the same momentum the three steps of the discretization are below
    1e-10: each is set to 0 and its dimension to 1.  The cell index of the
    first particle is then computed with a division by the step 0, and the
    quotient, which is not a number, is converted to [unsigned int]. *)
Theorem vranic_collapse_divides_by_zero :
  bounds_pass five 0 5 = Ok (mkExtrema 1 1 0 0 0 0, [0; 0; 0; 0; 0], [0; 0; 0; 0; 0]) /\
  axis_delta 1 (1 + (1 - 1) * 0.01) 5 = (0, 1%Z) /\
  axis_delta 0 (0 + (0 - 0) * 0.01) 5 = (0, 1%Z) /\
  uint_of_quotient (1 - 1) 0 = Fail Undefined /\
  MergingVranic.call merger0 five 0 5 = Fail Undefined.
Proof.
  split; [apply bounds_five|].
  split; [apply axis_delta_collapse; lra|].
  split; [apply axis_delta_collapse; lra|].
  split; [apply uint_of_quotient_zero|apply call_five].
Qed.

(** C9 as stated is false: a particle that is dead on entry is merged.  On
    the twelve particles of weight 3/4 with particle 1 tagged -1 on entry,
    particle 1 is the second survivor of the first packet and leaves the
    call with the weight 3/2. *)
Lemma dead_particle_is_merged :
  ~ (forall self p istart iend self' p' i,
       MergingVranic.call self p istart iend = Ok (self', p') ->
       (istart <= Z.of_nat i < iend)%Z ->
       load (cell_keys p) i = Ok (-1)%Z ->
       load (weight p') i = load (weight p) i /\ momentum_at p' i = momentum_at p i).
Proof.
  intros H.
  destruct (H merger0 (twelve (3/4) one_dead) 0%Z 12%Z _ _ 1%nat
              (call_twelve 0 (-1) 0 0 0 0 0 0 0 0 0 0)) as [Hw _];
    [lia|reflexivity|].
  cbn in Hw. injection Hw as Hw. lra.
Qed.

(** Two lists of tags of the same length, and the theorem on them. *)
Lemma vranic_ignores_entry_tags_witness :
  length one_dead = length (cell_keys (twelve (3/4) no_tags)) /\
  same_outcome (fun r r' => r.1 = r'.1 /\ alike r.2 r'.2)
    (MergingVranic.call merger0 (twelve (3/4) no_tags) 0 12)
    (MergingVranic.call merger0 (set_cell_keys (twelve (3/4) no_tags) one_dead) 0 12).
Proof.
  split; [reflexivity|].
  apply (vranic_ignores_entry_tags merger0 (twelve (3/4) no_tags) one_dead 0 12).
  reflexivity.
Defined.

(** The dimension that the second step leaves on an axis of dimension 5:
    5, or 1 when the axis is collapsed. *)
Lemma axis_delta_dim (vmin vmax : R) :
  (axis_delta vmin vmax 5).2 = 5%Z \/ (axis_delta vmin vmax 5).2 = 1%Z.
Proof. unfold axis_delta. destruct (Rlt_dec _ _); cbn; auto. Qed.

(** C10 - The configured dimensions of the grid are ignored.  Two calls on
    the same particles that differ only in the configured [dimensions_]
    leave the same particles, and fail in the same way when they fail.  A
    call that passes the test on the number of particles and returns has
    overwritten [dimensions_]: whatever was configured, the other call
    returns the same object and the same particles, and [dimensions_] holds
    what the second step makes of a grid of 5 x 5 x 5, on each axis 5 or,
    when the axis is collapsed, 1. *)
Theorem vranic_overwrites_dimensions (threshold : Z) (d d' : Z * Z * Z)
    (p : Particles) (istart iend : Z) :
  particles_of (MergingVranic.call (mkMerging threshold d) p istart iend)
  = particles_of (MergingVranic.call (mkMerging threshold d') p istart iend) /\
  forall self' p',
    MergingVranic.call (mkMerging threshold d) p istart iend = Ok (self', p') ->
    (threshold < wrap (iend - istart))%Z ->
    MergingVranic.call (mkMerging threshold d') p istart iend = Ok (self', p') /\
    exists ex particles_theta particles_phi,
      bounds_pass p (Z.to_nat istart) (Z.to_nat iend)
      = Ok (ex, particles_theta, particles_phi) /\
      dimensions_ self'
      = ((axis_delta (mr_min (inflate ex)) (mr_max (inflate ex)) 5).2,
         (axis_delta (theta_min (inflate ex)) (theta_max (inflate ex)) 5).2,
         (axis_delta (phi_min (inflate ex)) (phi_max (inflate ex)) 5).2) /\
      Forall (fun dim => dim = 5%Z \/ dim = 1%Z)
             [(dimensions_ self').1.1; (dimensions_ self').1.2; (dimensions_ self').2].
Proof.
  split.
  - unfold MergingVranic.call. cbn [merging_ppc_min_threshold_].
    destruct (_ <? _)%Z; [|reflexivity].
    destruct (_ <? _)%Z; [reflexivity|].
    destruct (_ <? _)%Z; reflexivity.
  - intros self' p' H Hn. apply Z.ltb_lt in Hn.
    unfold MergingVranic.call in *. cbn [merging_ppc_min_threshold_] in *.
    rewrite Hn in *.
    destruct (iend - istart <? 0)%Z; [discriminate|].
    destruct (istart <? 0)%Z; [discriminate|].
    split; [exact H|].
    unfold merge_range in H. cbn [merging_ppc_min_threshold_ dimensions_] in H.
    bind_inv H as b Hb. destruct b as [[ex particles_theta] particles_phi].
    exists ex, particles_theta, particles_phi. split; [exact Hb|].
    pose proof (axis_delta_dim (mr_min (inflate ex)) (mr_max (inflate ex))) as D0.
    pose proof (axis_delta_dim (theta_min (inflate ex)) (theta_max (inflate ex))) as D1.
    pose proof (axis_delta_dim (phi_min (inflate ex)) (phi_max (inflate ex))) as D2.
    destruct (axis_delta (mr_min (inflate ex)) (mr_max (inflate ex)) 5)
      as [mr_delta dim0].
    destruct (axis_delta (theta_min (inflate ex)) (theta_max (inflate ex)) 5)
      as [theta_delta dim1].
    destruct (axis_delta (phi_min (inflate ex)) (phi_max (inflate ex)) 5)
      as [phi_delta dim2].
    bind_inv H as cv Hcv. destruct cv as [[cvx cvy] cvz].
    bind_inv H as mci Hmci. bind_inv H as srt Hsrt.
    destruct srt as [[sorted offsets] counts].
    bind_inv H as q Hq. injection H as <- <-. cbn [dimensions_ fst snd] in *.
    split; [reflexivity|]. repeat (constructor; [assumption|]). constructor.
Qed.

(** The call on the twelve particles with a merger configured with
    7 x 3 x 2 and with one configured with 2 x 9 x 4: no axis is collapsed
    and both leave 5 x 5 x 5. *)
Lemma vranic_overwrites_dimensions_witness :
  (MergingVranic.call (mkMerging 0 (7, 3, 2)%Z) (twelve (3/4) no_tags) 0 12
   = Ok (mkMerging 0 (5, 5, 5)%Z,
         after_packet_1 0 0 0 0 0 0 0 0 direction12.1.2 direction12.2) /\
   (0 < wrap (12 - 0))%Z) /\
  MergingVranic.call (mkMerging 0 (2, 9, 4)%Z) (twelve (3/4) no_tags) 0 12
  = Ok (mkMerging 0 (5, 5, 5)%Z,
        after_packet_1 0 0 0 0 0 0 0 0 direction12.1.2 direction12.2) /\
  exists ex particles_theta particles_phi,
    bounds_pass (twelve (3/4) no_tags) (Z.to_nat 0) (Z.to_nat 12)
    = Ok (ex, particles_theta, particles_phi) /\
    dimensions_ (mkMerging 0 (5, 5, 5)%Z)
    = ((axis_delta (mr_min (inflate ex)) (mr_max (inflate ex)) 5).2,
       (axis_delta (theta_min (inflate ex)) (theta_max (inflate ex)) 5).2,
       (axis_delta (phi_min (inflate ex)) (phi_max (inflate ex)) 5).2) /\
    Forall (fun dim => dim = 5%Z \/ dim = 1%Z)
           [(dimensions_ (mkMerging 0 (5, 5, 5)%Z)).1.1;
            (dimensions_ (mkMerging 0 (5, 5, 5)%Z)).1.2;
            (dimensions_ (mkMerging 0 (5, 5, 5)%Z)).2].
Proof.
  pose proof (call_twelve 0 0 0 0 0 0 0 0 0 0 0 0) as H1.
  assert (H2 : (0 < wrap (12 - 0))%Z) by (vm_compute; reflexivity).
  split; [split; assumption|].
  exact (proj2 (vranic_overwrites_dimensions 0 (7, 3, 2)%Z (2, 9, 4)%Z
                  (twelve (3/4) no_tags) 0 12) _ _ H1 H2).
Defined.

(** ** The emission of a photon *)

Lemma position_at_Ok (p : Particles) (d i : nat) (v : R) :
  position_at p d i = Ok v <->
  exists column, Position p !! d = Some column /\ column !! i = Some v.
Proof.
  unfold position_at, load. destruct (Position p !! d) as [column|]; cbn.
  - destruct (column !! i) as [x|] eqn:E; split.
    + intros [= <-]. exists column. auto.
    + intros (c & [= <-] & Hc). congruence.
    + discriminate.
    + intros (c & [= <-] & Hc). congruence.
  - split; [discriminate|]. intros (c & Hc & _). discriminate.
Qed.

(** [store_position] writes one coordinate of one particle and leaves every
    other coordinate and every other column as it was. *)
Lemma store_position_Ok (p p' : Particles) (d i : nat) (v : R) :
  store_position p d i v = Ok p' ->
  position_at p' d i = Ok v /\
  (forall d' j, d' <> d \/ j <> i -> position_at p' d' j = position_at p d' j) /\
  momentum_x p' = momentum_x p /\ momentum_y p' = momentum_y p /\
  momentum_z p' = momentum_z p /\ weight p' = weight p /\ charge p' = charge p /\
  chi p' = chi p /\ tau p' = tau p /\
  isQuantumParameter p' = isQuantumParameter p /\ isMonteCarlo p' = isMonteCarlo p.
Proof.
  unfold store_position. intros H.
  bind_inv H as column Hc. bind_inv H as column' Hc'. injection H as <-.
  apply load_Ok in Hc. pose proof (lookup_lt_Some _ _ _ Hc) as Hd.
  split; [|split; [|cbn; repeat split]].
  - apply position_at_Ok. exists column'. cbn. split.
    + apply list_lookup_insert_eq. exact Hd.
    + eapply store_same. exact Hc'.
  - intros d' j Hne. unfold position_at, load. cbn.
    destruct (decide (d' = d)) as [->|Hdd].
    + rewrite list_lookup_insert_eq by exact Hd. rewrite Hc. cbn.
      destruct Hne as [Hne|Hne]; [contradiction|].
      rewrite (store_other _ _ _ _ _ Hc') by auto. reflexivity.
    + rewrite list_lookup_insert_ne by auto. reflexivity.
Qed.

(** The coordinates of the new photon: the part of the loop "For all new
    photons..." that copies the position. *)
Lemma photon_position_Ok (nDim : nat) (particles : Particles) (ipart idNew : nat)
    (ph0 ph1 ph2 : Particles) (x : R) :
  (nDim <= 3)%nat ->
  position_at particles 0 ipart = Ok x ->
  store_position ph0 0 idNew x = Ok ph1 ->
  (if (1 <? nDim)%nat then
     y ← position_at particles 1 ipart;
     ph ← store_position ph1 1 idNew y;
     if (2 <? nDim)%nat then
       z ← position_at particles 2 ipart;
       store_position ph 2 idNew z
     else Ok ph
   else Ok ph1) = Ok ph2 ->
  (forall d, (d < nDim)%nat ->
     exists v, position_at particles d ipart = Ok v /\ position_at ph2 d idNew = Ok v) /\
  (forall d j, j <> idNew -> position_at ph2 d j = position_at ph0 d j) /\
  momentum_x ph2 = momentum_x ph0 /\ momentum_y ph2 = momentum_y ph0 /\
  momentum_z ph2 = momentum_z ph0 /\ weight ph2 = weight ph0 /\ charge ph2 = charge ph0 /\
  chi ph2 = chi ph0 /\ tau ph2 = tau ph0 /\
  isQuantumParameter ph2 = isQuantumParameter ph0 /\ isMonteCarlo ph2 = isMonteCarlo ph0.
Proof.
  intros HnDim Hx H1 H2.
  apply store_position_Ok in H1
    as (P1 & F1 & X1 & Y1 & Z1 & W1 & Ch1 & K1 & T1 & Q1 & M1).
  destruct (1 <? nDim)%nat eqn:E1.
  - bind_inv H2 as y Hy. bind_inv H2 as ph Hph.
    apply store_position_Ok in Hph
      as (P2 & F2 & X2 & Y2 & Z2 & W2 & Ch2 & K2 & T2 & Q2 & M2).
    destruct (2 <? nDim)%nat eqn:E2.
    + bind_inv H2 as z Hz.
      apply store_position_Ok in H2
        as (P3 & F3 & X3 & Y3 & Z3 & W3 & Ch3 & K3 & T3 & Q3 & M3).
      split; [|split; [|repeat split; congruence]].
      * intros d Hd.
        assert (Hc : d = 0%nat \/ d = 1%nat \/ d = 2%nat) by lia.
        destruct Hc as [->|[->| ->]].
        -- exists x. split; [exact Hx|]. rewrite F3, F2 by (left; lia). exact P1.
        -- exists y. split; [exact Hy|]. rewrite F3 by (left; lia). exact P2.
        -- exists z. split; [exact Hz|exact P3].
      * intros d j Hj. rewrite F3, F2, F1 by (right; exact Hj). reflexivity.
    + injection H2 as <-. apply Nat.ltb_ge in E2. apply Nat.ltb_lt in E1.
      split; [|split; [|repeat split; congruence]].
      * intros d Hd.
        assert (Hc : d = 0%nat \/ d = 1%nat) by lia.
        destruct Hc as [->| ->].
        -- exists x. split; [exact Hx|]. rewrite F2 by (left; lia). exact P1.
        -- exists y. split; [exact Hy|exact P2].
      * intros d j Hj. rewrite F2, F1 by (right; exact Hj). reflexivity.
  - injection H2 as <-. apply Nat.ltb_ge in E1.
    split; [|split; [|repeat split; congruence]].
    + intros d Hd. assert (d = 0%nat) as -> by lia. exists x. auto.
    + intros d j Hj. rewrite F1 by (right; exact Hj). reflexivity.
Qed.

Lemma load_store_same {A : Type} (a a' : list A) (i : nat) (v : A) :
  store a i v = Ok a' -> load a' i = Ok v.
Proof. intros H. apply load_Ok. eapply store_same. exact H. Qed.

Lemma load_store_other {A : Type} (a a' : list A) (i j : nat) (v : A) :
  store a i v = Ok a' -> i <> j -> load a' j = load a j.
Proof. intros H Hij. unfold load. rewrite (store_other _ _ _ _ _ H Hij). reflexivity. Qed.

(** One turn of the loop "For all new photons..." makes particle [idNew]
    of the buffer a photon and leaves the other particles of the buffer as
    they were. *)
Lemma photon_step_Ok (self : Radiation) (particles : Particles) (ipart : nat)
    (g inv photon_chi : R) (idNew : nat) (ph ph' : Particles) :
  (nDim_ self <= 3)%nat ->
  photon_step self particles ipart g inv photon_chi idNew ph = Ok ph' ->
  exists px py pz w,
    momentum_at particles ipart = Ok (px, py, pz) /\
    load (weight particles) ipart = Ok w /\
    is_photon_of (nDim_ self) particles ipart
                 (w * inv_radiation_photon_sampling_ self)
                 (g * px * inv, g * py * inv, g * pz * inv) ph' idNew /\
    (forall j, j <> idNew -> same_particle ph ph' j) /\
    size ph' = size ph.
Proof.
  intros HnDim H. unfold photon_step in H.
  bind_inv H as x Hx. bind_inv H as ph1 H1. bind_inv H as ph2 H2.
  destruct (photon_position_Ok _ _ _ _ _ _ _ _ HnDim Hx H1 H2)
    as (Hpos & Fpos & X2 & Y2 & Z2 & W2 & Ch2 & K2 & T2 & Q2 & M2).
  bind_inv H as m Hm. destruct m as [[px py] pz].
  bind_inv H as mx Hmx. bind_inv H as my Hmy. bind_inv H as mz Hmz.
  bind_inv H as w Hw. bind_inv H as wt Hwt. bind_inv H as c Hc.
  cbn [set_charge set_weight set_momentum isQuantumParameter isMonteCarlo
       chi tau charge weight momentum_x momentum_y momentum_z] in *.
  set (ph3 := set_charge (set_weight (set_momentum ph2 mx my mz) wt) c) in *.
  assert (Hfin : momentum_x ph' = mx /\ momentum_y ph' = my /\ momentum_z ph' = mz /\
                 weight ph' = wt /\ charge ph' = c /\ Position ph' = Position ph2).
  { bind_inv H as ph4 H4.
    assert (E4 : momentum_x ph4 = mx /\ momentum_y ph4 = my /\ momentum_z ph4 = mz /\
                 weight ph4 = wt /\ charge ph4 = c /\ Position ph4 = Position ph2 /\
                 isMonteCarlo ph4 = isMonteCarlo ph2).
    { destruct (isQuantumParameter ph2).
      - bind_inv H4 as c4 Hc4. injection H4 as <-. cbn. repeat split.
      - injection H4 as <-. cbn. repeat split. }
    destruct E4 as (? & ? & ? & ? & ? & ? & ?).
    destruct (isMonteCarlo ph4).
    - bind_inv H as t Ht. injection H as <-. cbn. repeat split; assumption.
    - injection H as <-. repeat split; assumption. }
  destruct Hfin as (Ex & Ey & Ez & Ew & Ec & Ep).
  assert (Hposeq : forall d j, position_at ph' d j = position_at ph2 d j)
    by (intros d j; unfold position_at; rewrite Ep; reflexivity).
  exists px, py, pz, w. split; [exact Hm|]. split; [exact Hw|].
  split; [|split].
  - unfold is_photon_of. rewrite Ew, Ec. split; [|split; [|split]].
    + eapply load_store_same. exact Hwt.
    + eapply load_store_same. exact Hc.
    + apply momentum_at_Ok. rewrite Ex, Ey, Ez.
      repeat split; eapply store_same; eassumption.
    + intros d Hd. destruct (Hpos d Hd) as (v & Hv & Hv'). exists v.
      rewrite Hposeq. auto.
  - intros j Hj. unfold same_particle.
    rewrite Ew, Ec. split; [|split; [|split]].
    + rewrite (load_store_other _ _ _ _ _ Hwt) by auto. rewrite W2. reflexivity.
    + rewrite (load_store_other _ _ _ _ _ Hc) by auto. rewrite Ch2. reflexivity.
    + unfold momentum_at. rewrite Ex, Ey, Ez.
      rewrite (load_store_other _ _ _ _ _ Hmx), (load_store_other _ _ _ _ _ Hmy),
        (load_store_other _ _ _ _ _ Hmz) by auto.
      rewrite X2, Y2, Z2. reflexivity.
    + intros d. rewrite Hposeq, Fpos by exact Hj. reflexivity.
  - unfold size. rewrite Ew. rewrite (store_length _ _ _ _ Hwt). rewrite W2. reflexivity.
Qed.

Lemma same_particle_refl (ph : Particles) (j : nat) : same_particle ph ph j.
Proof. repeat split. Qed.

Lemma same_particle_trans (ph1 ph2 ph3 : Particles) (j : nat) :
  same_particle ph1 ph2 j -> same_particle ph2 ph3 j -> same_particle ph1 ph3 j.
Proof.
  intros (W & C & M & P) (W' & C' & M' & P').
  repeat split; try congruence; try (intros d; rewrite P', P; reflexivity).
Qed.

Lemma is_photon_of_same (nDim : nat) (particles : Particles) (ipart : nat) (w : R)
    (m : R * R * R) (ph ph' : Particles) (j : nat) :
  same_particle ph ph' j ->
  is_photon_of nDim particles ipart w m ph j ->
  is_photon_of nDim particles ipart w m ph' j.
Proof.
  intros (W & C & M & P) (Jw & Jc & Jm & Jp).
  repeat split; try congruence.
  intros d Hd. destruct (Jp d Hd) as (v & Hv & Hv'). exists v. rewrite P. auto.
Qed.

(** The loop "For all new photons...": every particle of the range is made
    a photon; the rest of the buffer is left as it was. *)
Lemma photon_loop_Ok (self : Radiation) (particles : Particles) (ipart : nat)
    (g inv photon_chi : R) (px py pz w : R) (n i : nat) (ph ph' : Particles) :
  (nDim_ self <= 3)%nat ->
  momentum_at particles ipart = Ok (px, py, pz) ->
  load (weight particles) ipart = Ok w ->
  for_loop n i (photon_step self particles ipart g inv photon_chi) ph = Ok ph' ->
  size ph' = size ph /\
  (forall j, (i <= j < i + n)%nat ->
     is_photon_of (nDim_ self) particles ipart
                  (w * inv_radiation_photon_sampling_ self)
                  (g * px * inv, g * py * inv, g * pz * inv) ph' j) /\
  (forall j, ~ (i <= j < i + n)%nat -> same_particle ph ph' j).
Proof.
  intros HnDim Hm Hw. revert i ph. induction n as [|n IH]; intros i ph H; cbn in H.
  - injection H as <-. split; [reflexivity|]. split; [intros j Hj; lia|].
    intros j _. apply same_particle_refl.
  - bind_inv H as ph1 H1.
    apply photon_step_Ok in H1 as (px' & py' & pz' & w' & Hm' & Hw' & Hnew & Hframe & Hsize);
      [|exact HnDim].
    rewrite Hm in Hm'. injection Hm' as <- <- <-. rewrite Hw in Hw'. injection Hw' as <-.
    destruct (IH _ _ H) as (Hsize' & Hin & Hout).
    split; [congruence|]. split.
    + intros j Hj. destruct (decide (j = i)) as [->|Hne].
      * eapply is_photon_of_same; [apply Hout; lia|exact Hnew].
      * apply Hin. lia.
    + intros j Hj. eapply same_particle_trans; [apply Hframe; lia|apply Hout; lia].
Qed.

Lemma size_createParticles (p : Particles) (n : nat) :
  size (createParticles p n) = (size p + n)%nat.
Proof. unfold size. cbn. rewrite length_app, length_replicate. reflexivity. Qed.

(** What a successful [photonEmission] did.  [f] is the factor of the
    recoil: the momentum [m] of the particle becomes [m - m * f]. *)
Lemma photonEmission_Ok (tables : RadiationTables) (self : Radiation) (ipart : nat)
    (particle_chi particle_gamma : R) (particles : Particles) (random_number : R)
    (photon_species : bool) (self' : Radiation) (particles' : Particles) (e : R) :
  photonEmission tables self ipart particle_chi particle_gamma particles
                 random_number photon_species = Ok (self', particles', e) ->
  let photon_chi :=
    computeRandomPhotonChiWithInterpolation tables particle_chi random_number in
  let gammaph := photon_chi / particle_chi * (particle_gamma - 1) in
  let f := gammaph / sqrt (particle_gamma * particle_gamma - 1) in
  exists px py pz,
    momentum_at particles ipart = Ok (px, py, pz) /\
    momentum_at particles' ipart = Ok (px - px * f, py - py * f, pz - pz * f) /\
    weight particles' = weight particles /\
    Position particles' = Position particles /\
    if photon_species && Rleb (radiation_photon_gamma_threshold_ self) gammaph then
      let norm := sqrt ((px - px * f) * (px - px * f) + (py - py * f) * (py - py * f)
                        + (pz - pz * f) * (pz - pz * f)) in
      norm <> 0 /\ e = 0 /\
      exists ph,
        self' = set_new_photons self ph /\
        for_loop (radiation_photon_sampling_ self) (size (new_photons_ self))
                 (photon_step self particles' ipart gammaph (1 / norm) photon_chi)
                 (createParticles (new_photons_ self) (radiation_photon_sampling_ self))
        = Ok ph
    else
      self' = self /\
      exists w, load (weight particles) ipart = Ok w /\
        e = 0 + w * (particle_gamma
                     - sqrt (1 + (px - px * f) * (px - px * f)
                             + (py - py * f) * (py - py * f)
                             + (pz - pz * f) * (pz - pz * f))).
Proof.
  intros H photon_chi gammaph f. unfold photonEmission in H.
  fold photon_chi in H.
  bind_inv H as ratio Hr. bind_inv H as old_norm_p Ho. bind_inv H as inv Hi.
  unfold fdiv in Hr, Hi. unfold fsqrt in Ho.
  destruct (Req_dec_T particle_chi 0) as [|Hchi]; [discriminate|]. injection Hr as <-.
  destruct (Rlt_dec _ 0) as [|Hg]; [discriminate|]. injection Ho as <-.
  destruct (Req_dec_T _ 0) as [|Hn]; [discriminate|]. injection Hi as <-.
  fold gammaph in H. fold f in H.
  bind_inv H as m Hm. destruct m as [[px py] pz].
  bind_inv H as mx Hmx. bind_inv H as my Hmy. bind_inv H as mz Hmz.
  assert (Hm' : momentum_at (set_momentum particles mx my mz) ipart
                = Ok (px - px * f, py - py * f, pz - pz * f)).
  { apply momentum_at_Ok. cbn. repeat split; eapply store_same; eassumption. }
  rewrite Hm' in H. cbn [mbind outcome_bind] in H.
  exists px, py, pz. split; [exact Hm|].
  destruct (photon_species && Rleb (radiation_photon_gamma_threshold_ self) gammaph).
  - bind_inv H as inv' Hi'. bind_inv H as ph Hph. injection H as <- <- <-.
    split; [exact Hm'|]. split; [reflexivity|]. split; [reflexivity|].
    unfold fdiv in Hi'. destruct (Req_dec_T _ 0) as [|Hn']; [discriminate|].
    injection Hi' as <-.
    split; [exact Hn'|]. split; [reflexivity|]. exists ph. split; [reflexivity|].
    unfold for_range in Hph. rewrite size_createParticles in Hph.
    replace (size (new_photons_ self) + radiation_photon_sampling_ self
             - (size (new_photons_ self) + radiation_photon_sampling_ self
                - radiation_photon_sampling_ self))%nat
      with (radiation_photon_sampling_ self) in Hph by lia.
    replace (size (new_photons_ self) + radiation_photon_sampling_ self
             - radiation_photon_sampling_ self)%nat
      with (size (new_photons_ self)) in Hph by lia.
    exact Hph.
  - bind_inv H as w Hw. injection H as <- <- <-.
    split; [exact Hm'|]. split; [reflexivity|]. split; [reflexivity|].
    split; [reflexivity|]. exists w. split; [exact Hw|reflexivity].
Qed.

(** The norm of a vector scaled by the inverse of its norm. *)
Lemma norm_of_direction (g px py pz : R) :
  0 <= g -> sqrt (px * px + py * py + pz * pz) <> 0 ->
  let k := g * (1 / sqrt (px * px + py * py + pz * pz)) in
  sqrt (k * px * (k * px) + k * py * (k * py) + k * pz * (k * pz)) = g.
Proof.
  intros Hg Hn k. set (n := sqrt (px * px + py * py + pz * pz)) in *.
  assert (Hnn : n * n = px * px + py * py + pz * pz) by (apply sqrt_sqrt; nra).
  replace (k * px * (k * px) + k * py * (k * py) + k * pz * (k * pz))
    with (g * g).
  - apply sqrt_square. exact Hg.
  - transitivity (k * k * (n * n)); [|rewrite Hnn; ring].
    unfold k. field. exact Hn.
Qed.

(** C5 - The two outcomes of a photon emission.  When a photon species is
    attached and the photon gamma reaches the threshold, the buffer
    [new_photons_] grows by exactly [radiation_photon_sampling_] particles,
    the particles that were in it stay as they are, each new one has the
    weight of the emitting particle divided by the sampling, no charge, the
    position of the emitting particle and a momentum collinear with the
    momentum of the particle, of norm the photon gamma, and the function
    returns 0.  Otherwise [new_photons_] is left alone and the function
    returns weight * (gamma - gamma_new), with gamma_new the Lorentz factor
    of the particle after the recoil.  [inv_radiation_photon_sampling_] is
    the value that the constructor sets, the threshold is not negative and
    there are at most three dimensions. *)
Theorem photon_emission_dichotomy (tables : RadiationTables) (self : Radiation)
    (ipart : nat) (particle_chi particle_gamma : R) (particles : Particles)
    (random_number : R) (photon_species : bool)
    (self' : Radiation) (particles' : Particles) (e : R) :
  (nDim_ self <= 3)%nat ->
  inv_radiation_photon_sampling_ self = 1 / INR (radiation_photon_sampling_ self) ->
  0 <= radiation_photon_gamma_threshold_ self ->
  photonEmission tables self ipart particle_chi particle_gamma particles
                 random_number photon_species = Ok (self', particles', e) ->
  let gammaph :=
    computeRandomPhotonChiWithInterpolation tables particle_chi random_number
    / particle_chi * (particle_gamma - 1) in
  let sampling := radiation_photon_sampling_ self in
  exists px py pz,
    momentum_at particles' ipart = Ok (px, py, pz) /\
    if photon_species && Rleb (radiation_photon_gamma_threshold_ self) gammaph then
      e = 0 /\
      size (new_photons_ self') = (size (new_photons_ self) + sampling)%nat /\
      (forall j, (j < size (new_photons_ self))%nat ->
         same_particle (createParticles (new_photons_ self) sampling)
                       (new_photons_ self') j) /\
      (forall j, (size (new_photons_ self) <= j < size (new_photons_ self) + sampling)%nat ->
         exists w k,
           load (weight particles') ipart = Ok w /\
           is_photon_of (nDim_ self) particles' ipart (w / INR sampling)
                        (k * px, k * py, k * pz) (new_photons_ self') j /\
           sqrt (k * px * (k * px) + k * py * (k * py) + k * pz * (k * pz)) = gammaph)
    else
      new_photons_ self' = new_photons_ self /\
      exists w,
        load (weight particles') ipart = Ok w /\
        e = w * (particle_gamma - sqrt (1 + px * px + py * py + pz * pz)).
Proof.
  intros HnDim Hinv Hthr H gammaph sampling.
  apply photonEmission_Ok in H as (px & py & pz & Hm & Hm' & Hw & Hp & H).
  fold gammaph in H, Hm'.
  set (f := gammaph / sqrt (particle_gamma * particle_gamma - 1)) in *.
  exists (px - px * f), (py - py * f), (pz - pz * f). split; [exact Hm'|].
  destruct (photon_species && Rleb (radiation_photon_gamma_threshold_ self) gammaph) eqn:Hc.
  - destruct H as (Hn & -> & ph & -> & Hloop). cbn [new_photons_ set_new_photons].
    split; [reflexivity|].
    assert (Hg : 0 <= gammaph).
    { apply andb_true_iff in Hc as [_ Hc]. unfold Rleb in Hc.
      destruct (Rle_dec _ _); [lra|discriminate]. }
    fold sampling in Hloop.
    destruct sampling as [|n] eqn:Es.
    + cbn in Hloop. injection Hloop as <-.
      split; [rewrite size_createParticles; reflexivity|].
      split; [intros j _; apply same_particle_refl|]. intros j Hj. lia.
    + pose proof Hloop as Hfirst. cbn in Hfirst. bind_inv Hfirst as ph1 H1.
      apply photon_step_Ok in H1 as (x & y & z & w & _ & Hw' & _); [|exact HnDim].
      destruct (photon_loop_Ok _ _ _ _ _ _ _ _ _ _ _ _ _ _ HnDim Hm' Hw' Hloop)
        as (Hsize & Hin & Hout).
      split; [rewrite Hsize, size_createParticles; reflexivity|].
      split; [intros j Hj; apply Hout; lia|].
      intros j Hj. exists w. eexists. split; [exact Hw'|]. split.
      * specialize (Hin j Hj). rewrite Hinv in Hin.
        unfold is_photon_of in *. destruct Hin as (Jw & Jc & Jm & Jp).
        split; [|split; [|split]]; [| exact Jc | | exact Jp].
        -- rewrite Jw. f_equal. unfold sampling in *. rewrite Es. unfold Rdiv. ring.
        -- rewrite Jm. f_equal.
           instantiate (1 := gammaph * (1 / sqrt ((px - px * f) * (px - px * f)
                                                  + (py - py * f) * (py - py * f)
                                                  + (pz - pz * f) * (pz - pz * f)))).
           f_equal; [f_equal|]; ring.
      * apply norm_of_direction; assumption.
  - destruct H as (-> & w & Hw' & ->). split; [reflexivity|].
    exists w. split; [rewrite Hw; exact Hw'|lra].
Qed.

(** ** The emission on the electron *)

Ltac real_list :=
  repeat match goal with
         | |- _ :: _ = _ :: _ => apply (f_equal2 cons); [first [reflexivity | lra]|]
         end; try reflexivity.

(** Runs [photonEmission] on the electron: [g] is the ratio of the photon
    chi to the particle chi, [r] the norm of the momentum before the
    recoil, [f] the factor of the recoil and [n] the norm after it. *)
Ltac emission g r f n :=
  unfold photonEmission;
  cbn [computeRandomPhotonChiWithInterpolation tables0];
  rewrite (fdiv_val _ 1 g) by lra; cbn [mbind outcome_bind];
  rewrite (fsqrt_val _ r) by lra; cbn [mbind outcome_bind];
  rewrite (fdiv_val _ r f) by lra; cbn [mbind outcome_bind];
  simpl;
  unfold Rleb; destruct (Rle_dec _ _); [|lra];
  rewrite (norm_val _ _ _ n) by lra;
  rewrite (fdiv_val 1 n (1 / n)) by lra; cbn [mbind outcome_bind];
  cbv beta iota delta
    [set_new_photons two_photons electron_after set_tau set_chi set_charge set_weight
     set_momentum Position momentum_x momentum_y momentum_z weight charge chi tau
     cell_keys isQuantumParameter isMonteCarlo one_over_mass_ dt_ epsilon_tau_
     max_monte_carlo_iterations_ nDim_ radiation_photon_sampling_
     radiation_photon_gamma_threshold_ inv_radiation_photon_sampling_ new_photons_
     rand_ radiation0 make electron set_rand];
  do 4 f_equal; f_equal; real_list.

(** A photon chi of half the particle chi: the photon gamma is 1/3, the
    factor of the recoil 1/4, and both photons leave along +x. *)
Lemma emission_forward (u t : R) :
  photonEmission (tables0 (1/2)) radiation0 0 1 (5/3) (electron t) u true =
  Ok (set_new_photons radiation0 (two_photons (1/3) (1/2)), electron_after (1/4) t, 0).
Proof. emission (1/2) (4/3) (1/4) 1. Qed.

(** A photon chi of four times the particle chi: the photon gamma is 8/3,
    the factor of the recoil 2, the electron turns back and both photons
    leave along -x. *)
Lemma emission_backward (u t : R) :
  photonEmission (tables0 4) radiation0 0 1 (5/3) (electron t) u true =
  Ok (set_new_photons radiation0 (two_photons (- (8/3)) 4), electron_after 2 t, 0).
Proof. emission 4 (4/3) 2 (4/3). Qed.

(** The same emission as [emission_forward] after [n] draws of the
    generator. *)
Lemma emission_after_draws (n : nat) (u t : R) :
  photonEmission (tables0 (1/2)) (set_rand radiation0 n) 0 1 (5/3) (electron t) u true =
  Ok (set_new_photons (set_rand radiation0 n) (two_photons (1/3) (1/2)),
      electron_after (1/4) t, 0).
Proof. emission (1/2) (4/3) (1/4) 1. Qed.

(** The hypotheses of the theorem on the two outcomes and its conclusion,
    on the electron with a photon chi of half the particle chi. *)
Lemma photon_emission_dichotomy_witness :
  ((nDim_ radiation0 <= 3)%nat /\
   inv_radiation_photon_sampling_ radiation0
     = 1 / INR (radiation_photon_sampling_ radiation0) /\
   0 <= radiation_photon_gamma_threshold_ radiation0 /\
   photonEmission (tables0 (1/2)) radiation0 0 1 (5/3) (electron (-1)) 0 true
     = Ok (set_new_photons radiation0 (two_photons (1/3) (1/2)),
           electron_after (1/4) (-1), 0)) /\
  exists px py pz,
    momentum_at (electron_after (1/4) (-1)) 0 = Ok (px, py, pz) /\
    if true && Rleb (radiation_photon_gamma_threshold_ radiation0)
                    (computeRandomPhotonChiWithInterpolation (tables0 (1/2)) 1 0
                     / 1 * (5 / 3 - 1)) then
      0 = 0 /\
      size (new_photons_ (set_new_photons radiation0 (two_photons (1/3) (1/2))))
        = (size (new_photons_ radiation0) + radiation_photon_sampling_ radiation0)%nat /\
      (forall j, (j < size (new_photons_ radiation0))%nat ->
         same_particle (createParticles (new_photons_ radiation0)
                                        (radiation_photon_sampling_ radiation0))
                       (new_photons_ (set_new_photons radiation0 (two_photons (1/3) (1/2))))
                       j) /\
      (forall j, (size (new_photons_ radiation0) <= j
                  < size (new_photons_ radiation0)
                    + radiation_photon_sampling_ radiation0)%nat ->
         exists w k,
           load (weight (electron_after (1/4) (-1))) 0 = Ok w /\
           is_photon_of (nDim_ radiation0) (electron_after (1/4) (-1)) 0
                        (w / INR (radiation_photon_sampling_ radiation0))
                        (k * px, k * py, k * pz)
                        (new_photons_ (set_new_photons radiation0 (two_photons (1/3) (1/2))))
                        j /\
           sqrt (k * px * (k * px) + k * py * (k * py) + k * pz * (k * pz))
           = computeRandomPhotonChiWithInterpolation (tables0 (1/2)) 1 0
             / 1 * (5 / 3 - 1))
    else
      new_photons_ (set_new_photons radiation0 (two_photons (1/3) (1/2)))
        = new_photons_ radiation0 /\
      exists w,
        load (weight (electron_after (1/4) (-1))) 0 = Ok w /\
        0 = w * (5 / 3 - sqrt (1 + px * px + py * py + pz * pz)).
Proof.
  assert (H0 : (nDim_ radiation0 <= 3)%nat) by (cbn; lia).
  assert (H1 : inv_radiation_photon_sampling_ radiation0
               = 1 / INR (radiation_photon_sampling_ radiation0)) by reflexivity.
  assert (H2 : 0 <= radiation_photon_gamma_threshold_ radiation0) by (cbn; lra).
  pose proof (emission_forward 0 (-1)) as H3.
  split; [repeat split; assumption|].
  exact (photon_emission_dichotomy (tables0 (1/2)) radiation0 0 1 (5/3) (electron (-1)) 0
           true _ _ _ H0 H1 H2 H3).
Defined.

(** ** The direction of the photons *)

(** A recoil with a factor below 1 scales the norm of the momentum by
    [1 - f]. *)
Lemma norm_after_recoil (px py pz f : R) :
  f < 1 ->
  sqrt ((px - px * f) * (px - px * f) + (py - py * f) * (py - py * f)
        + (pz - pz * f) * (pz - pz * f))
  = (1 - f) * sqrt (px * px + py * py + pz * pz).
Proof.
  intros Hf.
  replace ((px - px * f) * (px - px * f) + (py - py * f) * (py - py * f)
           + (pz - pz * f) * (pz - pz * f))
    with ((1 - f) * (1 - f) * (px * px + py * py + pz * pz)) by ring.
  rewrite sqrt_mult by nra. rewrite sqrt_square by lra. reflexivity.
Qed.




(** ** The optical depth at exit *)

Lemma tau_kept_refl (eps : R) (a : list R) : tau_kept eps a a.
Proof. split; [reflexivity|]. intros i t' H. left. exact H. Qed.

Lemma tau_kept_trans (eps : R) (a b c : list R) :
  tau_kept eps a b -> tau_kept eps b c -> tau_kept eps a c.
Proof.
  intros [Hl H] [Hl' H']. split; [congruence|].
  intros i t' Hc. destruct (H' i t' Hc) as [Hb|Hb]; [|right; exact Hb].
  apply H. exact Hb.
Qed.

Lemma tau_kept_store (eps : R) (a a' : list R) (i : nat) (v : R) :
  store a i v = Ok a' -> v = -1 \/ eps < v -> tau_kept eps a a'.
Proof.
  intros Hs Hv. split; [eapply store_length; exact Hs|].
  intros j t' Hj. destruct (decide (i = j)) as [<-|Hij].
  - rewrite (store_same _ _ _ _ Hs) in Hj. injection Hj as <-. right. exact Hv.
  - rewrite (store_other _ _ _ _ _ Hs Hij) in Hj. left. exact Hj.
Qed.

(** The loop that draws a new optical depth ends, when it ends, with an
    optical depth above [epsilon_tau_], and writes to no other particle. *)
Lemma new_optical_depth_Ok (uniform : nat -> R) (fuel ipart : nat)
    (self : Radiation) (particles : Particles) (self' : Radiation) (particles' : Particles) :
  new_optical_depth uniform fuel ipart (self, particles) = Ok (self', particles') ->
  epsilon_tau_ self' = epsilon_tau_ self /\
  length (tau particles') = length (tau particles) /\
  (forall i, i <> ipart -> tau particles' !! i = tau particles !! i) /\
  exists t', tau particles' !! ipart = Some t' /\ epsilon_tau_ self < t'.
Proof.
  revert self particles. induction fuel as [|fuel IH]; intros self particles H; cbn in H.
  - bind_inv H as t Ht. unfold Rleb in H.
    destruct (Rle_dec t (epsilon_tau_ self)); [discriminate|].
    injection H as <- <-. repeat split; try reflexivity.
    exists t. split; [apply load_Ok; exact Ht|lra].
  - bind_inv H as t Ht. unfold Rleb in H. destruct (Rle_dec t (epsilon_tau_ self)).
    + bind_inv H as l Hl. bind_inv H as tau' Hs.
      apply IH in H as (He & Hlen & Ho & t' & Ht' & Hgt). cbn in He, Hlen, Ho, Hgt.
      repeat split.
      * exact He.
      * rewrite Hlen. eapply store_length; exact Hs.
      * intros i Hi. rewrite (Ho i Hi). eapply store_other; [exact Hs|congruence].
      * exists t'. split; [exact Ht'|exact Hgt].
    + injection H as <- <-. repeat split; try reflexivity.
      exists t. split; [apply load_Ok; exact Ht|lra].
Qed.

Lemma new_optical_depth_kept (uniform : nat -> R) (fuel ipart : nat)
    (self : Radiation) (particles : Particles) (self' : Radiation) (particles' : Particles) :
  new_optical_depth uniform fuel ipart (self, particles) = Ok (self', particles') ->
  epsilon_tau_ self' = epsilon_tau_ self /\
  tau_kept (epsilon_tau_ self) (tau particles) (tau particles').
Proof.
  intros (He & Hlen & Ho & t' & Ht' & Hgt)%new_optical_depth_Ok.
  split; [exact He|]. split; [exact Hlen|].
  intros i t Hi. destruct (decide (i = ipart)) as [->|Hne].
  - right. right. congruence.
  - left. rewrite <- (Ho i Hne). exact Hi.
Qed.

(** [photonEmission] does not write to the optical depths. *)
Lemma photonEmission_tau (tables : RadiationTables) (self : Radiation) (ipart : nat)
    (particle_chi particle_gamma : R) (particles : Particles) (random_number : R)
    (photon_species : bool) (self' : Radiation) (particles' : Particles) (e : R) :
  photonEmission tables self ipart particle_chi particle_gamma particles
                 random_number photon_species = Ok (self', particles', e) ->
  epsilon_tau_ self' = epsilon_tau_ self /\ tau particles' = tau particles.
Proof.
  intros H. unfold photonEmission in H.
  bind_inv H as ratio Hr. bind_inv H as old_norm_p Ho. bind_inv H as inv Hi.
  bind_inv H as m Hm. destruct m as [[px py] pz].
  bind_inv H as mx Hx. bind_inv H as my Hy. bind_inv H as mz Hz.
  bind_inv H as m' Hm'. destruct m' as [[px' py'] pz'].
  destruct (_ && _).
  - bind_inv H as inv' Hi'. bind_inv H as ph Hph. injection H as <- <- _.
    split; reflexivity.
  - bind_inv H as w Hw. injection H as <- <- _. split; reflexivity.
Qed.

Lemma monte_carlo_step_tau (uniform : nat -> R)
    (computeParticleChi : R -> R * R * R -> R -> R * R * R -> R * R * R -> R)
    (tables : RadiationTables) (fuel : nat) (photon_species : bool)
    (Epart Bpart : list R) (ipart : nat) (ipart_ref : Z) (c : R)
    (self : Radiation) (particles : Particles) (r : R) (l : Local) (f : flow)
    (self' : Radiation) (particles' : Particles) (r' : R) (l' : Local) :
  monte_carlo_step uniform computeParticleChi tables fuel photon_species Epart Bpart
                   ipart ipart_ref c (self, particles, r, l)
  = Ok (f, (self', particles', r', l')) ->
  epsilon_tau_ self' = epsilon_tau_ self /\
  tau_kept (epsilon_tau_ self) (tau particles) (tau particles').
Proof.
  intros H. unfold monte_carlo_step in H.
  bind_inv H as m Hm. destruct m as [[px py] pz].
  destruct (Reqb _ 1).
  { injection H as _ <- <- _ _. split; [reflexivity|apply tau_kept_refl]. }
  bind_inv H as E HE. bind_inv H as B HB. bind_inv H as t Ht.
  bind_inv H as st1 H1. destruct st1 as [self1 particles1].
  assert (K1 : epsilon_tau_ self1 = epsilon_tau_ self /\
               tau_kept (epsilon_tau_ self) (tau particles) (tau particles1)).
  { destruct (_ && _).
    - apply new_optical_depth_kept in H1. exact H1.
    - injection H1 as <- <-. split; [reflexivity|apply tau_kept_refl]. }
  destruct K1 as [E1 K1]. clear H1.
  bind_inv H as t1 Ht1.
  unfold Rltb in H at 1. destruct (Rlt_dec (epsilon_tau_ self1) t1) as [Hgt|Hle].
  - (* Discontinuous emission: emission under progress *)
    bind_inv H as time Htime. bind_inv H as tau' Hs.
    bind_inv H as st2 H2. destruct st2 as [[self2 particles2] r2].
    injection H as _ <- <- _ _.
    unfold Rleb in H2.
    destruct (Rle_dec _ (epsilon_tau_ self1)) as [Hlow|Hhigh].
    + bind_inv H2 as st3 H3. destruct st3 as [[self3 particles3] e].
      bind_inv H2 as tau'' Hs'. injection H2 as <- <- _.
      apply photonEmission_tau in H3 as [E3 T3]. cbn in E3, T3.
      split; [congruence|]. eapply tau_kept_trans; [exact K1|].
      cbn [tau set_tau]. rewrite T3 in Hs'.
      apply store_Ok in Hs as [Hi ->]. apply store_Ok in Hs' as [Hi' ->].
      rewrite list_insert_insert_eq.
      apply (tau_kept_store _ _ _ ipart (-1)); [|left; reflexivity].
      apply store_Ok. split; [exact Hi|reflexivity].
    + injection H2 as <- <- _. split; [exact E1|].
      eapply tau_kept_trans; [exact K1|]. cbn [tau set_tau].
      eapply tau_kept_store; [exact Hs|]. right. rewrite <- E1. lra.
  - destruct (_ && _ && _ && _).
    + (* Continuous emission *)
      bind_inv H as temp Htemp.
      bind_inv H as mx Hx. bind_inv H as my Hy. bind_inv H as mz Hz.
      bind_inv H as m' Hm'. destruct m' as [[px' py'] pz'].
      bind_inv H as w Hw. injection H as _ <- <- _ _.
      split; [exact E1|exact K1].
    + injection H as _ <- <- _ _. split; [exact E1|exact K1].
Qed.

Lemma monte_carlo_loop_tau (uniform : nat -> R)
    (computeParticleChi : R -> R * R * R -> R -> R * R * R -> R * R * R -> R)
    (tables : RadiationTables) (fuel fuel_tau : nat) (photon_species : bool)
    (Epart Bpart : list R) (ipart : nat) (ipart_ref : Z) (c : R)
    (self : Radiation) (particles : Particles) (r : R) (l : Local)
    (self' : Radiation) (particles' : Particles) (r' : R) (l' : Local) :
  monte_carlo_loop uniform computeParticleChi tables fuel fuel_tau photon_species
                   Epart Bpart ipart ipart_ref c (self, particles, r, l)
  = Ok (self', particles', r', l') ->
  epsilon_tau_ self' = epsilon_tau_ self /\
  tau_kept (epsilon_tau_ self) (tau particles) (tau particles').
Proof.
  revert self particles r l.
  induction fuel as [|fuel IH]; intros self particles r l H; cbn in H.
  - destruct (_ && _); [discriminate|]. injection H as <- <- _ _.
    split; [reflexivity|apply tau_kept_refl].
  - destruct (_ && _).
    + bind_inv H as x Hx. destruct x as [f [[[self1 particles1] r1] l1]].
      apply monte_carlo_step_tau in Hx as [E1 K1].
      destruct f.
      * apply IH in H as [E2 K2]. split; [congruence|].
        eapply tau_kept_trans; [exact K1|]. rewrite <- E1. exact K2.
      * injection H as <- <- _ _. split; [exact E1|exact K1].
    + injection H as <- <- _ _. split; [reflexivity|apply tau_kept_refl].
Qed.

Lemma particle_step_tau (uniform : nat -> R)
    (computeParticleChi : R -> R * R * R -> R -> R * R * R -> R * R * R -> R)
    (tables : RadiationTables) (fuel fuel_tau : nat) (photon_species : bool)
    (Epart Bpart : list R) (ipart_ref : Z) (ipart : nat)
    (self : Radiation) (particles : Particles) (r : R)
    (self' : Radiation) (particles' : Particles) (r' : R) :
  particle_step uniform computeParticleChi tables fuel fuel_tau photon_species
                Epart Bpart ipart_ref ipart (self, particles, r)
  = Ok (self', particles', r') ->
  epsilon_tau_ self' = epsilon_tau_ self /\
  tau_kept (epsilon_tau_ self) (tau particles) (tau particles').
Proof.
  intros H. unfold particle_step in H. bind_inv H as c Hc.
  bind_inv H as x Hx. destruct x as [[[self1 particles1] r1] l1].
  injection H as <- <- _. apply monte_carlo_loop_tau in Hx. exact Hx.
Qed.

Lemma chi_step_tau
    (computeParticleChi : R -> R * R * R -> R -> R * R * R -> R * R * R -> R)
    (self : Radiation) (Epart Bpart : list R) (ipart_ref : Z) (ipart : nat)
    (particles particles' : Particles) :
  chi_step computeParticleChi self Epart Bpart ipart_ref ipart particles = Ok particles' ->
  tau particles' = tau particles.
Proof.
  intros H. unfold chi_step in H. bind_inv H as c Hc.
  bind_inv H as m Hm. destruct m as [[px py] pz].
  bind_inv H as E HE. bind_inv H as B HB. bind_inv H as c' Hc'.
  injection H as <-. reflexivity.
Qed.

Lemma int_range_inv {S : Type} (P : S -> Prop) (istart iend : Z)
    (body : nat -> S -> outcome S) (s s' : S) :
  (forall j x y, P x -> body j x = Ok y -> P y) ->
  P s -> int_range istart iend body s = Ok s' -> P s'.
Proof.
  intros Hbody Hs H. unfold int_range in H.
  destruct (_ <=? _)%Z; [injection H as <-; exact Hs|].
  destruct (_ <? _)%Z; [discriminate|].
  eapply for_loop_inv; eassumption.
Qed.

(** Over a whole call, an optical depth keeps its value, or becomes -1, or
    ends above [epsilon_tau_]. *)
Lemma call_tau (uniform : nat -> R)
    (computeParticleChi : R -> R * R * R -> R -> R * R * R -> R * R * R -> R)
    (tables : RadiationTables) (fuel fuel_tau : nat) (self : Radiation)
    (particles : Particles) (photon_species : bool) (Epart Bpart : list R)
    (radiated_energy : R) (istart iend ipart_ref : Z)
    (self' : Radiation) (particles' : Particles) (e : R) :
  RadiationMonteCarlo.call uniform computeParticleChi tables fuel fuel_tau self particles
    photon_species Epart Bpart radiated_energy istart iend ipart_ref
  = Ok (self', particles', e) ->
  epsilon_tau_ self' = epsilon_tau_ self /\
  tau_kept (epsilon_tau_ self) (tau particles) (tau particles').
Proof.
  intros H. unfold RadiationMonteCarlo.call in H.
  bind_inv H as x Hx. destruct x as [[self1 particles1] r1].
  bind_inv H as particles2 H2. injection H as <- <- _.
  apply (int_range_inv
           (fun st : Run => epsilon_tau_ st.1.1 = epsilon_tau_ self /\
                            tau_kept (epsilon_tau_ self) (tau particles) (tau st.1.2)))
    in Hx.
  - cbn in Hx. destruct Hx as [E1 K1]. split; [exact E1|].
    apply (int_range_inv (fun p => tau p = tau particles1)) in H2.
    + rewrite H2. exact K1.
    + intros j x y Hx Hy. apply chi_step_tau in Hy. congruence.
    + reflexivity.
  - intros j [[s p] r] [[s' p'] r'] [Es Ks] Hy. cbn in *.
    apply particle_step_tau in Hy as [E' K']. split; [congruence|].
    eapply tau_kept_trans; [exact Ks|]. rewrite <- Es. exact K'.
  - cbn. split; [reflexivity|apply tau_kept_refl].
Qed.

(** The amended C6 - The call keeps the invariant of the optical depth, it
    does not establish it: when the call returns, every particle whose
    optical depth at entry was at most 0 or above [epsilon_tau_] has at
    exit an optical depth that is at most 0 or above [epsilon_tau_]. *)
Theorem tau_invariant_preserved (uniform : nat -> R)
    (computeParticleChi : R -> R * R * R -> R -> R * R * R -> R * R * R -> R)
    (tables : RadiationTables) (fuel fuel_tau : nat) (self : Radiation)
    (particles : Particles) (photon_species : bool) (Epart Bpart : list R)
    (radiated_energy : R) (istart iend ipart_ref : Z)
    (self' : Radiation) (particles' : Particles) (e : R) (i : nat) (t : R) :
  RadiationMonteCarlo.call uniform computeParticleChi tables fuel fuel_tau self particles
    photon_species Epart Bpart radiated_energy istart iend ipart_ref
  = Ok (self', particles', e) ->
  load (tau particles) i = Ok t ->
  t <= 0 \/ epsilon_tau_ self < t ->
  exists t', load (tau particles') i = Ok t' /\ (t' <= 0 \/ epsilon_tau_ self' < t').
Proof.
  intros H Ht Hin. apply call_tau in H as [He [Hlen Hk]].
  apply load_Ok in Ht.
  destruct (lookup_lt_is_Some_2 (tau particles') i) as [t' Ht'].
  { rewrite Hlen. eapply lookup_lt_Some. exact Ht. }
  exists t'. split; [apply load_Ok; exact Ht'|]. rewrite He.
  destruct (Hk i t' Ht') as [Hsame|[->|Hgt]].
  - rewrite Ht in Hsame. injection Hsame as <-. exact Hin.
  - left. lra.
  - right. exact Hgt.
Qed.

(** ** Two runs of the radiation on one electron *)

Lemma Rltb_true (a b : R) : a < b -> Rltb a b = true.
Proof. intros H. unfold Rltb. destruct (Rlt_dec a b); [reflexivity|contradiction]. Qed.

Lemma Rleb_true (a b : R) : a <= b -> Rleb a b = true.
Proof. intros H. unfold Rleb. destruct (Rle_dec a b); [reflexivity|contradiction]. Qed.

Lemma Rleb_false (a b : R) : b < a -> Rleb a b = false.
Proof. intros H. unfold Rleb. destruct (Rle_dec a b); [lra|reflexivity]. Qed.

Lemma Reqb_false (a b : R) : a <> b -> Reqb a b = false.
Proof. intros H. unfold Reqb. destruct (Req_dec_T a b); [contradiction|reflexivity]. Qed.

Lemma gamma_at_rest : sqrt (1 + 0 * 0 + 0 * 0 + 0 * 0) = 1.
Proof. replace (1 + 0 * 0 + 0 * 0 + 0 * 0) with 1 by lra. apply sqrt_1. Qed.

Lemma gamma_electron : sqrt (1 + 4/3 * (4/3) + 0 * 0 + 0 * 0) = 5/3.
Proof.
  replace (1 + 4/3 * (4/3) + 0 * 0 + 0 * 0) with (5/3 * (5/3)) by lra.
  apply sqrt_square. lra.
Qed.

(** The electron at rest has a Lorentz factor of 1: the Monte-Carlo loop
    breaks at once and the optical depth stays what it was. *)
Lemma call_at_rest (t : R) :
  RadiationMonteCarlo.call uniform0 (chi_const 0) (tables0 (1/2)) 1 0 radiation0
    (electron_at_rest t) true no_field no_field 0 0 1 0
  = Ok (radiation0, electron_at_rest t, 0 + 0).
Proof.
  unfold RadiationMonteCarlo.call, int_range, for_range. simpl.
  rewrite (Rltb_true 0 2) by lra. simpl.
  rewrite gamma_at_rest. unfold Reqb. destruct (Req_dec_T 1 1) as [_|]; [|lra]. simpl.
  rewrite gamma_at_rest. reflexivity.
Qed.

Lemma depth_drawn : - ln (1 - uniform0 0) = 1.
Proof.
  unfold uniform0. replace (1 - (1 - exp (-1))) with (exp (-1)) by lra.
  rewrite ln_exp. lra.
Qed.

(** One draw gives the electron the optical depth 1. *)
Lemma new_optical_depth_electron :
  new_optical_depth uniform0 1 0 (radiation0, electron (-1))
  = Ok (set_rand radiation0 1, electron 1).
Proof.
  simpl. unfold Rleb. destruct (Rle_dec (-1) (1/2)) as [_|]; [|lra].
  unfold fln. destruct (Rle_dec (1 - uniform0 0) 0) as [H|_].
  { unfold uniform0 in H. pose proof (exp_pos (-1)). lra. }
  simpl. rewrite depth_drawn. destruct (Rle_dec 1 (1/2)); [lra|]. reflexivity.
Qed.

(** The turn of the Monte-Carlo loop on the electron of optical depth -1
    and quantum parameter 1: a new optical depth of 1 is drawn, it is
    reached after a time 1, the photons are emitted and the optical depth
    is -1 again. *)
Lemma monte_carlo_step_electron :
  monte_carlo_step uniform0 (chi_const 1) (tables0 (1/2)) 1 true no_field no_field 0 0
                   (IZR (-1) * 1 ^ 2) (radiation0, electron (-1), 0, mkLocal 0 0 0)
  = Ok (Continue,
        (set_new_photons (set_rand radiation0 2) (two_photons (1/3) (1/2)),
         electron_after (1/4) (-1), 0 + 0, mkLocal 1 (0 + 1) (0 + 1))).
Proof.
  unfold monte_carlo_step, chi_const.
  change (momentum_at (electron (-1)) 0) with (Ok (4/3, 0, 0) : outcome (R * R * R)).
  cbn [mbind outcome_bind]. rewrite gamma_electron.
  rewrite (Reqb_false (5/3) 1) by lra.
  change (field_at no_field (Z.of_nat 0 - 0)) with (Ok (0, 0, 0) : outcome (R * R * R)).
  cbn [mbind outcome_bind].
  change (load (tau (electron (-1))) 0) with (Ok (-1) : outcome R).
  cbn [mbind outcome_bind getMinimumChiDiscontinuous tables0].
  change (epsilon_tau_ radiation0) with (1/2).
  rewrite (Rltb_true (1/2) 1), (Rleb_true (-1) (1/2)) by lra.
  cbn [andb]. rewrite new_optical_depth_electron. cbn [mbind outcome_bind].
  change (load (tau (electron 1)) 0) with (Ok 1 : outcome R).
  cbn [mbind outcome_bind].
  change (epsilon_tau_ (set_rand radiation0 1)) with (1/2).
  rewrite (Rltb_true (1/2) 1) by lra.
  cbn [computePhotonProductionYield tables0].
  rewrite (min_of_quotient_val 1 1) by lra. cbn [mbind outcome_bind].
  change (dt_ (set_rand radiation0 1)) with 2. cbn [local_it_time].
  replace (Rmin (1 / 1) (2 - 0)) with 1
    by (unfold Rmin; destruct (Rle_dec (1 / 1) (2 - 0)); lra).
  replace (1 - 1 * 1) with 0 by lra.
  change (store (tau (electron 1)) 0 0) with (Ok [0] : outcome (list R)).
  cbn [mbind outcome_bind].
  rewrite (Rleb_true 0 (1/2)) by lra.
  change (set_tau (electron 1) [0]) with (electron 0).
  change (set_rand (set_rand radiation0 1) (S (rand_ (set_rand radiation0 1))))
    with (set_rand radiation0 2).
  rewrite emission_after_draws. reflexivity.
Qed.

(** The whole call on that electron, with one iteration allowed: it
    returns, with two draws of the generator, two photons, the electron
    recoiled and its quantum parameter updated. *)
Lemma call_electron :
  RadiationMonteCarlo.call uniform0 (chi_const 1) (tables0 (1/2)) 1 1 radiation0
    (electron (-1)) true no_field no_field 0 0 1 0
  = Ok (set_new_photons (set_rand radiation0 2) (two_photons (1/3) (1/2)),
        set_chi (electron_after (1/4) (-1)) [1], 0 + (0 + 0)).
Proof.
  unfold RadiationMonteCarlo.call, int_range, for_range.
  change (1 <=? 0)%Z with false. change (0 <? 0)%Z with false.
  cbv beta iota. change (Z.to_nat 1 - Z.to_nat 0)%nat with 1%nat.
  change (Z.to_nat 0) with 0%nat.
  assert (Hp : particle_step uniform0 (chi_const 1) (tables0 (1/2)) 1 1 true
                 no_field no_field 0 0 (radiation0, electron (-1), 0)
               = Ok (set_new_photons (set_rand radiation0 2) (two_photons (1/3) (1/2)),
                     electron_after (1/4) (-1), 0 + 0)).
  { unfold particle_step.
    change (load (charge (electron (-1))) 0) with (Ok (-1)%Z : outcome Z).
    cbn [mbind outcome_bind]. change (one_over_mass_ radiation0) with 1.
    cbn [monte_carlo_loop local_it_time mc_it_nb].
    change (dt_ radiation0) with 2. change (max_monte_carlo_iterations_ radiation0) with 1%Z.
    rewrite (Rltb_true 0 2) by lra. change (0 <? 1)%Z with true. cbn [andb].
    rewrite (bind_Ok_l _ _ _ monte_carlo_step_electron).
    cbn [mbind outcome_bind local_it_time mc_it_nb].
    change (0 + 1 <? max_monte_carlo_iterations_ _)%Z with false.
    rewrite andb_false_r. reflexivity. }
  rewrite (for_loop_step 0 0 _ _ _ Hp). cbn [mbind outcome_bind for_loop].
  unfold chi_step, chi_const.
  change (load (charge (electron_after (1/4) (-1))) 0) with (Ok (-1)%Z : outcome Z).
  change (momentum_at (electron_after (1/4) (-1)) 0)
    with (Ok (4/3 - 4/3 * (1/4), 0 - 0 * (1/4), 0 - 0 * (1/4)) : outcome (R * R * R)).
  change (field_at no_field (Z.of_nat 0 - 0)) with (Ok (0, 0, 0) : outcome (R * R * R)).
  reflexivity.
Qed.

(** The same call with tables whose yield is zero, on the electron with the
    optical depth 1 pending: the quotient of the optical depth by the yield
    is +infinity, the time of the turn is the whole time step, the optical
    depth stays 1 and nothing is drawn or emitted. *)
Lemma monte_carlo_step_zero_yield :
  monte_carlo_step uniform0 (chi_const 1) tables_zero_yield 1 true no_field no_field 0 0
                   (IZR (-1) * 1 ^ 2) (radiation0, electron 1, 0, mkLocal 0 0 0)
  = Ok (Continue, (radiation0, electron 1, 0, mkLocal (2 - 0) (0 + (2 - 0)) (0 + 1))).
Proof.
  unfold monte_carlo_step, chi_const.
  change (momentum_at (electron 1) 0) with (Ok (4/3, 0, 0) : outcome (R * R * R)).
  cbn [mbind outcome_bind]. rewrite gamma_electron.
  rewrite (Reqb_false (5/3) 1) by lra.
  change (field_at no_field (Z.of_nat 0 - 0)) with (Ok (0, 0, 0) : outcome (R * R * R)).
  cbn [mbind outcome_bind].
  change (load (tau (electron 1)) 0) with (Ok 1 : outcome R).
  cbn [mbind outcome_bind getMinimumChiDiscontinuous tables_zero_yield].
  change (epsilon_tau_ radiation0) with (1/2).
  rewrite (Rltb_true (1/2) 1), (Rleb_false 1 (1/2)) by lra.
  cbn [andb mbind outcome_bind].
  change (load (tau (electron 1)) 0) with (Ok 1 : outcome R).
  cbn [mbind outcome_bind].
  change (epsilon_tau_ radiation0) with (1/2).
  rewrite (Rltb_true (1/2) 1) by lra.
  cbn [computePhotonProductionYield tables_zero_yield].
  rewrite (min_of_quotient_zero 1) by lra. cbn [mbind outcome_bind].
  change (dt_ radiation0) with 2. cbn [local_it_time].
  replace (1 - 0 * (2 - 0)) with 1 by lra.
  change (store (tau (electron 1)) 0 1) with (Ok [1] : outcome (list R)).
  cbn [mbind outcome_bind].
  rewrite (Rleb_false 1 (1/2)) by lra.
  reflexivity.
Qed.

Lemma call_zero_yield :
  RadiationMonteCarlo.call uniform0 (chi_const 1) tables_zero_yield 1 1 radiation0
    (electron 1) true no_field no_field 0 0 1 0
  = Ok (radiation0, set_chi (electron 1) [1], 0 + 0).
Proof.
  unfold RadiationMonteCarlo.call, int_range, for_range.
  change (1 <=? 0)%Z with false. change (0 <? 0)%Z with false.
  cbv beta iota. change (Z.to_nat 1 - Z.to_nat 0)%nat with 1%nat.
  change (Z.to_nat 0) with 0%nat.
  assert (Hp : particle_step uniform0 (chi_const 1) tables_zero_yield 1 1 true
                 no_field no_field 0 0 (radiation0, electron 1, 0)
               = Ok (radiation0, electron 1, 0)).
  { unfold particle_step.
    change (load (charge (electron 1)) 0) with (Ok (-1)%Z : outcome Z).
    cbn [mbind outcome_bind]. change (one_over_mass_ radiation0) with 1.
    cbn [monte_carlo_loop local_it_time mc_it_nb].
    change (dt_ radiation0) with 2. change (max_monte_carlo_iterations_ radiation0) with 1%Z.
    rewrite (Rltb_true 0 2) by lra. change (0 <? 1)%Z with true. cbn [andb].
    rewrite (bind_Ok_l _ _ _ monte_carlo_step_zero_yield).
    cbn [mbind outcome_bind local_it_time mc_it_nb].
    change (0 + 1 <? max_monte_carlo_iterations_ _)%Z with false.
    rewrite andb_false_r. reflexivity. }
  rewrite (for_loop_step 0 0 _ _ _ Hp). cbn [mbind outcome_bind for_loop].
  unfold chi_step, chi_const.
  change (load (charge (electron 1)) 0) with (Ok (-1)%Z : outcome Z).
  change (momentum_at (electron 1) 0) with (Ok (4/3, 0, 0) : outcome (R * R * R)).
  change (field_at no_field (Z.of_nat 0 - 0)) with (Ok (0, 0, 0) : outcome (R * R * R)).
  reflexivity.
Qed.

(** C6 as stated is false: the electron at rest enters with the optical
    depth 1/4, [epsilon_tau_] is 1/2, and the call returns with the optical
    depth still 1/4, inside (0, epsilon_tau_]. *)
Lemma tau_left_below_epsilon :
  ~ (forall (uniform : nat -> R)
            (computeParticleChi : R -> R * R * R -> R -> R * R * R -> R * R * R -> R)
            (tables : RadiationTables) (fuel fuel_tau : nat) (self : Radiation)
            (particles : Particles) (photon_species : bool) (Epart Bpart : list R)
            (radiated_energy : R) (istart iend ipart_ref : Z)
            (self' : Radiation) (particles' : Particles) (e : R) (i : nat) (t' : R),
       RadiationMonteCarlo.call uniform computeParticleChi tables fuel fuel_tau self
         particles photon_species Epart Bpart radiated_energy istart iend ipart_ref
       = Ok (self', particles', e) ->
       (istart <= Z.of_nat i < iend)%Z ->
       load (tau particles') i = Ok t' ->
       t' <= 0 \/ epsilon_tau_ self' < t').
Proof.
  intros H.
  specialize (H uniform0 (chi_const 0) (tables0 (1/2)) 1%nat 0%nat radiation0
                (electron_at_rest (1/4)) true no_field no_field 0 0%Z 1%Z 0%Z
                _ _ _ 0%nat (1/4) (call_at_rest (1/4))).
  assert (Hi : (0 <= Z.of_nat 0 < 1)%Z) by lia.
  specialize (H Hi eq_refl). cbn in H. lra.
Qed.

(** The hypotheses of the theorem on the optical depth at exit and its
    conclusion, on the run with a yield of zero: the electron enters with
    the optical depth 1 pending and leaves with it. *)
Lemma tau_invariant_preserved_witness :
  (RadiationMonteCarlo.call uniform0 (chi_const 1) tables_zero_yield 1 1 radiation0
     (electron 1) true no_field no_field 0 0 1 0
   = Ok (radiation0, set_chi (electron 1) [1], 0 + 0) /\
   load (tau (electron 1)) 0 = Ok 1 /\
   (1 <= 0 \/ epsilon_tau_ radiation0 < 1)) /\
  exists t',
    load (tau (set_chi (electron 1) [1])) 0 = Ok t' /\
    (t' <= 0 \/ epsilon_tau_ radiation0 < t').
Proof.
  assert (H1 : load (tau (electron 1)) 0 = Ok 1) by reflexivity.
  assert (H2 : 1 <= 0 \/ epsilon_tau_ radiation0 < 1) by (right; cbn; lra).
  split; [split; [exact call_zero_yield|split; [exact H1|exact H2]]|].
  exact (tau_invariant_preserved uniform0 (chi_const 1) tables_zero_yield 1 1 radiation0
           (electron 1) true no_field no_field 0 0 1 0 _ _ _ 0%nat 1
           call_zero_yield H1 H2).
Defined.

(** ** The counting sort *)

(** Loops *)

Lemma for_loop_ind {S : Type} (P : nat -> S -> Prop) (n i : nat)
    (body : nat -> S -> outcome S) (s s' : S) :
  (forall j x y, (i <= j < i + n)%nat -> P j x -> body j x = Ok y -> P (Datatypes.S j) y) ->
  P i s -> for_loop n i body s = Ok s' -> P (i + n)%nat s'.
Proof.
  revert i s. induction n as [|n IH]; intros i s Hbody Hs H; cbn in H.
  - injection H as <-. replace (i + 0)%nat with i by lia. exact Hs.
  - bind_inv H as s1 H1. replace (i + Datatypes.S n)%nat with (Datatypes.S i + n)%nat by lia.
    apply (IH (Datatypes.S i) s1); [|eapply Hbody; [|exact Hs|exact H1]; lia|exact H].
    intros j x y Hj. apply Hbody. lia.
Qed.

Lemma for_loop_total {S : Type} (P : nat -> S -> Prop) (n i : nat)
    (body : nat -> S -> outcome S) (s : S) :
  (forall j x, (i <= j < i + n)%nat -> P j x ->
     exists y, body j x = Ok y /\ P (Datatypes.S j) y) ->
  P i s -> exists s', for_loop n i body s = Ok s' /\ P (i + n)%nat s'.
Proof.
  revert i s. induction n as [|n IH]; intros i s Hbody Hs; cbn.
  - exists s. replace (i + 0)%nat with i by lia. auto.
  - destruct (Hbody i s) as (s1 & H1 & P1); [lia|exact Hs|]. rewrite H1. cbn.
    replace (i + Datatypes.S n)%nat with (Datatypes.S i + n)%nat by lia.
    apply IH; [|exact P1]. intros j x Hj. apply Hbody. lia.
Qed.

(** Counting *)

Lemma occurrences_app (c : Z) (l k : list Z) :
  occurrences c (l ++ k) = (occurrences c l + occurrences c k)%nat.
Proof. induction l as [|x l IH]; cbn; [reflexivity|]. rewrite IH. lia. Qed.

Lemma below_app (c : Z) (l k : list Z) :
  below c (l ++ k) = (below c l + below c k)%nat.
Proof. induction l as [|x l IH]; cbn; [reflexivity|]. rewrite IH. lia. Qed.

Lemma occurrences_take_S (c : Z) (l : list Z) (k : nat) (x : Z) :
  l !! k = Some x ->
  occurrences c (take (Datatypes.S k) l)
  = (occurrences c (take k l) + (if (x =? c)%Z then 1 else 0))%nat.
Proof.
  intros H. rewrite (take_S_r _ _ _ H), occurrences_app. cbn. lia.
Qed.

Lemma occurrences_take_le (c : Z) (l : list Z) (k k' : nat) :
  (k <= k')%nat -> (occurrences c (take k l) <= occurrences c (take k' l))%nat.
Proof.
  revert k k'. induction l as [|x l IH]; intros k k' H.
  - rewrite !take_nil. lia.
  - destruct k as [|k]; [cbn; lia|]. destruct k' as [|k']; [lia|].
    cbn. specialize (IH k k'). lia.
Qed.

Lemma occurrences_take_all (c : Z) (l : list Z) (k : nat) :
  (occurrences c (take k l) <= occurrences c l)%nat.
Proof.
  rewrite <- (take_ge l (Nat.max k (length l))) at 2 by lia.
  apply occurrences_take_le. lia.
Qed.

(** An entry equal to [c] at [k] is one more occurrence than those before
    [k]. *)
Lemma occurrences_take_lt (c : Z) (l : list Z) (k : nat) :
  l !! k = Some c -> (occurrences c (take k l) < occurrences c l)%nat.
Proof.
  intros H. pose proof (occurrences_take_all c l (Datatypes.S k)) as Hle.
  rewrite (occurrences_take_S _ _ _ _ H), Z.eqb_refl in Hle. lia.
Qed.

Lemma occurrences_take_lt_lt (c : Z) (l : list Z) (k k' : nat) :
  l !! k = Some c -> (k < k')%nat ->
  (occurrences c (take k l) < occurrences c (take k' l))%nat.
Proof.
  intros H Hk. pose proof (occurrences_take_le c l (Datatypes.S k) k' Hk) as Hle.
  rewrite (occurrences_take_S _ _ _ _ H), Z.eqb_refl in Hle. lia.
Qed.

Lemma below_succ (c : Z) (l : list Z) :
  below (c + 1) l = (below c l + occurrences c l)%nat.
Proof.
  induction l as [|x l IH]; cbn; [reflexivity|]. rewrite IH.
  destruct (Z.ltb_spec x (c + 1)), (Z.ltb_spec x c), (Z.eqb_spec x c); lia.
Qed.

Lemma below_le (c c' : Z) (l : list Z) :
  (c <= c')%Z -> (below c l <= below c' l)%nat.
Proof.
  intros H. induction l as [|x l IH]; cbn; [lia|].
  destruct (Z.ltb_spec x c), (Z.ltb_spec x c'); lia.
Qed.

Lemma below_length (c : Z) (l : list Z) : (below c l <= length l)%nat.
Proof. induction l as [|x l IH]; cbn; [lia|]. destruct (x <? c)%Z; lia. Qed.

Lemma below_none (c : Z) (l : list Z) :
  Forall (fun x => (c <= x)%Z) l -> below c l = 0%nat.
Proof.
  induction 1 as [|x l Hx _ IH]; cbn; [reflexivity|].
  destruct (Z.ltb_spec x c); lia.
Qed.

Lemma slot_lt (l : list Z) (k : nat) (c : Z) :
  l !! k = Some c -> (slot l k c < length l)%nat.
Proof.
  intros H. unfold slot. pose proof (occurrences_take_lt c l k H).
  pose proof (below_succ c l). pose proof (below_length (c + 1) l). lia.
Qed.

Lemma slot_inj (l : list Z) (k k' : nat) (c c' : Z) :
  l !! k = Some c -> l !! k' = Some c' -> k <> k' -> slot l k c <> slot l k' c'.
Proof.
  intros H H' Hne. unfold slot.
  destruct (Z.lt_trichotomy c c') as [Hc|[->|Hc]].
  - pose proof (occurrences_take_lt c l k H).
    pose proof (below_succ c l). pose proof (below_le (c + 1) c' l). lia.
  - destruct (Nat.lt_gt_cases k k') as [[Hk|Hk] _]; [exact Hne| |].
    + pose proof (occurrences_take_lt_lt c' l k k' H Hk). lia.
    + pose proof (occurrences_take_lt_lt c' l k' k H' Hk). lia.
  - pose proof (occurrences_take_lt c' l k' H').
    pose proof (below_succ c' l). pose proof (below_le (c' + 1) c l). lia.
Qed.

(** The [j]-th occurrence of [c] exists when [c] occurs more than [j]
    times. *)
Lemma occurrences_nth (c : Z) (l : list Z) (j : nat) :
  (j < occurrences c l)%nat ->
  exists k, l !! k = Some c /\ occurrences c (take k l) = j.
Proof.
  induction l as [|x l IH] using rev_ind; [cbn; lia|].
  rewrite occurrences_app. cbn. intros Hj.
  destruct (Nat.lt_ge_cases j (occurrences c l)) as [Hlt|Hge].
  - destruct (IH Hlt) as (k & Hk & Hocc). exists k.
    pose proof (lookup_lt_Some _ _ _ Hk).
    split; [rewrite lookup_app_l by lia; exact Hk|].
    rewrite take_app_le by lia. exact Hocc.
  - destruct (Z.eqb_spec x c) as [->|]; [|lia].
    exists (length l). split.
    + rewrite lookup_app_r by lia. rewrite Nat.sub_diag. reflexivity.
    + rewrite take_app_length. lia.
Qed.

Lemma wrap_small (z : Z) : (0 <= z < uint_max)%Z -> wrap z = z.
Proof. intros H. unfold wrap. apply Z.mod_small. exact H. Qed.

Lemma occurrences_length (c : Z) (l : list Z) : (occurrences c l <= length l)%nat.
Proof. induction l as [|x l IH]; cbn; [lia|]. destruct (x =? c)%Z; lia. Qed.

Lemma load_lookup {A : Type} (a : list A) (i : nat) (v : A) :
  a !! i = Some v -> load a i = Ok v.
Proof. intros H. apply load_Ok. exact H. Qed.

Lemma store_insert {A : Type} (a : list A) (i : nat) (v : A) :
  (i < length a)%nat -> store a i v = Ok (<[i:=v]> a).
Proof. intros H. apply store_Ok. auto. Qed.

Lemma counted_step (mci : list Z) (cells k : nat) (counts : list Z) (ic : Z) :
  (Z.of_nat (length mci) < uint_max)%Z ->
  mci !! k = Some ic -> (0 <= ic < Z.of_nat cells)%Z ->
  counted mci cells k counts ->
  exists c,
    counts !! Z.to_nat ic = Some c /\
    c = Z.of_nat (occurrences ic (take k mci)) /\
    wrap (c + 1) = (c + 1)%Z /\
    counted mci cells (Datatypes.S k) (<[Z.to_nat ic := (c + 1)%Z]> counts).
Proof.
  intros Hn Hk Hic [Hlen Hc].
  assert (Hlt : (Z.to_nat ic < cells)%nat) by lia.
  pose proof (Hc (Z.to_nat ic) Hlt) as Hcur. rewrite Z2Nat.id in Hcur by lia.
  eexists. split; [exact Hcur|]. split; [reflexivity|].
  pose proof (occurrences_length ic (take k mci)) as Ho.
  pose proof (length_take mci k) as Ht. pose proof (lookup_lt_Some _ _ _ Hk) as Hkn.
  split; [apply wrap_small; lia|].
  split; [rewrite length_insert; exact Hlen|].
  intros c Hcc. rewrite (occurrences_take_S _ _ _ _ Hk).
  destruct (decide (c = Z.to_nat ic)) as [->|Hne].
  - rewrite list_lookup_insert_eq by lia. rewrite Z2Nat.id by lia.
    rewrite Z.eqb_refl. f_equal. lia.
  - rewrite list_lookup_insert_ne by auto. rewrite (Hc c Hcc).
    destruct (Z.eqb_spec ic (Z.of_nat c)); [lia|]. f_equal. lia.
Qed.

(** First pass of the counting sort: the number of particles per momentum
    cell. *)
Lemma count_pass (mci : list Z) (cells : nat) :
  (Z.of_nat (length mci) < uint_max)%Z ->
  Forall (fun x => (0 <= x < Z.of_nat cells)%Z) mci ->
  exists counts,
    for_range 0 (length mci) (count_step mci) (replicate cells 0%Z) = Ok counts /\
    counted mci cells (length mci) counts.
Proof.
  intros Hn Hall. unfold for_range. rewrite Nat.sub_0_r.
  apply (for_loop_total (counted mci cells) (length mci) 0).
  - intros k counts Hk Hcounts.
    destruct (lookup_lt_is_Some_2 mci k) as [ic Hic]; [lia|].
    pose proof (proj1 (Forall_lookup _ _) Hall k ic Hic) as Hrange. cbn in Hrange.
    destruct (counted_step _ _ _ _ _ Hn Hic Hrange Hcounts) as (c & Hc & _ & Hw & Hnext).
    exists (<[Z.to_nat ic := (c + 1)%Z]> counts). split; [|exact Hnext].
    unfold count_step. rewrite (load_lookup _ _ _ Hic). cbn.
    rewrite (load_lookup _ _ _ Hc). cbn. rewrite Hw.
    apply store_insert. destruct Hcounts as [-> _]. lia.
  - split; [apply length_replicate|]. intros c Hc. rewrite take_0. cbn.
    apply lookup_replicate_2. exact Hc.
Qed.

Lemma offset_step_upto (mci : list Z) (cells ic : nat) (st : list Z * list Z) :
  (Z.of_nat (length mci) < uint_max)%Z ->
  (1 <= ic < cells)%nat ->
  offsets_upto mci cells ic st ->
  exists st', offset_step ic st = Ok st' /\ offsets_upto mci cells (Datatypes.S ic) st'.
Proof.
  intros Hn Hic. destruct st as [offs cnts]. intros (Lo & Lc & Ho & Hz & Hc).
  cbn [fst snd] in *.
  pose proof (Ho (ic - 1)%nat ltac:(lia)) as Ho1.
  pose proof (Hc (ic - 1)%nat ltac:(lia) ltac:(lia)) as Hc1.
  pose proof (below_succ (Z.of_nat (ic - 1)) mci) as Hb.
  replace (Z.of_nat (ic - 1) + 1)%Z with (Z.of_nat ic) in Hb by lia.
  pose proof (below_length (Z.of_nat ic) mci) as Hbl.
  eexists. split.
  - unfold offset_step. rewrite (load_lookup _ _ _ Ho1). cbn.
    rewrite (load_lookup _ _ _ Hc1). cbn.
    rewrite (store_insert offs ic) by lia. cbn.
    rewrite (store_insert cnts (ic - 1)) by lia. cbn. reflexivity.
  - unfold offsets_upto. cbn [fst snd]. rewrite !length_insert.
    split; [exact Lo|]. split; [exact Lc|].
    rewrite wrap_small by lia. split; [|split].
    + intros c Hlt. destruct (decide (c = ic)) as [->|Hne].
      * rewrite list_lookup_insert_eq by lia. f_equal. lia.
      * rewrite list_lookup_insert_ne by auto. apply Ho. lia.
    + intros c Hlt. destruct (decide (c = (ic - 1)%nat)) as [->|Hne].
      * rewrite list_lookup_insert_eq by lia. reflexivity.
      * rewrite list_lookup_insert_ne by auto. apply Hz. lia.
    + intros c Hle Hlt. rewrite list_lookup_insert_ne by lia. apply Hc; lia.
Qed.

(** Second pass of the counting sort: the first slot of each momentum cell,
    and the counters back to zero. *)
Lemma offset_pass (mci : list Z) (cells : nat) (counts : list Z) :
  (Z.of_nat (length mci) < uint_max)%Z ->
  Forall (fun x => (0 <= x < Z.of_nat cells)%Z) mci ->
  (0 < cells)%nat ->
  counted mci cells (length mci) counts ->
  exists offsets cnts zeros,
    for_range 1 cells offset_step (replicate cells 0%Z, counts) = Ok (offsets, cnts) /\
    store cnts (cells - 1) 0%Z = Ok zeros /\
    length offsets = cells /\
    (forall c, (c < cells)%nat ->
       offsets !! c = Some (Z.of_nat (below (Z.of_nat c) mci))) /\
    counted mci cells 0 zeros.
Proof.
  intros Hn Hall Hcells [Lc Hc].
  destruct (for_loop_total (offsets_upto mci cells) (cells - 1) 1 offset_step
              (replicate cells 0%Z, counts)) as ([offs cnts] & Hloop & Hend).
  - intros ic st Hic. apply offset_step_upto; [exact Hn|lia].
  - unfold offsets_upto. cbn [fst snd].
    split; [apply length_replicate|]. split; [exact Lc|]. split; [|split].
    + intros c Hlt. rewrite lookup_replicate_2 by lia. f_equal.
      rewrite below_none; [reflexivity|].
      eapply Forall_impl; [exact Hall|]. cbn. intros x Hx. lia.
    + intros c Hlt. lia.
    + intros c _ Hlt. rewrite (Hc c Hlt), take_ge by lia. reflexivity.
  - replace (1 + (cells - 1))%nat with cells in Hend by lia.
    destruct Hend as (Lo & Lc' & Ho & Hz & Hlast). cbn [fst snd] in *.
    exists offs, cnts, (<[(cells - 1)%nat := 0%Z]> cnts).
    split; [exact Hloop|]. split; [apply store_insert; lia|].
    split; [exact Lo|]. split; [exact Ho|].
    split; [rewrite length_insert; exact Lc'|].
    intros c Hlt. rewrite take_0. cbn.
    destruct (decide (c = (cells - 1)%nat)) as [->|Hne].
    + apply list_lookup_insert_eq. lia.
    + rewrite list_lookup_insert_ne by auto. apply Hz. lia.
Qed.

Lemma sort_step_placed (mci offsets : list Z) (istart cells k : nat)
    (st : list Z * list Z) :
  (Z.of_nat istart + Z.of_nat (length mci) < uint_max)%Z ->
  Forall (fun x => (0 <= x < Z.of_nat cells)%Z) mci ->
  (forall c, (c < cells)%nat ->
     offsets !! c = Some (Z.of_nat (below (Z.of_nat c) mci))) ->
  (k < length mci)%nat ->
  placed mci istart cells k st ->
  exists st', sort_step istart mci offsets k st = Ok st' /\
              placed mci istart cells (Datatypes.S k) st'.
Proof.
  intros Hn Hall Hoff Hk. destruct st as [sorted cnts]. intros (Ls & Hcnt & Hpl).
  cbn [fst snd] in *.
  destruct (lookup_lt_is_Some_2 mci k Hk) as [ic Hic].
  pose proof (proj1 (Forall_lookup _ _) Hall k ic Hic) as Hrange. cbn in Hrange.
  assert (Hn' : (Z.of_nat (length mci) < uint_max)%Z) by lia.
  destruct (counted_step _ _ _ _ _ Hn' Hic Hrange Hcnt) as (c & Hc & Ec & Hw & Hnext).
  pose proof (Hoff (Z.to_nat ic) ltac:(lia)) as Ho. rewrite Z2Nat.id in Ho by lia.
  pose proof (slot_lt _ _ _ Hic) as Hslot.
  assert (Eslot : Z.to_nat (wrap (Z.of_nat (below ic mci) + c)) = slot mci k ic).
  { subst c. unfold slot in *. rewrite wrap_small by lia. lia. }
  eexists. split.
  - unfold sort_step. rewrite (load_lookup _ _ _ Hic). cbn.
    rewrite (load_lookup _ _ _ Ho). cbn. rewrite (load_lookup _ _ _ Hc). cbn.
    rewrite Eslot. rewrite (store_insert sorted) by lia. cbn. rewrite Hw.
    rewrite (store_insert cnts) by (destruct Hcnt as [-> _]; lia). cbn. reflexivity.
  - unfold placed. cbn [fst snd].
    split; [rewrite length_insert; exact Ls|]. split; [exact Hnext|].
    intros ip c' Hip Hc'. destruct (decide (ip = k)) as [->|Hne].
    + rewrite Hic in Hc'. injection Hc' as <-.
      rewrite list_lookup_insert_eq by lia. f_equal. rewrite wrap_small by lia. lia.
    + rewrite list_lookup_insert_ne by (apply slot_inj; auto).
      apply Hpl; [lia|exact Hc'].
Qed.

(** Third pass of the counting sort: every particle in its slot. *)
Lemma sort_pass (mci offsets zeros : list Z) (istart cells : nat) :
  (Z.of_nat istart + Z.of_nat (length mci) < uint_max)%Z ->
  Forall (fun x => (0 <= x < Z.of_nat cells)%Z) mci ->
  (forall c, (c < cells)%nat ->
     offsets !! c = Some (Z.of_nat (below (Z.of_nat c) mci))) ->
  counted mci cells 0 zeros ->
  exists st,
    for_range 0 (length mci) (sort_step istart mci offsets)
              (replicate (length mci) 0%Z, zeros) = Ok st /\
    placed mci istart cells (length mci) st.
Proof.
  intros Hn Hall Hoff Hz. unfold for_range. rewrite Nat.sub_0_r.
  apply (for_loop_total (placed mci istart cells) (length mci) 0).
  - intros k st Hk. apply sort_step_placed; [exact Hn|exact Hall|exact Hoff|lia].
  - unfold placed. cbn [fst snd]. split; [apply length_replicate|].
    split; [exact Hz|]. intros ip c Hip. lia.
Qed.

(** The three passes together. *)
Lemma counting_sort_placed (istart : nat) (momentum_cells : Z) (mci : list Z) :
  (Z.of_nat istart + Z.of_nat (length mci) < uint_max)%Z ->
  Forall (fun x => (0 <= x < momentum_cells)%Z) mci ->
  (0 < momentum_cells)%Z ->
  exists sorted offsets counts,
    counting_sort istart (length mci) momentum_cells mci = Ok (sorted, offsets, counts) /\
    placed mci istart (Z.to_nat momentum_cells) (length mci) (sorted, counts) /\
    forall c, (c < Z.to_nat momentum_cells)%nat ->
      offsets !! c = Some (Z.of_nat (below (Z.of_nat c) mci)).
Proof.
  intros Hn Hall Hcells.
  set (cells := Z.to_nat momentum_cells).
  assert (Hall' : Forall (fun x => (0 <= x < Z.of_nat cells)%Z) mci).
  { eapply Forall_impl; [exact Hall|]. cbn. intros x Hx. lia. }
  assert (Hn' : (Z.of_nat (length mci) < uint_max)%Z) by lia.
  destruct (count_pass mci cells Hn' Hall') as (counts & H1 & Hcounts).
  destruct (offset_pass mci cells counts Hn' Hall' ltac:(lia) Hcounts)
    as (offsets & cnts & zeros & H2 & H2' & Lo & Hoff & Hzeros).
  destruct (sort_pass mci offsets zeros istart cells Hn Hall' Hoff Hzeros)
    as ([sorted final] & H3 & Hpl).
  exists sorted, offsets, final. split; [|split; [exact Hpl|exact Hoff]].
  unfold counting_sort. fold cells. rewrite H1. cbn. rewrite H2. cbn.
  rewrite H2'. cbn. rewrite H3. reflexivity.
Qed.

(** When every particle is placed, [sorted_particles] is a permutation of
    the particles of the range. *)
Lemma placed_permutation (mci : list Z) (istart cells : nat) (st : list Z * list Z) :
  placed mci istart cells (length mci) st ->
  st.1 ≡ₚ (Z.of_nat <$> seq istart (length mci)).
Proof.
  intros (Ls & _ & Hpl). symmetry. apply submseteq_length_Permutation.
  - apply NoDup_submseteq.
    + apply (NoDup_fmap_2 Z.of_nat), NoDup_seq.
    + intros x (k & -> & Hk%elem_of_seq)%list_elem_of_fmap.
      destruct (lookup_lt_is_Some_2 mci (k - istart)) as [c Hc]; [lia|].
      eapply list_elem_of_lookup_2.
      rewrite (Hpl (k - istart)%nat c) by (lia || exact Hc). f_equal. lia.
  - rewrite length_fmap, length_seq. lia.
Qed.

(** X1 - The counting sort of [operator()], when every cell index is below the
    number of cells: it returns; [sorted_particles] is a permutation of the
    particles of the range; the particles of a momentum cell [c] are the
    [occurrences c] entries from [momentum_cell_particle_index[c]] on, in
    the order of the range. *)
Theorem counting_sort_sorts (istart : nat) (momentum_cells : Z) (mci : list Z) :
  (Z.of_nat istart + Z.of_nat (length mci) < uint_max)%Z ->
  Forall (fun x => (0 <= x < momentum_cells)%Z) mci ->
  (0 < momentum_cells)%Z ->
  exists sorted offsets counts,
    counting_sort istart (length mci) momentum_cells mci = Ok (sorted, offsets, counts) /\
    sorted ≡ₚ (Z.of_nat <$> seq istart (length mci)) /\
    forall c, (0 <= c < momentum_cells)%Z ->
      offsets !! Z.to_nat c = Some (Z.of_nat (below c mci)) /\
      counts !! Z.to_nat c = Some (Z.of_nat (occurrences c mci)) /\
      forall j, (j < occurrences c mci)%nat ->
        exists ip, mci !! ip = Some c /\ occurrences c (take ip mci) = j /\
                   sorted !! (below c mci + j)%nat = Some (Z.of_nat (istart + ip)).
Proof.
  intros Hn Hall Hcells.
  destruct (counting_sort_placed istart momentum_cells mci Hn Hall Hcells)
    as (sorted & offsets & counts & Hs & Hplaced & Hoff).
  exists sorted, offsets, counts. split; [exact Hs|].
  split; [exact (placed_permutation _ _ _ _ Hplaced)|].
  destruct Hplaced as (_ & [_ Hfinal] & Hpl). cbn [fst snd] in *.
  intros c Hc.
  pose proof (Hoff (Z.to_nat c) ltac:(lia)) as Ho.
  pose proof (Hfinal (Z.to_nat c) ltac:(lia)) as Hf.
  rewrite Z2Nat.id in Ho, Hf by lia. rewrite take_ge in Hf by lia.
  split; [exact Ho|]. split; [exact Hf|].
  intros j Hj. destruct (occurrences_nth c mci j Hj) as (ip & Hip & Hocc).
  exists ip. split; [exact Hip|]. split; [exact Hocc|]. rewrite <- Hocc.
  apply (Hpl ip c); [|exact Hip]. eapply lookup_lt_Some. exact Hip.
Qed.

(** The cell indices of the twelve particles, and the theorem on their sort. *)
Lemma counting_sort_sorts_witness :
  ((Z.of_nat 0 + Z.of_nat (length [0; 0; 0; 0; 0; 0; 0; 0; 120; 4; 120; 4]%Z) < uint_max)%Z /\
   Forall (fun x => (0 <= x < 125)%Z) [0; 0; 0; 0; 0; 0; 0; 0; 120; 4; 120; 4]%Z /\
   (0 < 125)%Z) /\
  exists sorted offsets counts,
    counting_sort 0 (length [0; 0; 0; 0; 0; 0; 0; 0; 120; 4; 120; 4]%Z) 125
                  [0; 0; 0; 0; 0; 0; 0; 0; 120; 4; 120; 4]%Z
    = Ok (sorted, offsets, counts) /\
    sorted ≡ₚ (Z.of_nat <$> seq 0 (length [0; 0; 0; 0; 0; 0; 0; 0; 120; 4; 120; 4]%Z)) /\
    forall c, (0 <= c < 125)%Z ->
      offsets !! Z.to_nat c
      = Some (Z.of_nat (below c [0; 0; 0; 0; 0; 0; 0; 0; 120; 4; 120; 4]%Z)) /\
      counts !! Z.to_nat c
      = Some (Z.of_nat (occurrences c [0; 0; 0; 0; 0; 0; 0; 0; 120; 4; 120; 4]%Z)) /\
      forall j, (j < occurrences c [0; 0; 0; 0; 0; 0; 0; 0; 120; 4; 120; 4]%Z)%nat ->
        exists ip, [0; 0; 0; 0; 0; 0; 0; 0; 120; 4; 120; 4]%Z !! ip = Some c /\
                   occurrences c (take ip [0; 0; 0; 0; 0; 0; 0; 0; 120; 4; 120; 4]%Z) = j /\
                   sorted !! (below c [0; 0; 0; 0; 0; 0; 0; 0; 120; 4; 120; 4]%Z + j)%nat
                   = Some (Z.of_nat (0 + ip)).
Proof.
  assert (H1 : (Z.of_nat 0 + Z.of_nat (length [0; 0; 0; 0; 0; 0; 0; 0; 120; 4; 120; 4]%Z)
                < uint_max)%Z) by (vm_compute; reflexivity).
  assert (H2 : Forall (fun x => (0 <= x < 125)%Z)
                      [0; 0; 0; 0; 0; 0; 0; 0; 120; 4; 120; 4]%Z)
    by (repeat (constructor; [lia|]); constructor).
  assert (H3 : (0 < 125)%Z) by lia.
  split; [split; [exact H1|split; [exact H2|exact H3]]|].
  exact (counting_sort_sorts 0 125 [0; 0; 0; 0; 0; 0; 0; 0; 120; 4; 120; 4]%Z H1 H2 H3).
Defined.

(** ** What the merger leaves alone *)

Lemma only_sorted_refl (sorted : list Z) (p : Particles) : only_sorted sorted p p.
Proof. repeat split. Qed.

Lemma only_sorted_trans (sorted : list Z) (p q r : Particles) :
  only_sorted sorted p q -> only_sorted sorted q r -> only_sorted sorted p r.
Proof.
  intros [(A1 & A2 & A3 & A4 & A5 & A6) H] [(B1 & B2 & B3 & B4 & B5 & B6) H'].
  split; [repeat split; congruence|].
  intros i Hi. destruct (H i Hi) as (C1 & C2 & C3 & C4 & C5).
  destruct (H' i Hi) as (D1 & D2 & D3 & D4 & D5).
  repeat split; congruence.
Qed.

Lemma load_elem_of {A : Type} (a : list A) (i : nat) (v : A) :
  load a i = Ok v -> v ∈ a.
Proof. intros H%load_Ok. eapply list_elem_of_lookup_2. exact H. Qed.

Lemma overwrite_only (sorted : list Z) (p p' : Particles) (z : Z) (m : R * R * R) (w : R) :
  z ∈ sorted -> overwrite p (Z.to_nat z) m w = Ok p' -> only_sorted sorted p p'.
Proof.
  intros Hz H. destruct m as [[m0 m1] m2]. unfold overwrite in H.
  bind_inv H as mx Hx. bind_inv H as my Hy. bind_inv H as mz Hmz. bind_inv H as wt Hw.
  injection H as <-. split; [repeat split|].
  intros i Hi. specialize (Hi z Hz). unfold untouched. cbn.
  rewrite (store_other _ _ _ _ _ Hx Hi), (store_other _ _ _ _ _ Hy Hi),
    (store_other _ _ _ _ _ Hmz Hi), (store_other _ _ _ _ _ Hw Hi). repeat split.
Qed.

Lemma tag_step_only (sorted : list Z) (first ipack : Z) (ip : nat) (p p' : Particles) :
  tag_step sorted first ipack ip p = Ok p' -> only_sorted sorted p p'.
Proof.
  unfold tag_step. intros H. bind_inv H as z Hz. bind_inv H as k Hk.
  injection H as <-. split; [repeat split|].
  intros i Hi. specialize (Hi z (load_elem_of _ _ _ Hz)). unfold untouched. cbn.
  rewrite (store_other _ _ _ _ _ Hk Hi). repeat split.
Qed.

Lemma merge_packet_only (sorted : list Z) (first : Z) (d : R * R * R) (ipack : nat)
    (p p' : Particles) :
  merge_packet sorted first d ipack p = Ok p' -> only_sorted sorted p p'.
Proof.
  unfold merge_packet. intros H.
  bind_inv H as t Ht. bind_inv H as mm Hmm. destruct mm as [ma mb].
  bind_inv H as za Hza. bind_inv H as pa Hpa.
  bind_inv H as zb Hzb. bind_inv H as pb Hpb.
  apply (overwrite_only sorted) in Hpa; [|eapply load_elem_of; exact Hza].
  apply (overwrite_only sorted) in Hpb; [|eapply load_elem_of; exact Hzb].
  eapply only_sorted_trans; [exact Hpa|]. eapply only_sorted_trans; [exact Hpb|].
  revert H. apply for_loop_inv; [|apply only_sorted_refl].
  intros j x y Hx Hy. eapply only_sorted_trans; [exact Hx|].
  eapply tag_step_only. exact Hy.
Qed.

Lemma merge_cells_only (s : Sorted) (mac dim0 dim1 dim2 : Z) (p p' : Particles) :
  merge_cells s mac dim0 dim1 dim2 p = Ok p' -> only_sorted (sorted_particles s) p p'.
Proof.
  unfold merge_cells, for_range.
  apply for_loop_inv; [|apply only_sorted_refl]. intros mr_i x y Hx.
  apply for_loop_inv; [|exact Hx]. clear x Hx. intros theta_i x y1 Hx.
  apply for_loop_inv; [|exact Hx]. clear x Hx. intros phi_i x y2 Hx Hy.
  unfold merge_cell in Hy. bind_inv Hy as count Hcount.
  destruct (4 <=? count)%Z; [|injection Hy as <-; exact Hx].
  bind_inv Hy as first Hfirst. bind_inv Hy as dx Hdx. bind_inv Hy as dy Hdy.
  bind_inv Hy as dz Hdz. revert Hy. apply for_loop_inv; [|exact Hx].
  intros ipack x1 y3 Hx1 Hy. eapply only_sorted_trans; [exact Hx1|].
  eapply merge_packet_only. exact Hy.
Qed.

Lemma wrap_range (z : Z) : (0 <= wrap z < uint_max)%Z.
Proof. unfold wrap. apply Z.mod_pos_bound. reflexivity. Qed.

(** The cell indices are [unsigned int]s, one per particle of the range. *)
Lemma cell_index_loop_Ok (particles : Particles) (istart iend : nat) (ex : Extrema)
    (mr_delta theta_delta phi_delta : R) (dim1 dim2 : Z) (th ph : list R)
    (n : nat) (mci : list Z) :
  for_range istart iend
    (cell_index_step particles istart ex mr_delta theta_delta phi_delta dim1 dim2 th ph)
    (replicate n 0%Z) = Ok mci ->
  length mci = n /\ Forall (fun x => (0 <= x < uint_max)%Z) mci.
Proof.
  unfold for_range.
  apply (for_loop_inv
           (fun m => length m = n /\ Forall (fun x => (0 <= x < uint_max)%Z) m)).
  - intros j x y [Hlen Hall] Hy. unfold cell_index_step in Hy.
    bind_inv Hy as m Hm. destruct m as [[px py] pz].
    bind_inv Hy as mr_i Hmr. bind_inv Hy as theta Hth. bind_inv Hy as theta_i Hti.
    bind_inv Hy as phi Hph. bind_inv Hy as phi_i Hpi.
    apply store_Ok in Hy as [Hj ->]. split; [rewrite length_insert; exact Hlen|].
    apply Forall_insert; [exact Hall|]. apply wrap_range.
  - split; [apply length_replicate|]. apply Forall_replicate. unfold uint_max. lia.
Qed.

(** When the counting pass returns, every cell index it read was inside
    [particles_per_momentum_cells]. *)
Lemma count_pass_Ok (mci : list Z) (cells : nat) (counts : list Z) :
  for_range 0 (length mci) (count_step mci) (replicate cells 0%Z) = Ok counts ->
  Forall (fun x => (Z.to_nat x < cells)%nat) mci.
Proof.
  unfold for_range. rewrite Nat.sub_0_r. intros H.
  apply (for_loop_ind
           (fun k (c : list Z) =>
              length c = cells /\
              forall ip ic, (ip < k)%nat -> mci !! ip = Some ic -> (Z.to_nat ic < cells)%nat))
    in H.
  - destruct H as [_ H]. apply Forall_lookup. intros ip ic Hip.
    apply (H ip ic); [|exact Hip]. cbn. eapply lookup_lt_Some. exact Hip.
  - intros j x y Hj [Hlen Hprev] Hy. unfold count_step in Hy.
    bind_inv Hy as ic Hic. bind_inv Hy as c Hc. apply store_Ok in Hy as [Hlt ->].
    split; [rewrite length_insert; exact Hlen|].
    intros ip ic' Hip Hic'. destruct (decide (ip = j)) as [->|Hne].
    + apply load_Ok in Hic. rewrite Hic in Hic'. injection Hic' as <-. lia.
    + apply (Hprev ip ic'); [lia|exact Hic'].
  - split; [apply length_replicate|]. intros ip ic Hip. lia.
Qed.

(** X5 - The merger writes only to the momentum, the weight and the tag of the
    particles of the range [istart, iend). *)
Theorem vranic_writes_inside_the_range (self : Merging) (p : Particles)
    (istart iend : Z) (self' : Merging) (p' : Particles) :
  MergingVranic.call self p istart iend = Ok (self', p') ->
  (iend < uint_max)%Z ->
  same_other_columns p p' /\
  forall i, (Z.of_nat i < istart \/ iend <= Z.of_nat i)%Z -> untouched i p p'.
Proof.
  intros H Hint. unfold MergingVranic.call in H.
  destruct (_ <? _)%Z; [|injection H as <- <-; repeat split].
  destruct (Z.ltb_spec (iend - istart) 0); [discriminate|].
  destruct (Z.ltb_spec istart 0); [discriminate|].
  unfold merge_range in H. cbn [dimensions_ merging_ppc_min_threshold_] in H.
  bind_inv H as b Hb. destruct b as [[ex th] ph].
  destruct (axis_delta _ _ 5) as [mr_delta dim0].
  destruct (axis_delta _ _ 5) as [theta_delta dim1].
  destruct (axis_delta _ _ 5) as [phi_delta dim2].
  bind_inv H as cv Hcv. destruct cv as [[cvx cvy] cvz].
  bind_inv H as mci Hmci. bind_inv H as srt Hsrt. destruct srt as [[sorted offsets] counts].
  bind_inv H as q Hq. injection H as _ <-.
  apply cell_index_loop_Ok in Hmci as [Hlen Hall].
  apply merge_cells_only in Hq as [Hcols Hq]. cbn [sorted_particles] in Hq.
  split; [exact Hcols|]. intros i Hi. apply Hq. intros z Hz.
  rewrite <- Hlen in Hsrt.
  assert (Hcells : Forall (fun x => (0 <= x < wrap (5 * 5 * 5))%Z) mci).
  { unfold counting_sort in Hsrt. bind_inv Hsrt as c0 Hc0.
    apply count_pass_Ok in Hc0. apply Forall_lookup. intros k x Hk.
    pose proof (proj1 (Forall_lookup _ _) Hall k x Hk) as Hx. cbn in Hx.
    pose proof (proj1 (Forall_lookup _ _) Hc0 k x Hk) as Hx'. cbn in Hx'.
    change (wrap (5 * 5 * 5)) with 125%Z in *. lia. }
  destruct (counting_sort_placed (Z.to_nat istart) (wrap (5 * 5 * 5)) mci)
    as (sorted' & offsets' & counts' & Hs' & Hplaced & _).
  - rewrite Hlen. lia.
  - exact Hcells.
  - reflexivity.
  - rewrite Hs' in Hsrt. injection Hsrt as -> _ _.
    apply placed_permutation in Hplaced. cbn [fst] in Hplaced. rewrite Hplaced in Hz.
    apply list_elem_of_fmap in Hz as (k & -> & Hk%elem_of_seq). lia.
Qed.

(** The merger on the twelve particles, and the theorem on what it leaves
    alone. *)
Lemma vranic_writes_inside_the_range_witness :
  (MergingVranic.call merger0 (twelve (3/4) no_tags) 0 12
   = Ok (mkMerging 0 (5, 5, 5)%Z,
         after_packet_1 0 0 0 0 0 0 0 0 direction12.1.2 direction12.2) /\
   (12 < uint_max)%Z) /\
  same_other_columns (twelve (3/4) no_tags)
    (after_packet_1 0 0 0 0 0 0 0 0 direction12.1.2 direction12.2) /\
  forall i, (Z.of_nat i < 0 \/ 12 <= Z.of_nat i)%Z ->
    untouched i (twelve (3/4) no_tags)
      (after_packet_1 0 0 0 0 0 0 0 0 direction12.1.2 direction12.2).
Proof.
  pose proof (call_twelve 0 0 0 0 0 0 0 0 0 0 0 0) as H1.
  assert (H2 : (12 < uint_max)%Z) by (vm_compute; reflexivity).
  split; [split; assumption|].
  exact (vranic_writes_inside_the_range _ _ _ _ _ _ H1 H2).
Defined.

(** ** The extrema of the first step *)

Lemma fasin_Ok (a f : R) : fasin a = Ok f -> f = asin a.
Proof.
  unfold fasin. destruct (Rlt_dec _ _); [discriminate|].
  destruct (Rlt_dec _ _); [discriminate|]. intros [= <-]. reflexivity.
Qed.

Lemma fdiv_Ok (a b c : R) : fdiv a b = Ok c -> b <> 0 /\ c = a / b.
Proof.
  unfold fdiv. destruct (Req_dec_T b 0); [discriminate|]. intros [= <-]. auto.
Qed.

Lemma bounds_step_upto (particles : Particles) (istart n k : nat) (st st' : BoundsState) :
  (istart < k)%nat ->
  bounded_upto particles istart n k st ->
  bounds_step particles istart k st = Ok st' ->
  bounded_upto particles istart n (Datatypes.S k) st'.
Proof.
  intros Hk. destruct st as [[ex th] ph]. intros (Lt & Lp & Hin) H.
  cbn [fst snd] in *. unfold bounds_step in H.
  bind_inv H as m Hm. destruct m as [[px py] pz].
  bind_inv H as s Hs. bind_inv H as f Hf. bind_inv H as ph' Hph. bind_inv H as th' Hth.
  injection H as <-. apply fdiv_Ok in Hs as [_ ->]. apply fasin_Ok in Hf as ->.
  unfold bounded_upto. cbn [fst snd].
  split; [rewrite (store_length _ _ _ _ Hth); exact Lt|].
  split; [rewrite (store_length _ _ _ _ Hph); exact Lp|].
  set (r := sqrt (px * px + py * py + pz * pz)) in *.
  intros ipart Hi. destruct (decide (ipart = k)) as [->|Hne].
  - exists px, py, pz. fold r. cbn.
    split; [exact Hm|]. split; [eapply store_same; exact Hth|].
    split; [eapply store_same; exact Hph|].
    pose proof (Rmin_r (mr_min ex) r). pose proof (Rmax_r (mr_max ex) r).
    pose proof (Rmin_r (theta_min ex) (atan2 py px)).
    pose proof (Rmax_r (theta_max ex) (atan2 py px)).
    pose proof (Rmin_r (phi_min ex) (asin (pz / r))).
    pose proof (Rmax_r (phi_max ex) (asin (pz / r))).
    repeat split; assumption.
  - destruct (Hin ipart) as (qx & qy & qz & Qm & Qt & Qp & Qr & Qth & Qph); [lia|].
    exists qx, qy, qz. cbn.
    split; [exact Qm|].
    split; [rewrite (store_other _ _ _ _ _ Hth) by lia; exact Qt|].
    split; [rewrite (store_other _ _ _ _ _ Hph) by lia; exact Qp|].
    pose proof (Rmin_l (mr_min ex) r). pose proof (Rmax_l (mr_max ex) r).
    pose proof (Rmin_l (theta_min ex) (atan2 py px)).
    pose proof (Rmax_l (theta_max ex) (atan2 py px)).
    pose proof (Rmin_l (phi_min ex) (asin (pz / r))).
    pose proof (Rmax_l (phi_max ex) (asin (pz / r))).
    repeat split; lra.
Qed.

(** After the first step every particle of the range has its norm and its
    two angles between the minima and the maxima, and its angles in the two
    scratch vectors. *)
Lemma bounds_pass_within (particles : Particles) (istart iend : nat)
    (ex : Extrema) (th ph : list R) :
  bounds_pass particles istart iend = Ok (ex, th, ph) ->
  (istart < iend)%nat /\
  length th = (iend - istart)%nat /\ length ph = (iend - istart)%nat /\
  forall ipart, (istart <= ipart < iend)%nat -> within ex particles istart th ph ipart.
Proof.
  unfold bounds_pass. intros H. bind_inv H as st0 H0.
  unfold bounds_init in H0.
  bind_inv H0 as m Hm. destruct m as [[px py] pz].
  bind_inv H0 as th0 Hth. bind_inv H0 as s Hs. bind_inv H0 as f Hf.
  bind_inv H0 as ph0 Hph. injection H0 as <-.
  apply fdiv_Ok in Hs as [_ ->]. apply fasin_Ok in Hf as ->.
  pose proof (proj1 (store_Ok _ _ _ _) Hth) as [Hn _]. rewrite length_replicate in Hn.
  split; [lia|].
  unfold for_range in H.
  apply (for_loop_ind (bounded_upto particles istart (iend - istart))) in H.
  - replace (istart + 1 + (iend - (istart + 1)))%nat with iend in H by lia.
    destruct H as (Lt & Lp & Hin). cbn [fst snd] in *. auto.
  - intros j x y Hj Hx Hy. eapply bounds_step_upto; [|exact Hx|exact Hy]. lia.
  - unfold bounded_upto. cbn [fst snd].
    split; [rewrite (store_length _ _ _ _ Hth); apply length_replicate|].
    split; [rewrite (store_length _ _ _ _ Hph); apply length_replicate|].
    intros ipart Hi. assert (ipart = istart) as -> by lia.
    exists px, py, pz. cbn. rewrite Nat.sub_diag.
    split; [exact Hm|]. split; [eapply store_same; exact Hth|].
    split; [eapply store_same; exact Hph|]. repeat split; lra.
Qed.

(** X2 - After the first step, the minima and the maxima bracket the norm and
    the two angles of every particle of the range. *)
Theorem bounds_pass_brackets (particles : Particles) (istart iend : nat)
    (ex : Extrema) (th ph : list R) (ipart : nat) :
  bounds_pass particles istart iend = Ok (ex, th, ph) ->
  (istart <= ipart < iend)%nat ->
  exists px py pz,
    momentum_at particles ipart = Ok (px, py, pz) /\
    mr_min ex <= sqrt (px * px + py * py + pz * pz) <= mr_max ex /\
    theta_min ex <= atan2 py px <= theta_max ex /\
    phi_min ex <= asin (pz / sqrt (px * px + py * py + pz * pz)) <= phi_max ex /\
    mr_max ex <= mr_max (inflate ex) /\ theta_max ex <= theta_max (inflate ex) /\
    phi_max ex <= phi_max (inflate ex).
Proof.
  intros H Hi. apply bounds_pass_within in H as (_ & _ & _ & Hin).
  destruct (Hin ipart Hi) as (px & py & pz & Hm & _ & _ & Hr & Ht & Hp).
  exists px, py, pz. split; [exact Hm|]. split; [exact Hr|]. split; [exact Ht|].
  split; [exact Hp|]. cbn. repeat split; lra.
Qed.


(** The first step on the twelve particles, and the theorem on particle 8. *)
Lemma bounds_pass_brackets_witness :
  (bounds_pass (twelve (3/4) no_tags) 0 12
   = Ok (mkExtrema (3/4) 2 0 (PI/2) 0 (PI/2),
         [0; 0; 0; 0; 0; 0; 0; 0; PI/2; 0; PI/2; 0],
         [0; 0; 0; 0; 0; 0; 0; 0; 0; PI/2; 0; PI/2]) /\
   (0 <= 8 < 12)%nat) /\
  exists px py pz,
    momentum_at (twelve (3/4) no_tags) 8 = Ok (px, py, pz) /\
    mr_min (mkExtrema (3/4) 2 0 (PI/2) 0 (PI/2)) <= sqrt (px * px + py * py + pz * pz)
      <= mr_max (mkExtrema (3/4) 2 0 (PI/2) 0 (PI/2)) /\
    theta_min (mkExtrema (3/4) 2 0 (PI/2) 0 (PI/2)) <= atan2 py px
      <= theta_max (mkExtrema (3/4) 2 0 (PI/2) 0 (PI/2)) /\
    phi_min (mkExtrema (3/4) 2 0 (PI/2) 0 (PI/2))
      <= asin (pz / sqrt (px * px + py * py + pz * pz))
      <= phi_max (mkExtrema (3/4) 2 0 (PI/2) 0 (PI/2)) /\
    mr_max (mkExtrema (3/4) 2 0 (PI/2) 0 (PI/2)) <= mr_max ex12 /\
    theta_max (mkExtrema (3/4) 2 0 (PI/2) 0 (PI/2)) <= theta_max ex12 /\
    phi_max (mkExtrema (3/4) 2 0 (PI/2) 0 (PI/2)) <= phi_max ex12.
Proof.
  pose proof (bounds_twelve (3/4) no_tags) as H1.
  assert (H2 : (0 <= 8 < 12)%nat) by lia.
  split; [split; assumption|].
  exact (bounds_pass_brackets _ _ _ _ _ _ 8%nat H1 H2).
Defined.

(** ** The two merged particles *)

(** The vector [e2] is orthogonal to [e1] whatever the direction of the
    cell, so the two merged momenta have the same norm. *)
Lemma merged_momenta_same_norm (t : Totals) (d ma mb : R * R * R) :
  merged_momenta t d = Ok (ma, mb) ->
  ma.1.1 * ma.1.1 + ma.1.2 * ma.1.2 + ma.2 * ma.2
  = mb.1.1 * mb.1.1 + mb.1.2 * mb.1.2 + mb.2 * mb.2.
Proof.
  destruct t as [[tw [[tm0 tm1] tm2]] te], d as [[dx dy] dz]. unfold merged_momenta.
  intros H.
  bind_inv H as e He. bind_inv H as pn Hpn. bind_inv H as ratio Hr. bind_inv H as omega Ho.
  bind_inv H as e1x Hx. bind_inv H as e1y Hy. bind_inv H as e1z Hz.
  injection H as <- <-. cbn [fst snd]. ring.
Qed.

(** The first packet of the twelve particles of weight 3/4, and the theorem
    on its momentum. *)
Lemma merge_packet_conserves_momentum_witness :
  (merge_packet sorted_12 0 (1, 0, 0) 0 (twelve (3/4) no_tags)
   = Ok (after_packet_0 0 0 0 0 0 0 0 0 0 0 0 0) /\
   packet sorted_12 0 0 = Ok [0; 1; 2; 3]%nat /\ 0%nat <> 1%nat) /\
  exists m,
    weighted_momentum (twelve (3/4) no_tags) [0; 1; 2; 3]%nat = Ok m /\
    weighted_momentum (after_packet_0 0 0 0 0 0 0 0 0 0 0 0 0) [0; 1]%nat = Ok m.
Proof.
  pose proof (packet_0_twelve 0 0 0 0 0 0 0 0 0 0 0 0 1 0 0) as H1.
  assert (H2 : packet sorted_12 0 0 = Ok [0; 1; 2; 3]%nat) by (vm_compute; reflexivity).
  assert (H3 : 0%nat <> 1%nat) by lia.
  split; [repeat split; assumption|].
  exact (merge_packet_conserves_momentum _ _ _ _ _ _ _ _ _ _ H1 H2 H3).
Defined.

(** X8 - After a packet is merged, its two surviving particles have the same
    weight and the same energy. *)
Theorem merged_pair_same_energy (sorted : list Z) (first : Z) (d : R * R * R)
    (ipack : nat) (p p' : Particles) (i0 i1 i2 i3 : nat) :
  merge_packet sorted first d ipack p = Ok p' ->
  packet sorted first ipack = Ok [i0; i1; i2; i3] ->
  i0 <> i1 ->
  exists w e,
    load (weight p') i0 = Ok w /\ load (weight p') i1 = Ok w /\
    weighted_energy p' [i0] = Ok (w * e + 0) /\
    weighted_energy p' [i1] = Ok (w * e + 0).
Proof.
  intros H Hpk Hne.
  apply merge_packet_Ok in H
    as (z0 & z1 & z2 & z3 & w0 & w1 & w2 & w3 & m0 & m1 & m2 & m3 & ma & mb & pa
        & Hpk' & _ & _ & _ & _ & Hmm & Hpa & pb & Hpb & Hx & Hy & Hz & Hw).
  rewrite Hpk in Hpk'. injection Hpk' as -> -> -> ->.
  destruct (merged_weights _ _ _ _ _ _ _ _ Hpa Hpb) as [Ha Hb].
  destruct (merged_particles _ _ _ _ _ _ _ _ Hpa Hpb Hne) as [Hma Hmb].
  rewrite <- Hw in Ha, Hb.
  rewrite <- (momentum_at_congr pb p' _ Hx Hy Hz) in Hma.
  rewrite <- (momentum_at_congr pb p' _ Hx Hy Hz) in Hmb.
  apply merged_momenta_same_norm in Hmm.
  destruct ma as [[ax ay] az], mb as [[bx by'] bz]. cbn [fst snd] in Hmm.
  exists (0.5 * (0 + w0 + w1 + w2 + w3)), (sqrt (1 + ax * ax + ay * ay + az * az)).
  split; [exact Ha|]. split; [exact Hb|]. cbn. rewrite Ha, Hb, Hma, Hmb. cbn.
  split; [reflexivity|].
  replace (1 + bx * bx + by' * by' + bz * bz) with (1 + ax * ax + ay * ay + az * az)
    by lra.
  reflexivity.
Qed.

(** The first packet of the twelve particles of weight 3/4, and the theorem
    on the energy of its two survivors. *)
Lemma merged_pair_same_energy_witness :
  (merge_packet sorted_12 0 (1, 0, 0) 0 (twelve (3/4) no_tags)
   = Ok (after_packet_0 0 0 0 0 0 0 0 0 0 0 0 0) /\
   packet sorted_12 0 0 = Ok [0; 1; 2; 3]%nat /\ 0%nat <> 1%nat) /\
  exists w e,
    load (weight (after_packet_0 0 0 0 0 0 0 0 0 0 0 0 0)) 0 = Ok w /\
    load (weight (after_packet_0 0 0 0 0 0 0 0 0 0 0 0 0)) 1 = Ok w /\
    weighted_energy (after_packet_0 0 0 0 0 0 0 0 0 0 0 0 0) [0%nat] = Ok (w * e + 0) /\
    weighted_energy (after_packet_0 0 0 0 0 0 0 0 0 0 0 0 0) [1%nat] = Ok (w * e + 0).
Proof.
  pose proof (packet_0_twelve 0 0 0 0 0 0 0 0 0 0 0 0 1 0 0) as H1.
  assert (H2 : packet sorted_12 0 0 = Ok [0; 1; 2; 3]%nat) by (vm_compute; reflexivity).
  assert (H3 : 0%nat <> 1%nat) by lia.
  split; [repeat split; assumption|].
  exact (merged_pair_same_energy _ _ _ _ _ _ _ _ _ _ H1 H2 H3).
Defined.

(** ** The weights *)

Lemma Forall_load {A : Type} (P : A -> Prop) (a : list A) (i : nat) (v : A) :
  Forall P a -> load a i = Ok v -> P v.
Proof. intros Ha Hv%load_Ok. eapply Forall_lookup_1; eassumption. Qed.

Lemma merge_packet_positive (sorted : list Z) (first : Z) (d : R * R * R) (ipack : nat)
    (p p' : Particles) :
  Forall (fun w => 0 < w) (weight p) ->
  merge_packet sorted first d ipack p = Ok p' ->
  Forall (fun w => 0 < w) (weight p').
Proof.
  intros Hpos H.
  apply merge_packet_Ok in H
    as (z0 & z1 & z2 & z3 & w0 & w1 & w2 & w3 & m0 & m1 & m2 & m3 & ma & mb & pa
        & _ & [Hw0 _] & [Hw1 _] & [Hw2 _] & [Hw3 _] & _ & Hpa & pb & Hpb & _ & _ & _ & Hw).
  pose proof (Forall_load _ _ _ _ Hpos Hw0). pose proof (Forall_load _ _ _ _ Hpos Hw1).
  pose proof (Forall_load _ _ _ _ Hpos Hw2). pose proof (Forall_load _ _ _ _ Hpos Hw3).
  apply overwrite_Ok in Hpa as (_ & _ & _ & Ha & _).
  apply overwrite_Ok in Hpb as (_ & _ & _ & Hb & _).
  apply store_Ok in Ha as [_ Ha]. apply store_Ok in Hb as [_ Hb].
  rewrite Hw, Hb, Ha. cbn in *.
  apply Forall_insert; [apply Forall_insert; [exact Hpos|]|]; lra.
Qed.

(** X6 - The merger keeps the weights positive. *)
Theorem vranic_keeps_weights_positive (self : Merging) (p : Particles)
    (istart iend : Z) (self' : Merging) (p' : Particles) :
  MergingVranic.call self p istart iend = Ok (self', p') ->
  Forall (fun w => 0 < w) (weight p) ->
  Forall (fun w => 0 < w) (weight p').
Proof.
  intros H Hpos. unfold MergingVranic.call in H.
  destruct (_ <? _)%Z; [|injection H as <- <-; exact Hpos].
  destruct (_ <? _)%Z; [discriminate|]. destruct (_ <? _)%Z; [discriminate|].
  unfold merge_range in H. cbn [dimensions_ merging_ppc_min_threshold_] in H.
  bind_inv H as b Hb. destruct b as [[ex th] ph].
  destruct (axis_delta _ _ 5) as [mr_delta dim0].
  destruct (axis_delta _ _ 5) as [theta_delta dim1].
  destruct (axis_delta _ _ 5) as [phi_delta dim2].
  bind_inv H as cv Hcv. destruct cv as [[cvx cvy] cvz].
  bind_inv H as mci Hmci. bind_inv H as srt Hsrt. destruct srt as [[sorted offsets] counts].
  bind_inv H as q Hq. injection H as _ <-.
  revert Hq. unfold merge_cells, for_range.
  set (P := fun x : Particles => Forall (fun w => 0 < w) (weight x)).
  apply (for_loop_inv P); [|exact Hpos].
  intros mr_i x y Hx. apply (for_loop_inv P); [|exact Hx]. clear x Hx.
  intros theta_i x y1 Hx. apply (for_loop_inv P); [|exact Hx]. clear x Hx.
  intros phi_i x y2 Hx Hy.
  unfold merge_cell in Hy. bind_inv Hy as count Hcount.
  destruct (4 <=? count)%Z; [|injection Hy as <-; exact Hx].
  bind_inv Hy as first Hfirst. bind_inv Hy as dx Hdx. bind_inv Hy as dy Hdy.
  bind_inv Hy as dz Hdz. revert Hy. apply (for_loop_inv P); [|exact Hx].
  intros ipack x1 y3 Hx1 Hy. eapply merge_packet_positive; eassumption.
Qed.

(** The merger on the twelve particles, whose weights are positive. *)
Lemma vranic_keeps_weights_positive_witness :
  (MergingVranic.call merger0 (twelve (3/4) no_tags) 0 12
   = Ok (mkMerging 0 (5, 5, 5)%Z,
         after_packet_1 0 0 0 0 0 0 0 0 direction12.1.2 direction12.2) /\
   Forall (fun w => 0 < w) (weight (twelve (3/4) no_tags))) /\
  Forall (fun w => 0 < w)
         (weight (after_packet_1 0 0 0 0 0 0 0 0 direction12.1.2 direction12.2)).
Proof.
  pose proof (call_twelve 0 0 0 0 0 0 0 0 0 0 0 0) as H1.
  assert (H2 : Forall (fun w => 0 < w) (weight (twelve (3/4) no_tags)))
    by (cbn; repeat (constructor; [lra|]); constructor).
  split; [split; assumption|].
  exact (vranic_keeps_weights_positive _ _ _ _ _ _ H1 H2).
Defined.

(** ** The directions of the momentum cells *)

Lemma cell_vec_step_holds (ex : Extrema) (theta_delta phi_delta : R) (d1 d2 n : nat)
    (theta_i phi_i : nat) (cv : list R * list R * list R) :
  (d1 * d2 <= n)%nat -> (Z.of_nat n < uint_max)%Z ->
  (theta_i < d1)%nat -> (phi_i < d2)%nat ->
  same_lengths n cv ->
  (forall t f, (t < theta_i /\ f < d2)%nat \/ (t = theta_i /\ f < phi_i)%nat ->
     holds_direction ex theta_delta phi_delta d2 cv t f) ->
  exists cv',
    cell_vec_step ex theta_delta phi_delta (Z.of_nat d2) theta_i phi_i cv = Ok cv' /\
    same_lengths n cv' /\
    forall t f, (t < theta_i /\ f < d2)%nat \/ (t = theta_i /\ f < Datatypes.S phi_i)%nat ->
      holds_direction ex theta_delta phi_delta d2 cv' t f.
Proof.
  intros Hn Hmax Ht Hf. destruct cv as [[cvx cvy] cvz]. intros (Lx & Ly & Lz) Hprev.
  cbn [fst snd] in *.
  assert (Hidx : (theta_i * d2 + phi_i < n)%nat) by nia.
  assert (Eidx : Z.to_nat (wrap (Z.of_nat theta_i * Z.of_nat d2 + Z.of_nat phi_i))
                 = (theta_i * d2 + phi_i)%nat).
  { rewrite wrap_small by nia. lia. }
  eexists. split.
  - unfold cell_vec_step. rewrite Eidx.
    rewrite (store_insert cvx), (store_insert cvy), (store_insert cvz) by lia.
    cbn. reflexivity.
  - split; [unfold same_lengths; cbn; rewrite !length_insert; auto|].
    intros t f Htf. unfold holds_direction. cbn [fst snd].
    destruct (decide ((t * d2 + f)%nat = (theta_i * d2 + phi_i)%nat)) as [E|Hne].
    + assert (t = theta_i /\ f = phi_i) as [-> ->] by nia.
      rewrite !list_lookup_insert_eq by lia. unfold cell_direction. auto.
    + rewrite !list_lookup_insert_ne by auto.
      apply (Hprev t f). destruct Htf as [Htf|[-> Hlt]]; [left; exact Htf|].
      right. split; [reflexivity|]. destruct (decide (f = phi_i)) as [->|]; [|lia].
      contradiction.
Qed.

(** X4 - The loop over the directions returns and fills the three vectors with
    the directions of the cells, which are unit vectors. *)
Theorem cell_vectors_are_unit (ex : Extrema) (theta_delta phi_delta : R)
    (d1 d2 n : nat) :
  (d1 * d2 <= n)%nat -> (Z.of_nat n < uint_max)%Z ->
  exists cvx cvy cvz,
    cell_vectors ex theta_delta phi_delta (Z.of_nat d1) (Z.of_nat d2)
                 (replicate n 0, replicate n 0, replicate n 0) = Ok (cvx, cvy, cvz) /\
    forall theta_i phi_i, (theta_i < d1)%nat -> (phi_i < d2)%nat ->
      exists dx dy dz,
        cvx !! (theta_i * d2 + phi_i)%nat = Some dx /\
        cvy !! (theta_i * d2 + phi_i)%nat = Some dy /\
        cvz !! (theta_i * d2 + phi_i)%nat = Some dz /\
        (dx, dy, dz) = cell_direction ex theta_delta phi_delta theta_i phi_i /\
        dx * dx + dy * dy + dz * dz = 1.
Proof.
  intros Hn Hmax. unfold cell_vectors, for_range. rewrite !Nat2Z.id, !Nat.sub_0_r.
  destruct (for_loop_total
              (fun t cv =>
                 same_lengths n cv /\
                 forall t' f, (t' < t)%nat -> (f < d2)%nat ->
                   holds_direction ex theta_delta phi_delta d2 cv t' f)
              d1 0
              (fun theta_i cv =>
                 for_loop d2 0
                   (cell_vec_step ex theta_delta phi_delta (Z.of_nat d2) theta_i) cv)
              (replicate n 0, replicate n 0, replicate n 0))
    as ([[cvx cvy] cvz] & Hloop & _ & Hall).
  - intros t cv Ht [Hlen Hprev].
    destruct (for_loop_total
                (fun f cv' =>
                   same_lengths n cv' /\
                   forall t' f', (t' < t /\ f' < d2)%nat \/ (t' = t /\ f' < f)%nat ->
                     holds_direction ex theta_delta phi_delta d2 cv' t' f')
                d2 0 (cell_vec_step ex theta_delta phi_delta (Z.of_nat d2) t) cv)
      as (cv' & Hin & Hlen' & Hall).
    + intros f x Hf [Lx Hx]. eapply cell_vec_step_holds; eauto; lia.
    + split; [exact Hlen|]. intros t' f' [[H1 H2]|[-> H2]]; [auto|lia].
    + exists cv'. split; [exact Hin|]. split; [exact Hlen'|].
      intros t' f Ht' Hf. apply Hall. cbn. lia.
  - split; [unfold same_lengths; cbn; rewrite !length_replicate; auto|].
    intros t' f Ht'. lia.
  - exists cvx, cvy, cvz. split; [exact Hloop|].
    intros theta_i phi_i Ht Hf. destruct (Hall theta_i phi_i) as (Hx & Hy & Hz); [lia|exact Hf|].
    cbn [fst snd] in *.
    destruct (cell_direction ex theta_delta phi_delta theta_i phi_i) as [[dx dy] dz] eqn:Ed.
    exists dx, dy, dz. repeat split; try assumption.
    unfold cell_direction in Ed. injection Ed as <- <- <-.
    set (theta := theta_min ex + (INR theta_i + 0.5) * theta_delta).
    set (phi := phi_min ex + (INR phi_i + 0.5) * phi_delta).
    pose proof (sin2_cos2 theta) as Ht2. pose proof (sin2_cos2 phi) as Hp2.
    unfold Rsqr in *. nra.
Qed.

(** The 5 x 5 directions of the grid of the twelve particles. *)
Lemma cell_vectors_are_unit_witness :
  ((5 * 5 <= 25)%nat /\ (Z.of_nat 25 < uint_max)%Z) /\
  exists cvx cvy cvz,
    cell_vectors ex12 dt12 dp12 (Z.of_nat 5) (Z.of_nat 5)
                 (replicate 25 0, replicate 25 0, replicate 25 0) = Ok (cvx, cvy, cvz) /\
    forall theta_i phi_i, (theta_i < 5)%nat -> (phi_i < 5)%nat ->
      exists dx dy dz,
        cvx !! (theta_i * 5 + phi_i)%nat = Some dx /\
        cvy !! (theta_i * 5 + phi_i)%nat = Some dy /\
        cvz !! (theta_i * 5 + phi_i)%nat = Some dz /\
        (dx, dy, dz) = cell_direction ex12 dt12 dp12 theta_i phi_i /\
        dx * dx + dy * dy + dz * dz = 1.
Proof.
  assert (H1 : (5 * 5 <= 25)%nat) by lia.
  assert (H2 : (Z.of_nat 25 < uint_max)%Z) by (vm_compute; reflexivity).
  split; [split; assumption|].
  exact (cell_vectors_are_unit ex12 dt12 dp12 5 5 25 H1 H2).
Defined.

(** ** What the radiation leaves alone *)

Lemma radiated_refl (inside : nat -> Prop) (p : Particles) : radiated inside p p.
Proof. repeat split. Qed.

Lemma radiated_trans (inside : nat -> Prop) (p q r : Particles) :
  radiated inside p q -> radiated inside q r -> radiated inside p r.
Proof.
  intros (A1 & A2 & A3 & A4 & A5 & A6 & A) (B1 & B2 & B3 & B4 & B5 & B6 & B).
  repeat split; try congruence;
    destruct (A i H) as (C1 & C2 & C3 & C4 & C5);
    destruct (B i H) as (D1 & D2 & D3 & D4 & D5); congruence.
Qed.

Lemma radiated_weaken (inside inside' : nat -> Prop) (p q : Particles) :
  (forall i, inside i -> inside' i) -> radiated inside p q -> radiated inside' p q.
Proof.
  intros Hsub (A1 & A2 & A3 & A4 & A5 & A6 & A).
  repeat split; try assumption; apply A; auto.
Qed.

Lemma same_settings_refl (self : Radiation) : same_settings self self.
Proof. repeat split. Qed.

Lemma same_settings_trans (a b c : Radiation) :
  same_settings a b -> same_settings b c -> same_settings a c.
Proof.
  intros (A1 & A2 & A3 & A4 & A5 & A6 & A7 & A8) (B1 & B2 & B3 & B4 & B5 & B6 & B7 & B8).
  repeat split; congruence.
Qed.

(** The emission writes the momentum of the emitting particle and nothing
    else of the store. *)
Lemma photonEmission_frame (tables : RadiationTables) (self : Radiation) (ipart : nat)
    (particle_chi particle_gamma : R) (particles : Particles) (random_number : R)
    (photon_species : bool) (self' : Radiation) (particles' : Particles) (e : R) :
  photonEmission tables self ipart particle_chi particle_gamma particles
                 random_number photon_species = Ok (self', particles', e) ->
  same_settings self self' /\ rand_ self' = rand_ self /\
  radiated (fun i => i = ipart) particles particles' /\
  tau particles' = tau particles /\ chi particles' = chi particles /\
  (photon_species = false -> new_photons_ self' = new_photons_ self).
Proof.
  intros H. unfold photonEmission in H.
  bind_inv H as ratio Hr. bind_inv H as old_norm_p Ho. bind_inv H as inv Hi.
  bind_inv H as m Hm. destruct m as [[px py] pz].
  bind_inv H as mx Hx. bind_inv H as my Hy. bind_inv H as mz Hz.
  bind_inv H as m' Hm'. destruct m' as [[px' py'] pz'].
  assert (Hrad : radiated (fun i => i = ipart) particles
                          (set_momentum particles mx my mz)).
  { repeat split; cbn;
      first [eapply store_other; [eassumption|congruence] | reflexivity]. }
  destruct photon_species; cbn [andb] in H.
  - destruct (Rleb _ _).
    + bind_inv H as inv' Hi'. bind_inv H as ph Hph. injection H as <- <- _.
      split; [repeat split|]. split; [reflexivity|]. split; [exact Hrad|].
      repeat split. discriminate.
    + bind_inv H as w Hw. injection H as <- <- _.
      split; [repeat split|]. split; [reflexivity|]. split; [exact Hrad|].
      repeat split.
  - bind_inv H as w Hw. injection H as <- <- _.
    split; [repeat split|]. split; [reflexivity|]. split; [exact Hrad|].
    repeat split.
Qed.

Lemma new_optical_depth_frame (uniform : nat -> R) (fuel ipart : nat)
    (self : Radiation) (particles : Particles) (self' : Radiation) (particles' : Particles) :
  new_optical_depth uniform fuel ipart (self, particles) = Ok (self', particles') ->
  same_settings self self' /\ new_photons_ self' = new_photons_ self /\
  radiated (fun i => i = ipart) particles particles' /\
  chi particles' = chi particles /\
  momentum_x particles' = momentum_x particles /\
  momentum_y particles' = momentum_y particles /\
  momentum_z particles' = momentum_z particles.
Proof.
  revert self particles. induction fuel as [|fuel IH]; intros self particles H; cbn in H.
  - bind_inv H as t Ht. destruct (Rleb _ _); [discriminate|]. injection H as <- <-.
    repeat split.
  - bind_inv H as t Ht. destruct (Rleb _ _).
    + bind_inv H as l Hl. bind_inv H as tau' Hs.
      apply IH in H as (S1 & N1 & R1 & C1 & X1 & Y1 & Z1). cbn in *.
      split; [exact S1|]. split; [exact N1|]. split; [|auto].
      eapply radiated_trans; [|exact R1].
      repeat split; cbn; eapply store_other; [eassumption|congruence].
    + injection H as <- <-. repeat split.
Qed.

(** One turn of the Monte-Carlo loop of particle [ipart] writes to the
    momentum and the optical depth of that particle only. *)
Lemma monte_carlo_step_frame (uniform : nat -> R)
    (computeParticleChi : R -> R * R * R -> R -> R * R * R -> R * R * R -> R)
    (tables : RadiationTables) (fuel : nat) (photon_species : bool)
    (Epart Bpart : list R) (ipart : nat) (ipart_ref : Z) (c : R)
    (self : Radiation) (particles : Particles) (r : R) (l : Local) (f : flow)
    (self' : Radiation) (particles' : Particles) (r' : R) (l' : Local) :
  monte_carlo_step uniform computeParticleChi tables fuel photon_species Epart Bpart
                   ipart ipart_ref c (self, particles, r, l)
  = Ok (f, (self', particles', r', l')) ->
  same_settings self self' /\
  radiated (fun i => i = ipart) particles particles' /\
  chi particles' = chi particles /\
  (photon_species = false -> new_photons_ self' = new_photons_ self).
Proof.
  intros H. unfold monte_carlo_step in H.
  bind_inv H as m Hm. destruct m as [[px py] pz].
  destruct (Reqb _ 1).
  { injection H as _ <- <- _ _. repeat split. }
  bind_inv H as E HE. bind_inv H as B HB. bind_inv H as t Ht.
  bind_inv H as st1 H1. destruct st1 as [self1 particles1].
  assert (K1 : same_settings self self1 /\ new_photons_ self1 = new_photons_ self /\
               radiated (fun i => i = ipart) particles particles1 /\
               chi particles1 = chi particles).
  { destruct (_ && _).
    - apply new_optical_depth_frame in H1 as (S1 & N1 & R1 & C1 & _). auto.
    - injection H1 as <- <-. repeat split. }
  destruct K1 as (S1 & N1 & R1 & C1). clear H1.
  bind_inv H as t1 Ht1.
  destruct (Rltb (epsilon_tau_ self1) t1).
  - (* Discontinuous emission: emission under progress *)
    bind_inv H as time Htime. bind_inv H as tau' Hs.
    bind_inv H as st2 H2. destruct st2 as [[self2 particles2] r2].
    injection H as _ <- <- _ _.
    assert (Rt : radiated (fun i => i = ipart) particles1 (set_tau particles1 tau')).
    { repeat split; cbn; eapply store_other; [eassumption|congruence]. }
    destruct (Rleb _ (epsilon_tau_ self1)).
    + bind_inv H2 as st3 H3. destruct st3 as [[self3 particles3] e].
      bind_inv H2 as tau2 Hs2. injection H2 as <- <- _.
      apply photonEmission_frame in H3 as (S3 & _ & R3 & T3 & C3 & N3).
      cbn in S3, N3, T3, C3.
      split; [eapply same_settings_trans; [exact S1|exact S3]|].
      split; [|split; [cbn; congruence|intros Hp; rewrite (N3 Hp); exact N1]].
      eapply radiated_trans; [exact R1|]. eapply radiated_trans; [exact Rt|].
      eapply radiated_trans; [exact R3|].
      repeat split; cbn; eapply store_other; [eassumption|congruence].
    + injection H2 as <- <- _. split; [exact S1|].
      split; [eapply radiated_trans; [exact R1|exact Rt]|].
      split; [cbn; exact C1|intros _; exact N1].
  - destruct (_ && _ && _ && _).
    + (* Continuous emission *)
      bind_inv H as temp Htemp.
      bind_inv H as mx Hx. bind_inv H as my Hy. bind_inv H as mz Hz.
      bind_inv H as m1 Hm1. destruct m1 as [[px1 py1] pz1].
      bind_inv H as w Hw. injection H as _ <- <- _ _.
      split; [exact S1|]. split; [|split; [cbn; exact C1|intros _; exact N1]].
      eapply radiated_trans; [exact R1|].
      repeat split; cbn;
        first [eapply store_other; [eassumption|congruence] | reflexivity].
    + injection H as _ <- <- _ _.
      split; [exact S1|]. split; [exact R1|]. split; [exact C1|intros _; exact N1].
Qed.

Lemma monte_carlo_loop_frame (uniform : nat -> R)
    (computeParticleChi : R -> R * R * R -> R -> R * R * R -> R * R * R -> R)
    (tables : RadiationTables) (fuel fuel_tau : nat) (photon_species : bool)
    (Epart Bpart : list R) (ipart : nat) (ipart_ref : Z) (c : R)
    (self : Radiation) (particles : Particles) (r : R) (l : Local)
    (self' : Radiation) (particles' : Particles) (r' : R) (l' : Local) :
  monte_carlo_loop uniform computeParticleChi tables fuel fuel_tau photon_species
                   Epart Bpart ipart ipart_ref c (self, particles, r, l)
  = Ok (self', particles', r', l') ->
  same_settings self self' /\
  radiated (fun i => i = ipart) particles particles' /\
  chi particles' = chi particles /\
  (photon_species = false -> new_photons_ self' = new_photons_ self).
Proof.
  revert self particles r l.
  induction fuel as [|fuel IH]; intros self particles r l H; cbn in H.
  - destruct (_ && _); [discriminate|]. injection H as <- <- _ _. repeat split.
  - destruct (_ && _).
    + bind_inv H as x Hx. destruct x as [f [[[self1 particles1] r1] l1]].
      apply monte_carlo_step_frame in Hx as (S1 & R1 & C1 & N1).
      destruct f.
      * apply IH in H as (S2 & R2 & C2 & N2).
        split; [eapply same_settings_trans; eassumption|].
        split; [eapply radiated_trans; eassumption|].
        split; [congruence|]. intros Hp. rewrite (N2 Hp). exact (N1 Hp).
      * injection H as <- <- _ _. auto.
    + injection H as <- <- _ _. repeat split.
Qed.

Lemma chi_step_frame
    (computeParticleChi : R -> R * R * R -> R -> R * R * R -> R * R * R -> R)
    (self : Radiation) (Epart Bpart : list R) (ipart_ref : Z) (ipart : nat)
    (particles particles' : Particles) :
  chi_step computeParticleChi self Epart Bpart ipart_ref ipart particles = Ok particles' ->
  radiated (fun i => i = ipart) particles particles' /\
  momentum_x particles' = momentum_x particles /\
  momentum_y particles' = momentum_y particles /\
  momentum_z particles' = momentum_z particles /\
  tau particles' = tau particles.
Proof.
  intros H. unfold chi_step in H. bind_inv H as c Hc.
  bind_inv H as m Hm. destruct m as [[px py] pz].
  bind_inv H as E HE. bind_inv H as B HB. bind_inv H as c2 Hc2.
  injection H as <-. split; [|repeat split].
  repeat split; cbn. eapply store_other; [eassumption|congruence].
Qed.

Lemma int_range_ind {S : Type} (P : S -> Prop) (istart iend : Z)
    (body : nat -> S -> outcome S) (s s' : S) :
  (forall j x y, (istart <= Z.of_nat j < iend)%Z -> P x -> body j x = Ok y -> P y) ->
  P s -> int_range istart iend body s = Ok s' -> P s'.
Proof.
  intros Hbody Hs H. unfold int_range in H.
  destruct (Z.leb_spec iend istart); [injection H as <-; exact Hs|].
  destruct (Z.ltb_spec istart 0); [discriminate|].
  unfold for_range in H.
  apply (for_loop_ind (fun _ => P)) in H; [exact H| |exact Hs].
  intros j x y Hj. apply Hbody. lia.
Qed.

(** X10 - The radiation writes to the momentum, the optical depth and the quantum
    parameter of the particles of [istart, iend), and to nothing else of
    the store; of its object it changes the buffer of photons and the state
    of the generator, and without a photon species not even the buffer. *)
Theorem radiation_writes_inside_the_range (uniform : nat -> R)
    (computeParticleChi : R -> R * R * R -> R -> R * R * R -> R * R * R -> R)
    (tables : RadiationTables) (fuel fuel_tau : nat) (self : Radiation)
    (particles : Particles) (photon_species : bool) (Epart Bpart : list R)
    (radiated_energy : R) (istart iend ipart_ref : Z)
    (self' : Radiation) (particles' : Particles) (e : R) :
  RadiationMonteCarlo.call uniform computeParticleChi tables fuel fuel_tau self particles
    photon_species Epart Bpart radiated_energy istart iend ipart_ref
  = Ok (self', particles', e) ->
  same_settings self self' /\
  radiated (fun i => (istart <= Z.of_nat i < iend)%Z) particles particles' /\
  (photon_species = false -> new_photons_ self' = new_photons_ self).
Proof.
  intros H. unfold RadiationMonteCarlo.call in H.
  bind_inv H as x Hx. destruct x as [[self1 particles1] r1].
  bind_inv H as particles2 H2. injection H as <- <- _.
  set (inside := fun i : nat => (istart <= Z.of_nat i < iend)%Z).
  apply (int_range_ind
           (fun st : Run =>
              same_settings self st.1.1 /\ radiated inside particles st.1.2 /\
              (photon_species = false -> new_photons_ st.1.1 = new_photons_ self)))
    in Hx.
  - cbn [fst snd] in Hx. destruct Hx as (S1 & R1 & N1).
    split; [exact S1|]. split; [|exact N1].
    apply (int_range_ind (radiated inside particles)) in H2; [exact H2| |exact R1].
    intros j p q Hj Hp Hq. apply chi_step_frame in Hq as [Hq _].
    eapply radiated_trans; [exact Hp|]. eapply radiated_weaken; [|exact Hq].
    intros i ->. exact Hj.
  - intros j [[s p] r] [[s2 p2] r2] Hj (Ss & Rs & Ns) Hy. cbn [fst snd] in *.
    unfold particle_step in Hy. bind_inv Hy as c Hc.
    bind_inv Hy as y Hy2. destruct y as [[[s3 p3] r3] l3]. injection Hy as <- <- _.
    apply monte_carlo_loop_frame in Hy2 as (S3 & R3 & _ & N3).
    split; [eapply same_settings_trans; eassumption|]. split.
    + eapply radiated_trans; [exact Rs|]. eapply radiated_weaken; [|exact R3].
      intros i ->. exact Hj.
    + intros Hp. rewrite (N3 Hp). exact (Ns Hp).
  - cbn. split; [apply same_settings_refl|]. split; [apply radiated_refl|]. auto.
Qed.

(** The run of the radiation on the electron, and the theorem on what it
    leaves alone. *)
Lemma radiation_writes_inside_the_range_witness :
  RadiationMonteCarlo.call uniform0 (chi_const 1) (tables0 (1/2)) 1 1 radiation0
    (electron (-1)) true no_field no_field 0 0 1 0
  = Ok (set_new_photons (set_rand radiation0 2) (two_photons (1/3) (1/2)),
        set_chi (electron_after (1/4) (-1)) [1], 0 + (0 + 0)) /\
  (same_settings radiation0
     (set_new_photons (set_rand radiation0 2) (two_photons (1/3) (1/2))) /\
   radiated (fun i => (0 <= Z.of_nat i < 1)%Z) (electron (-1))
            (set_chi (electron_after (1/4) (-1)) [1]) /\
   (true = false ->
    new_photons_ (set_new_photons (set_rand radiation0 2) (two_photons (1/3) (1/2)))
    = new_photons_ radiation0)).
Proof.
  pose proof call_electron as H1.
  split; [exact H1|].
  exact (radiation_writes_inside_the_range _ _ _ _ _ _ _ _ _ _ _ _ _ _ _ _ _ H1).
Defined.

(** ** The direction of the momentum *)

Lemma rescaled_refl (p : Particles) : rescaled p p.
Proof.
  intros i px py pz H. exists 1. rewrite H. f_equal. f_equal; [f_equal|]; lra.
Qed.

Lemma rescaled_trans (p q r : Particles) : rescaled p q -> rescaled q r -> rescaled p r.
Proof.
  intros Hpq Hqr i px py pz H. destruct (Hpq _ _ _ _ H) as (k & Hk).
  destruct (Hqr _ _ _ _ Hk) as (k' & Hk'). exists (k' * k). rewrite Hk'.
  f_equal. f_equal; [f_equal|]; ring.
Qed.

Lemma rescaled_same (p q : Particles) :
  momentum_x q = momentum_x p -> momentum_y q = momentum_y p ->
  momentum_z q = momentum_z p -> rescaled p q.
Proof.
  intros Hx Hy Hz i px py pz H. exists 1.
  rewrite (momentum_at_congr p q i Hx Hy Hz), H. f_equal. f_equal; [f_equal|]; lra.
Qed.

(** Three stores of [m - f * m] in the three components of particle
    [ipart]. *)
Lemma rescaled_stores (p : Particles) (ipart : nat) (px py pz k : R) (mx my mz : list R) :
  momentum_at p ipart = Ok (px, py, pz) ->
  store (momentum_x p) ipart (k * px) = Ok mx ->
  store (momentum_y p) ipart (k * py) = Ok my ->
  store (momentum_z p) ipart (k * pz) = Ok mz ->
  rescaled p (set_momentum p mx my mz).
Proof.
  intros Hm Hx Hy Hz i qx qy qz Hq. destruct (decide (i = ipart)) as [->|Hne].
  - rewrite Hm in Hq. injection Hq as <- <- <-. exists k.
    apply momentum_at_Ok. cbn. repeat split; eapply store_same; eassumption.
  - exists 1. apply momentum_at_Ok in Hq as (Qx & Qy & Qz).
    apply momentum_at_Ok. cbn.
    rewrite (store_other _ _ _ _ _ Hx), (store_other _ _ _ _ _ Hy),
      (store_other _ _ _ _ _ Hz) by congruence.
    rewrite Qx, Qy, Qz. repeat split; f_equal; lra.
Qed.

Lemma store_congr {A : Type} (a a' : list A) (i : nat) (v v' : A) :
  store a i v = Ok a' -> v = v' -> store a i v' = Ok a'.
Proof. intros H <-. exact H. Qed.

Lemma photonEmission_rescaled (tables : RadiationTables) (self : Radiation) (ipart : nat)
    (particle_chi particle_gamma : R) (particles : Particles) (random_number : R)
    (photon_species : bool) (self' : Radiation) (particles' : Particles) (e : R) :
  photonEmission tables self ipart particle_chi particle_gamma particles
                 random_number photon_species = Ok (self', particles', e) ->
  rescaled particles particles'.
Proof.
  intros H. unfold photonEmission in H.
  bind_inv H as ratio Hr. bind_inv H as old_norm_p Ho. bind_inv H as inv Hi.
  bind_inv H as m Hm. destruct m as [[px py] pz].
  bind_inv H as mx Hx. bind_inv H as my Hy. bind_inv H as mz Hz.
  bind_inv H as m1 Hm1. destruct m1 as [[px1 py1] pz1].
  assert (Hres : rescaled particles (set_momentum particles mx my mz)).
  { apply (rescaled_stores particles ipart px py pz (1 - inv)); [exact Hm| | |];
      (eapply store_congr; [eassumption|ring]). }
  destruct (_ && _).
  - bind_inv H as inv1 Hi1. bind_inv H as ph Hph. injection H as _ <- _. exact Hres.
  - bind_inv H as w Hw. injection H as _ <- _. exact Hres.
Qed.

Lemma monte_carlo_step_rescaled (uniform : nat -> R)
    (computeParticleChi : R -> R * R * R -> R -> R * R * R -> R * R * R -> R)
    (tables : RadiationTables) (fuel : nat) (photon_species : bool)
    (Epart Bpart : list R) (ipart : nat) (ipart_ref : Z) (c : R)
    (self : Radiation) (particles : Particles) (r : R) (l : Local) (f : flow)
    (self' : Radiation) (particles' : Particles) (r' : R) (l' : Local) :
  monte_carlo_step uniform computeParticleChi tables fuel photon_species Epart Bpart
                   ipart ipart_ref c (self, particles, r, l)
  = Ok (f, (self', particles', r', l')) ->
  rescaled particles particles'.
Proof.
  intros H. unfold monte_carlo_step in H.
  bind_inv H as m Hm. destruct m as [[px py] pz].
  destruct (Reqb _ 1).
  { injection H as _ _ <- _ _. apply rescaled_refl. }
  bind_inv H as E HE. bind_inv H as B HB. bind_inv H as t Ht.
  bind_inv H as st1 H1. destruct st1 as [self1 particles1].
  assert (K1 : momentum_x particles1 = momentum_x particles /\
               momentum_y particles1 = momentum_y particles /\
               momentum_z particles1 = momentum_z particles).
  { destruct (_ && _).
    - apply new_optical_depth_frame in H1 as (_ & _ & _ & _ & X1 & Y1 & Z1). auto.
    - injection H1 as <- <-. auto. }
  destruct K1 as (X1 & Y1 & Z1). clear H1.
  bind_inv H as t1 Ht1.
  destruct (Rltb (epsilon_tau_ self1) t1).
  - bind_inv H as time Htime. bind_inv H as tau1 Hs.
    bind_inv H as st2 H2. destruct st2 as [[self2 particles2] r2].
    injection H as _ _ <- _ _.
    destruct (Rleb _ (epsilon_tau_ self1)).
    + bind_inv H2 as st3 H3. destruct st3 as [[self3 particles3] e].
      bind_inv H2 as tau2 Hs2. injection H2 as _ <- _.
      apply photonEmission_rescaled in H3.
      eapply rescaled_trans; [apply (rescaled_same particles (set_tau particles1 tau1));
                              assumption|].
      eapply rescaled_trans; [exact H3|]. apply rescaled_same; reflexivity.
    + injection H2 as _ <- _. apply rescaled_same; assumption.
  - destruct (_ && _ && _ && _).
    + bind_inv H as temp Htemp.
      bind_inv H as mx Hx. bind_inv H as my Hy. bind_inv H as mz Hz.
      bind_inv H as m1 Hm1. destruct m1 as [[px1 py1] pz1].
      bind_inv H as w Hw. injection H as _ _ <- _ _.
      eapply rescaled_trans; [apply (rescaled_same particles particles1); assumption|].
      rewrite <- (momentum_at_congr particles particles1 ipart X1 Y1 Z1) in Hm.
      apply (rescaled_stores particles1 ipart px py pz (1 - temp)); [exact Hm| | |];
        (eapply store_congr; [eassumption|ring]).
    + injection H as _ _ <- _ _. apply rescaled_same; assumption.
Qed.

Lemma monte_carlo_loop_rescaled (uniform : nat -> R)
    (computeParticleChi : R -> R * R * R -> R -> R * R * R -> R * R * R -> R)
    (tables : RadiationTables) (fuel fuel_tau : nat) (photon_species : bool)
    (Epart Bpart : list R) (ipart : nat) (ipart_ref : Z) (c : R)
    (self : Radiation) (particles : Particles) (r : R) (l : Local)
    (self' : Radiation) (particles' : Particles) (r' : R) (l' : Local) :
  monte_carlo_loop uniform computeParticleChi tables fuel fuel_tau photon_species
                   Epart Bpart ipart ipart_ref c (self, particles, r, l)
  = Ok (self', particles', r', l') ->
  rescaled particles particles'.
Proof.
  revert self particles r l.
  induction fuel as [|fuel IH]; intros self particles r l H; cbn in H.
  - destruct (_ && _); [discriminate|]. injection H as _ <- _ _. apply rescaled_refl.
  - destruct (_ && _).
    + bind_inv H as x Hx. destruct x as [f [[[self1 particles1] r1] l1]].
      apply monte_carlo_step_rescaled in Hx. destruct f.
      * eapply rescaled_trans; [exact Hx|]. eapply IH. exact H.
      * injection H as _ <- _ _. exact Hx.
    + injection H as _ <- _ _. apply rescaled_refl.
Qed.

(** X11 - The radiation rescales the momentum of a particle and never turns it
    off its line. *)
Theorem radiation_rescales_momentum (uniform : nat -> R)
    (computeParticleChi : R -> R * R * R -> R -> R * R * R -> R * R * R -> R)
    (tables : RadiationTables) (fuel fuel_tau : nat) (self : Radiation)
    (particles : Particles) (photon_species : bool) (Epart Bpart : list R)
    (radiated_energy : R) (istart iend ipart_ref : Z)
    (self' : Radiation) (particles' : Particles) (e : R) (i : nat) (px py pz : R) :
  RadiationMonteCarlo.call uniform computeParticleChi tables fuel fuel_tau self particles
    photon_species Epart Bpart radiated_energy istart iend ipart_ref
  = Ok (self', particles', e) ->
  momentum_at particles i = Ok (px, py, pz) ->
  exists k, momentum_at particles' i = Ok (k * px, k * py, k * pz).
Proof.
  intros H. revert i px py pz. change (rescaled particles particles').
  unfold RadiationMonteCarlo.call in H.
  bind_inv H as x Hx. destruct x as [[self1 particles1] r1].
  bind_inv H as particles2 H2. injection H as _ <- _.
  apply (int_range_inv (fun st : Run => rescaled particles st.1.2)) in Hx.
  - cbn [fst snd] in Hx.
    apply (int_range_inv (rescaled particles)) in H2; [exact H2| |exact Hx].
    intros j p q Hp Hq. apply chi_step_frame in Hq as (_ & X & Y & Z & _).
    eapply rescaled_trans; [exact Hp|]. apply rescaled_same; assumption.
  - intros j [[s p] r] [[s2 p2] r2] Hs Hy. cbn [fst snd] in *.
    unfold particle_step in Hy. bind_inv Hy as c Hc.
    bind_inv Hy as y Hy2. destruct y as [[[s3 p3] r3] l3]. injection Hy as _ <- _.
    eapply rescaled_trans; [exact Hs|].
    eapply monte_carlo_loop_rescaled. exact Hy2.
  - cbn. apply rescaled_refl.
Qed.

(** The run of the radiation on the electron, and the theorem on its
    momentum. *)
Lemma radiation_rescales_momentum_witness :
  (RadiationMonteCarlo.call uniform0 (chi_const 1) (tables0 (1/2)) 1 1 radiation0
     (electron (-1)) true no_field no_field 0 0 1 0
   = Ok (set_new_photons (set_rand radiation0 2) (two_photons (1/3) (1/2)),
         set_chi (electron_after (1/4) (-1)) [1], 0 + (0 + 0)) /\
   momentum_at (electron (-1)) 0 = Ok (4/3, 0, 0)) /\
  exists k,
    momentum_at (set_chi (electron_after (1/4) (-1)) [1]) 0
    = Ok (k * (4/3), k * 0, k * 0).
Proof.
  pose proof call_electron as H1.
  assert (H2 : momentum_at (electron (-1)) 0 = Ok (4/3, 0, 0)) by reflexivity.
  split; [split; assumption|].
  exact (radiation_rescales_momentum _ _ _ _ _ _ _ _ _ _ _ _ _ _ _ _ _ _ _ _ _ H1 H2).
Defined.

(** ** The photons of one emission *)

(** The sums over a run of [n] particles of the same weight [w] and the
    same momentum [m]. *)
Lemma sums_of_copies (ph : Particles) (i n : nat) (w : R) (m : R * R * R) :
  (forall j, (i <= j < i + n)%nat ->
     load (weight ph) j = Ok w /\ momentum_at ph j = Ok m) ->
  exists s sx sy sz,
    total_weight ph (seq i n) = Ok s /\
    weighted_momentum ph (seq i n) = Ok (sx, sy, sz) /\
    s = INR n * w /\
    sx = INR n * (w * m.1.1) /\ sy = INR n * (w * m.1.2) /\ sz = INR n * (w * m.2).
Proof.
  revert i. induction n as [|n IH]; intros i H.
  - exists 0, 0, 0, 0. cbn. repeat split; lra.
  - destruct (IH (Datatypes.S i)) as (s & sx & sy & sz & Hs & Hm & Es & Ex & Ey & Ez).
    { intros j Hj. apply H. lia. }
    destruct (H i) as [Hw Hmi]; [lia|]. destruct m as [[mx my] mz].
    exists (w + s), (w * mx + sx), (w * my + sy), (w * mz + sz).
    rewrite S_INR. cbn [seq total_weight weighted_momentum].
    rewrite Hw, Hmi, Hs, Hm. cbn [mbind outcome_bind fst snd] in *.
    repeat split; subst; ring.
Qed.

(** X15 - When an emission creates photons, they carry together the weight of
    the emitting particle. *)
Theorem emission_carries_weight (tables : RadiationTables) (self : Radiation)
    (ipart : nat) (particle_chi particle_gamma : R) (particles : Particles)
    (random_number : R) (self' : Radiation) (particles' : Particles) (e w : R) :
  (nDim_ self <= 3)%nat ->
  (0 < radiation_photon_sampling_ self)%nat ->
  inv_radiation_photon_sampling_ self = 1 / INR (radiation_photon_sampling_ self) ->
  photonEmission tables self ipart particle_chi particle_gamma particles
                 random_number true = Ok (self', particles', e) ->
  radiation_photon_gamma_threshold_ self
  <= computeRandomPhotonChiWithInterpolation tables particle_chi random_number
     / particle_chi * (particle_gamma - 1) ->
  load (weight particles) ipart = Ok w ->
  exists s,
    total_weight (new_photons_ self')
                 (seq (size (new_photons_ self)) (radiation_photon_sampling_ self))
    = Ok s /\ s = w.
Proof.
  intros HnDim Hn Hinv H Hthr Hw.
  apply photonEmission_Ok in H as (px & py & pz & Hm & Hm' & Hw' & Hp & H).
  cbn [andb] in H. rewrite (Rleb_true _ _ Hthr) in H.
  destruct H as (Hnorm & -> & ph & -> & Hloop). cbn [new_photons_ set_new_photons].
  rewrite <- Hw' in Hw.
  destruct (photon_loop_Ok _ _ _ _ _ _ _ _ _ _ _ _ _ _ HnDim Hm' Hw Hloop)
    as (_ & Hin & _).
  edestruct (sums_of_copies ph (size (new_photons_ self))
               (radiation_photon_sampling_ self)) as (s & _ & _ & _ & Hs & _ & Es & _).
  { intros j Hj. destruct (Hin j Hj) as (Jw & _ & Jm & _). split; [exact Jw|exact Jm]. }
  exists s. split; [exact Hs|]. rewrite Es, Hinv. field.
  apply not_0_INR. lia.
Qed.

(** The emission on the electron of weight 3: two photons of weight 3/2. *)
Lemma emission_carries_weight_witness :
  ((nDim_ radiation0 <= 3)%nat /\
   (0 < radiation_photon_sampling_ radiation0)%nat /\
   inv_radiation_photon_sampling_ radiation0
   = 1 / INR (radiation_photon_sampling_ radiation0) /\
   photonEmission (tables0 (1/2)) radiation0 0 1 (5/3) (electron (-1)) 0 true
   = Ok (set_new_photons radiation0 (two_photons (1/3) (1/2)),
         electron_after (1/4) (-1), 0) /\
   radiation_photon_gamma_threshold_ radiation0
   <= computeRandomPhotonChiWithInterpolation (tables0 (1/2)) 1 0 / 1 * (5/3 - 1) /\
   load (weight (electron (-1))) 0 = Ok 3) /\
  exists s,
    total_weight (new_photons_ (set_new_photons radiation0 (two_photons (1/3) (1/2))))
                 (seq (size (new_photons_ radiation0))
                      (radiation_photon_sampling_ radiation0))
    = Ok s /\ s = 3.
Proof.
  assert (H1 : (nDim_ radiation0 <= 3)%nat) by (cbn; lia).
  assert (H2 : (0 < radiation_photon_sampling_ radiation0)%nat) by (cbn; lia).
  assert (H3 : inv_radiation_photon_sampling_ radiation0
               = 1 / INR (radiation_photon_sampling_ radiation0)) by reflexivity.
  pose proof (emission_forward 0 (-1)) as H4.
  assert (H5 : radiation_photon_gamma_threshold_ radiation0
               <= computeRandomPhotonChiWithInterpolation (tables0 (1/2)) 1 0 / 1
                  * (5/3 - 1)) by (cbn; lra).
  assert (H6 : load (weight (electron (-1))) 0 = Ok 3) by reflexivity.
  split; [repeat split; assumption|].
  exact (emission_carries_weight _ _ _ _ _ _ _ _ _ _ _ H1 H2 H3 H4 H5 H6).
Defined.

(** X16 - When an emission creates photons, [particle_gamma] is the Lorentz
    factor of the emitting particle and the factor of the recoil is below
    1, the weighted momentum of the photons is the weighted momentum that
    the particle loses. *)
Theorem emission_conserves_momentum (tables : RadiationTables) (self : Radiation)
    (ipart : nat) (particle_chi particle_gamma : R) (particles : Particles)
    (random_number : R) (self' : Radiation) (particles' : Particles)
    (e w px py pz : R) :
  (nDim_ self <= 3)%nat ->
  (0 < radiation_photon_sampling_ self)%nat ->
  inv_radiation_photon_sampling_ self = 1 / INR (radiation_photon_sampling_ self) ->
  photonEmission tables self ipart particle_chi particle_gamma particles
                 random_number true = Ok (self', particles', e) ->
  let gammaph :=
    computeRandomPhotonChiWithInterpolation tables particle_chi random_number
    / particle_chi * (particle_gamma - 1) in
  radiation_photon_gamma_threshold_ self <= gammaph ->
  load (weight particles) ipart = Ok w ->
  momentum_at particles ipart = Ok (px, py, pz) ->
  particle_gamma * particle_gamma - 1 = px * px + py * py + pz * pz ->
  gammaph / sqrt (particle_gamma * particle_gamma - 1) < 1 ->
  exists qx qy qz sx sy sz,
    momentum_at particles' ipart = Ok (qx, qy, qz) /\
    weighted_momentum (new_photons_ self')
                      (seq (size (new_photons_ self)) (radiation_photon_sampling_ self))
    = Ok (sx, sy, sz) /\
    w * qx + sx = w * px /\ w * qy + sy = w * py /\ w * qz + sz = w * pz.
Proof.
  intros HnDim Hn Hinv H gammaph Hthr Hw Hm Hgamma Hf.
  apply photonEmission_Ok in H as (x & y & z & Hm0 & Hm' & Hw' & Hp & H).
  rewrite Hm in Hm0. injection Hm0 as <- <- <-.
  fold gammaph in H, Hm'. cbn [andb] in H. rewrite (Rleb_true _ _ Hthr) in H.
  set (f := gammaph / sqrt (particle_gamma * particle_gamma - 1)) in *.
  destruct H as (Hnorm & -> & ph & -> & Hloop). cbn [new_photons_ set_new_photons].
  rewrite <- Hw' in Hw.
  rewrite (norm_after_recoil px py pz f Hf) in Hnorm, Hloop.
  set (n := sqrt (px * px + py * py + pz * pz)) in *.
  assert (Hn0 : n <> 0) by (intros E; rewrite E, Rmult_0_r in Hnorm; congruence).
  destruct (photon_loop_Ok _ _ _ _ _ _ _ _ _ _ _ _ _ _ HnDim Hm' Hw Hloop)
    as (_ & Hin & _).
  edestruct (sums_of_copies ph (size (new_photons_ self))
               (radiation_photon_sampling_ self))
    as (s & sx & sy & sz & _ & Hs & _ & Ex & Ey & Ez).
  { intros j Hj. destruct (Hin j Hj) as (Jw & _ & Jm & _). split; [exact Jw|exact Jm]. }
  exists (px - px * f), (py - py * f), (pz - pz * f), sx, sy, sz.
  split; [exact Hm'|]. split; [exact Hs|].
  assert (Hsamp : INR (radiation_photon_sampling_ self) <> 0) by (apply not_0_INR; lia).
  assert (Ef : f = gammaph / n) by (unfold f, n; rewrite Hgamma; reflexivity).
  cbn [fst snd] in Ex, Ey, Ez. rewrite Ex, Ey, Ez, Hinv, Ef.
  repeat split; field; repeat split; try assumption.
  all: intros E; apply Hnorm; rewrite Ef; apply Rmult_eq_0_compat_r;
    replace (1 - gammaph / n) with ((n - gammaph) / n) by (field; exact Hn0);
    rewrite E; field; exact Hn0.
Qed.

(** The emission on the electron with the factor of recoil 1/4. *)
Lemma emission_conserves_momentum_witness :
  ((nDim_ radiation0 <= 3)%nat /\
   (0 < radiation_photon_sampling_ radiation0)%nat /\
   inv_radiation_photon_sampling_ radiation0
   = 1 / INR (radiation_photon_sampling_ radiation0) /\
   photonEmission (tables0 (1/2)) radiation0 0 1 (5/3) (electron (-1)) 0 true
   = Ok (set_new_photons radiation0 (two_photons (1/3) (1/2)),
         electron_after (1/4) (-1), 0) /\
   radiation_photon_gamma_threshold_ radiation0
   <= computeRandomPhotonChiWithInterpolation (tables0 (1/2)) 1 0 / 1 * (5/3 - 1) /\
   load (weight (electron (-1))) 0 = Ok 3 /\
   momentum_at (electron (-1)) 0 = Ok (4/3, 0, 0) /\
   5/3 * (5/3) - 1 = 4/3 * (4/3) + 0 * 0 + 0 * 0 /\
   computeRandomPhotonChiWithInterpolation (tables0 (1/2)) 1 0 / 1 * (5/3 - 1)
   / sqrt (5/3 * (5/3) - 1) < 1) /\
  exists qx qy qz sx sy sz,
    momentum_at (electron_after (1/4) (-1)) 0 = Ok (qx, qy, qz) /\
    weighted_momentum
      (new_photons_ (set_new_photons radiation0 (two_photons (1/3) (1/2))))
      (seq (size (new_photons_ radiation0)) (radiation_photon_sampling_ radiation0))
    = Ok (sx, sy, sz) /\
    3 * qx + sx = 3 * (4/3) /\ 3 * qy + sy = 3 * 0 /\ 3 * qz + sz = 3 * 0.
Proof.
  assert (H1 : (nDim_ radiation0 <= 3)%nat) by (cbn; lia).
  assert (H2 : (0 < radiation_photon_sampling_ radiation0)%nat) by (cbn; lia).
  assert (H3 : inv_radiation_photon_sampling_ radiation0
               = 1 / INR (radiation_photon_sampling_ radiation0)) by reflexivity.
  pose proof (emission_forward 0 (-1)) as H4.
  assert (H5 : radiation_photon_gamma_threshold_ radiation0
               <= computeRandomPhotonChiWithInterpolation (tables0 (1/2)) 1 0 / 1
                  * (5/3 - 1)) by (cbn; lra).
  assert (H6 : load (weight (electron (-1))) 0 = Ok 3) by reflexivity.
  assert (H7 : momentum_at (electron (-1)) 0 = Ok (4/3, 0, 0)) by reflexivity.
  assert (H8 : 5/3 * (5/3) - 1 = 4/3 * (4/3) + 0 * 0 + 0 * 0) by lra.
  assert (H9 : computeRandomPhotonChiWithInterpolation (tables0 (1/2)) 1 0 / 1
               * (5/3 - 1) / sqrt (5/3 * (5/3) - 1) < 1).
  { cbn [computeRandomPhotonChiWithInterpolation tables0].
    replace (5 / 3 * (5 / 3) - 1) with (4 / 3 * (4 / 3)) by lra.
    rewrite sqrt_square by lra. lra. }
  split; [repeat split; assumption|].
  exact (emission_conserves_momentum _ _ _ _ _ _ _ _ _ _ _ _ _ _
           H1 H2 H3 H4 H5 H6 H7 H8 H9).
Defined.

(** ** The number of turns of the Monte-Carlo loop *)

Lemma bind_never {A B : Type} (m : outcome A) (f : A -> outcome B) (e : failure) :
  m <> Fail e -> (forall a, m = Ok a -> f a <> Fail e) -> m ≫= f <> Fail e.
Proof.
  destruct m as [a|e1]; cbn; intros Hm Hf; [apply Hf; reflexivity|].
  intros [= ->]. apply Hm. reflexivity.
Qed.

Lemma for_loop_never {S : Type} (P : S -> Prop) (e : failure) (n i : nat)
    (body : nat -> S -> outcome S) (s : S) :
  (forall j x, P x -> body j x <> Fail e /\ forall y, body j x = Ok y -> P y) ->
  P s -> for_loop n i body s <> Fail e.
Proof.
  intros Hbody. revert i s. induction n as [|n IH]; intros i s Hs; cbn; [discriminate|].
  destruct (Hbody i s Hs) as [Hne Hok]. apply bind_never; [exact Hne|].
  intros s1 H1. apply IH. apply Hok. exact H1.
Qed.

Lemma load_never {A : Type} (a : list A) (i : nat) : load a i <> Fail OutOfFuel.
Proof. unfold load. destruct (a !! i); discriminate. Qed.

Lemma store_never {A : Type} (a : list A) (i : nat) (v : A) : store a i v <> Fail OutOfFuel.
Proof. unfold store. destruct (_ <? _)%nat; discriminate. Qed.

Lemma fdiv_never (a b : R) : fdiv a b <> Fail OutOfFuel.
Proof. unfold fdiv. destruct (Req_dec_T _ _); discriminate. Qed.

Lemma min_of_quotient_never (a b c : R) : min_of_quotient a b c <> Fail OutOfFuel.
Proof.
  unfold min_of_quotient. destruct (Req_dec_T _ _); [|discriminate].
  destruct (Rlt_dec _ _); discriminate.
Qed.

Lemma fsqrt_never (a : R) : fsqrt a <> Fail OutOfFuel.
Proof. unfold fsqrt. destruct (Rlt_dec _ _); discriminate. Qed.

Lemma momentum_at_never (p : Particles) (i : nat) : momentum_at p i <> Fail OutOfFuel.
Proof.
  unfold momentum_at. repeat (apply bind_never; [apply load_never|intros ? _]). discriminate.
Qed.

Lemma field_at_never (part : list R) (k : Z) : field_at part k <> Fail OutOfFuel.
Proof.
  unfold field_at, loadZ.
  repeat (apply bind_never; [destruct (_ <? _)%Z; [discriminate|apply load_never]|intros ? _]).
  discriminate.
Qed.

Lemma position_at_never (p : Particles) (d i : nat) : position_at p d i <> Fail OutOfFuel.
Proof.
  unfold position_at. apply bind_never; [apply load_never|intros ? _]. apply load_never.
Qed.

Lemma store_position_never (p : Particles) (d i : nat) (v : R) :
  store_position p d i v <> Fail OutOfFuel.
Proof.
  unfold store_position. apply bind_never; [apply load_never|intros ? _].
  apply bind_never; [apply store_never|intros ? _]. discriminate.
Qed.

Lemma photon_step_never (self : Radiation) (particles : Particles) (ipart : nat)
    (g inv photon_chi : R) (idNew : nat) (ph : Particles) :
  photon_step self particles ipart g inv photon_chi idNew ph <> Fail OutOfFuel.
Proof.
  unfold photon_step.
  apply bind_never; [apply position_at_never|intros ? _].
  apply bind_never; [apply store_position_never|intros ? _].
  apply bind_never.
  { destruct (_ <? _)%nat; [|discriminate].
    apply bind_never; [apply position_at_never|intros ? _].
    apply bind_never; [apply store_position_never|intros ? _].
    destruct (_ <? _)%nat; [|discriminate].
    apply bind_never; [apply position_at_never|intros ? _]. apply store_position_never. }
  intros ? _. apply bind_never; [apply momentum_at_never|intros [[? ?] ?] _].
  do 3 (apply bind_never; [apply store_never|intros ? _]).
  apply bind_never; [apply load_never|intros ? _].
  do 2 (apply bind_never; [apply store_never|intros ? _]).
  apply bind_never.
  { destruct (isQuantumParameter _); [|discriminate].
    apply bind_never; [apply store_never|intros ? _]. discriminate. }
  intros ? _. destruct (isMonteCarlo _); [|discriminate].
  apply bind_never; [apply store_never|intros ? _]. discriminate.
Qed.

Lemma photonEmission_never (tables : RadiationTables) (self : Radiation) (ipart : nat)
    (particle_chi particle_gamma : R) (particles : Particles) (random_number : R)
    (photon_species : bool) :
  photonEmission tables self ipart particle_chi particle_gamma particles
                 random_number photon_species <> Fail OutOfFuel.
Proof.
  unfold photonEmission.
  apply bind_never; [apply fdiv_never|intros ? _].
  apply bind_never; [apply fsqrt_never|intros ? _].
  apply bind_never; [apply fdiv_never|intros ? _].
  apply bind_never; [apply momentum_at_never|intros [[? ?] ?] _].
  do 3 (apply bind_never; [apply store_never|intros ? _]).
  apply bind_never; [apply momentum_at_never|intros [[? ?] ?] _].
  destruct (_ && _).
  - apply bind_never; [apply fdiv_never|intros ? _].
    apply bind_never; [|intros ? _; discriminate].
    unfold for_range. apply (for_loop_never (fun _ => True)); [|exact I].
    intros j x _. split; [apply photon_step_never|auto].
  - apply bind_never; [apply load_never|intros ? _]. discriminate.
Qed.

Lemma new_optical_depth_never (uniform : nat -> R) (fuel ipart : nat)
    (self : Radiation) (particles : Particles) :
  good_draws uniform (epsilon_tau_ self) -> (1 <= fuel)%nat ->
  new_optical_depth uniform fuel ipart (self, particles) <> Fail OutOfFuel.
Proof.
  intros Hdraw Hfuel. destruct fuel as [|fuel]; [lia|]. cbn.
  apply bind_never; [apply load_never|intros t _].
  destruct (Rleb t (epsilon_tau_ self)); [|discriminate].
  unfold fln. destruct (Rle_dec _ 0) as [|Hpos]; [discriminate|]. cbn.
  apply bind_never; [apply store_never|intros tau1 Hs].
  destruct (Hdraw (rand_ self)) as [Hd|Hd]; [lra|].
  assert (Hl : load (tau (set_tau particles tau1)) ipart
               = Ok (- ln (1 - uniform (rand_ self)))).
  { apply load_Ok. cbn. eapply store_same. exact Hs. }
  assert (Hb : Rleb (- ln (1 - uniform (rand_ self)))
                    (epsilon_tau_ (set_rand self (Datatypes.S (rand_ self)))) = false).
  { unfold Rleb. cbn. destruct (Rle_dec _ _); [lra|reflexivity]. }
  destruct fuel; cbn [new_optical_depth]; rewrite Hl; cbn [mbind outcome_bind];
    rewrite Hb; discriminate.
Qed.

Lemma chi_step_never
    (computeParticleChi : R -> R * R * R -> R -> R * R * R -> R * R * R -> R)
    (self : Radiation) (Epart Bpart : list R) (ipart_ref : Z) (ipart : nat)
    (particles : Particles) :
  chi_step computeParticleChi self Epart Bpart ipart_ref ipart particles <> Fail OutOfFuel.
Proof.
  unfold chi_step. apply bind_never; [apply load_never|intros ? _].
  apply bind_never; [apply momentum_at_never|intros [[? ?] ?] _].
  do 2 (apply bind_never; [apply field_at_never|intros ? _]).
  apply bind_never; [apply store_never|intros ? _]. discriminate.
Qed.

Lemma monte_carlo_step_never (uniform : nat -> R)
    (computeParticleChi : R -> R * R * R -> R -> R * R * R -> R * R * R -> R)
    (tables : RadiationTables) (fuel : nat) (photon_species : bool)
    (Epart Bpart : list R) (ipart : nat) (ipart_ref : Z) (c : R) (st : Run * Local) :
  good_draws uniform (epsilon_tau_ st.1.1.1) -> (1 <= fuel)%nat ->
  monte_carlo_step uniform computeParticleChi tables fuel photon_species Epart Bpart
                   ipart ipart_ref c st <> Fail OutOfFuel.
Proof.
  destruct st as [[[self particles] r] l]. cbn [fst]. intros Hdraw Hfuel.
  unfold monte_carlo_step.
  apply bind_never; [apply momentum_at_never|intros [[px py] pz] _].
  destruct (Reqb _ 1); [discriminate|].
  do 2 (apply bind_never; [apply field_at_never|intros ? _]).
  apply bind_never; [apply load_never|intros t _].
  apply bind_never.
  { destruct (_ && _); [|discriminate]. apply new_optical_depth_never; assumption. }
  intros [self1 particles1] _.
  apply bind_never; [apply load_never|intros t1 _].
  destruct (Rltb _ _).
  - apply bind_never; [apply min_of_quotient_never|intros ? _].
    apply bind_never; [apply store_never|intros ? _].
    apply bind_never; [|intros [[? ?] ?] _; discriminate].
    destruct (Rleb _ _); [|discriminate].
    apply bind_never; [apply photonEmission_never|intros [[? ?] ?] _].
    apply bind_never; [apply store_never|intros ? _]. discriminate.
  - destruct (_ && _ && _ && _); [|discriminate].
    apply bind_never; [apply fdiv_never|intros ? _].
    do 3 (apply bind_never; [apply store_never|intros ? _]).
    apply bind_never; [apply momentum_at_never|intros [[? ?] ?] _].
    apply bind_never; [apply load_never|intros ? _]. discriminate.
Qed.

(** After a turn that goes on, either one more iteration is counted or
    the local time is the time step. *)
Lemma monte_carlo_step_progress (uniform : nat -> R)
    (computeParticleChi : R -> R * R * R -> R -> R * R * R -> R * R * R -> R)
    (tables : RadiationTables) (fuel : nat) (photon_species : bool)
    (Epart Bpart : list R) (ipart : nat) (ipart_ref : Z) (c : R)
    (self : Radiation) (particles : Particles) (r : R) (l : Local)
    (self' : Radiation) (particles' : Particles) (r' : R) (l' : Local) :
  monte_carlo_step uniform computeParticleChi tables fuel photon_species Epart Bpart
                   ipart ipart_ref c (self, particles, r, l)
  = Ok (Continue, (self', particles', r', l')) ->
  mc_it_nb l' = (mc_it_nb l + 1)%Z \/ local_it_time l' = dt_ self'.
Proof.
  intros H. pose proof (monte_carlo_step_frame _ _ _ _ _ _ _ _ _ _ _ _ _ _ _ _ _ _ _ H)
    as [(_ & Hdt & _) _].
  unfold monte_carlo_step in H.
  bind_inv H as m Hm. destruct m as [[px py] pz].
  destruct (Reqb _ 1); [discriminate|].
  bind_inv H as E HE. bind_inv H as B HB. bind_inv H as t Ht.
  bind_inv H as st1 H1. destruct st1 as [self1 particles1].
  assert (Hdt1 : dt_ self1 = dt_ self).
  { destruct (_ && _).
    - apply new_optical_depth_frame in H1 as ((_ & D & _) & _). exact D.
    - injection H1 as <- _. reflexivity. }
  bind_inv H as t1 Ht1. clear H1.
  destruct (Rltb (epsilon_tau_ self1) t1).
  - bind_inv H as time Htime. bind_inv H as tau1 Hs.
    bind_inv H as st2 H2. destruct st2 as [[self2 particles2] r2].
    injection H as _ _ _ <-. left. reflexivity.
  - destruct (_ && _ && _ && _).
    + bind_inv H as temp Htemp.
      bind_inv H as mx Hx. bind_inv H as my Hy. bind_inv H as mz Hz.
      bind_inv H as m1 Hm1. destruct m1 as [[px1 py1] pz1].
      bind_inv H as w Hw. injection H as E1 _ _ <-. right. cbn. congruence.
    + injection H as E1 _ _ <-. right. cbn. congruence.
Qed.

Lemma monte_carlo_loop_never (uniform : nat -> R)
    (computeParticleChi : R -> R * R * R -> R -> R * R * R -> R * R * R -> R)
    (tables : RadiationTables) (fuel fuel_tau : nat) (photon_species : bool)
    (Epart Bpart : list R) (ipart : nat) (ipart_ref : Z) (c : R)
    (self : Radiation) (particles : Particles) (r : R) (l : Local) :
  good_draws uniform (epsilon_tau_ self) -> (1 <= fuel_tau)%nat ->
  (Z.to_nat (max_monte_carlo_iterations_ self - mc_it_nb l) <= fuel)%nat
  \/ dt_ self <= local_it_time l ->
  monte_carlo_loop uniform computeParticleChi tables fuel fuel_tau photon_species
                   Epart Bpart ipart ipart_ref c (self, particles, r, l)
  <> Fail OutOfFuel.
Proof.
  revert self particles r l.
  induction fuel as [|fuel IH]; intros self particles r l Hdraw Htau Hfuel;
    cbn [monte_carlo_loop].
  - unfold Rltb. destruct (Rlt_dec _ _) as [Hlt|]; [|discriminate].
    destruct (Z.ltb_spec (mc_it_nb l) (max_monte_carlo_iterations_ self));
      [|discriminate].
    cbn. destruct Hfuel; [lia|lra].
  - unfold Rltb. destruct (Rlt_dec _ _) as [Hlt|]; [|discriminate].
    destruct (Z.ltb_spec (mc_it_nb l) (max_monte_carlo_iterations_ self));
      [|discriminate].
    cbn [andb]. apply bind_never; [apply monte_carlo_step_never; assumption|].
    intros [f [[[self1 particles1] r1] l1]] Hstep. destruct f; [|discriminate].
    pose proof (monte_carlo_step_frame _ _ _ _ _ _ _ _ _ _ _ _ _ _ _ _ _ _ _ Hstep)
      as [(_ & Hdt & Heps & Hmax & _) _].
    apply IH; [rewrite Heps; exact Hdraw|exact Htau|].
    destruct (monte_carlo_step_progress _ _ _ _ _ _ _ _ _ _ _ _ _ _ _ _ _ _ Hstep)
      as [Hmc|Hloc].
    + left. rewrite Hmax, Hmc. destruct Hfuel; [lia|lra].
    + right. rewrite Hloc. lra.
Qed.

(** More fuel than the loops need does not change what they return. *)
Lemma new_optical_depth_done (uniform : nat -> R) (fuel ipart : nat)
    (self : Radiation) (particles : Particles) (t : R) :
  load (tau particles) ipart = Ok t -> Rleb t (epsilon_tau_ self) = false ->
  new_optical_depth uniform fuel ipart (self, particles) = Ok (self, particles).
Proof.
  intros Hl Hb. destruct fuel; cbn [new_optical_depth]; rewrite Hl;
    cbn [mbind outcome_bind]; rewrite Hb; reflexivity.
Qed.

Lemma new_optical_depth_fuel (uniform : nat -> R) (fuel fuel' ipart : nat)
    (self : Radiation) (particles : Particles) :
  good_draws uniform (epsilon_tau_ self) -> (1 <= fuel)%nat -> (1 <= fuel')%nat ->
  new_optical_depth uniform fuel' ipart (self, particles)
  = new_optical_depth uniform fuel ipart (self, particles).
Proof.
  intros Hdraw Hfuel Hfuel'.
  destruct fuel as [|fuel]; [lia|]. destruct fuel' as [|fuel']; [lia|].
  cbn [new_optical_depth].
  destruct (load (tau particles) ipart) as [t|]; cbn [mbind outcome_bind]; [|reflexivity].
  destruct (Rleb t (epsilon_tau_ self)); [|reflexivity].
  unfold fln. destruct (Rle_dec _ 0) as [|Hpos]; [reflexivity|]. cbn [mbind outcome_bind].
  destruct (store (tau particles) ipart (- ln (1 - uniform (rand_ self))))
    as [tau1|] eqn:Hs; cbn [mbind outcome_bind]; [|reflexivity].
  destruct (Hdraw (rand_ self)) as [Hd|Hd]; [lra|].
  assert (Hl : load (tau (set_tau particles tau1)) ipart
               = Ok (- ln (1 - uniform (rand_ self)))).
  { apply load_Ok. cbn. eapply store_same. exact Hs. }
  assert (Hb : Rleb (- ln (1 - uniform (rand_ self)))
                    (epsilon_tau_ (set_rand self (Datatypes.S (rand_ self)))) = false).
  { unfold Rleb. cbn. destruct (Rle_dec _ _); [lra|reflexivity]. }
  rewrite (new_optical_depth_done uniform fuel _ _ _ _ Hl Hb).
  rewrite (new_optical_depth_done uniform fuel' _ _ _ _ Hl Hb). reflexivity.
Qed.

Lemma monte_carlo_step_fuel (uniform : nat -> R)
    (computeParticleChi : R -> R * R * R -> R -> R * R * R -> R * R * R -> R)
    (tables : RadiationTables) (fuel fuel' : nat) (photon_species : bool)
    (Epart Bpart : list R) (ipart : nat) (ipart_ref : Z) (c : R) (st : Run * Local) :
  good_draws uniform (epsilon_tau_ st.1.1.1) -> (1 <= fuel)%nat -> (1 <= fuel')%nat ->
  monte_carlo_step uniform computeParticleChi tables fuel' photon_species Epart Bpart
                   ipart ipart_ref c st
  = monte_carlo_step uniform computeParticleChi tables fuel photon_species Epart Bpart
                     ipart ipart_ref c st.
Proof.
  destruct st as [[[self particles] r] l]. cbn [fst]. intros Hdraw Hfuel Hfuel'.
  unfold monte_carlo_step.
  destruct (momentum_at particles ipart) as [[[px py] pz]|]; cbn [mbind outcome_bind];
    [|reflexivity].
  destruct (Reqb _ 1); [reflexivity|].
  destruct (field_at Epart _) as [E|]; cbn [mbind outcome_bind]; [|reflexivity].
  destruct (field_at Bpart _) as [B|]; cbn [mbind outcome_bind]; [|reflexivity].
  destruct (load (tau particles) ipart) as [t|]; cbn [mbind outcome_bind]; [|reflexivity].
  destruct (_ && _); [|reflexivity].
  rewrite (new_optical_depth_fuel uniform fuel fuel' ipart self particles Hdraw Hfuel Hfuel').
  reflexivity.
Qed.

Lemma monte_carlo_loop_fuel (uniform : nat -> R)
    (computeParticleChi : R -> R * R * R -> R -> R * R * R -> R * R * R -> R)
    (tables : RadiationTables) (fuel fuel' fuel_tau fuel_tau' : nat)
    (photon_species : bool)
    (Epart Bpart : list R) (ipart : nat) (ipart_ref : Z) (c : R)
    (self : Radiation) (particles : Particles) (r : R) (l : Local) :
  good_draws uniform (epsilon_tau_ self) ->
  (1 <= fuel_tau)%nat -> (fuel_tau <= fuel_tau')%nat -> (fuel <= fuel')%nat ->
  (Z.to_nat (max_monte_carlo_iterations_ self - mc_it_nb l) <= fuel)%nat
  \/ dt_ self <= local_it_time l ->
  monte_carlo_loop uniform computeParticleChi tables fuel' fuel_tau' photon_species
                   Epart Bpart ipart ipart_ref c (self, particles, r, l)
  = monte_carlo_loop uniform computeParticleChi tables fuel fuel_tau photon_species
                     Epart Bpart ipart ipart_ref c (self, particles, r, l).
Proof.
  revert fuel' self particles r l.
  induction fuel as [|fuel IH]; intros fuel' self particles r l Hdraw Htau Htau' Hle Hfuel.
  - assert (Hstop : Rltb (local_it_time l) (dt_ self)
                    && (mc_it_nb l <? max_monte_carlo_iterations_ self)%Z = false).
    { unfold Rltb. destruct (Rlt_dec _ _) as [Hlt|]; [|reflexivity].
      destruct (Z.ltb_spec (mc_it_nb l) (max_monte_carlo_iterations_ self));
        [|reflexivity].
      destruct Hfuel; [lia|lra]. }
    destruct fuel'; cbn [monte_carlo_loop]; rewrite Hstop; reflexivity.
  - destruct fuel' as [|fuel']; [lia|]. cbn [monte_carlo_loop].
    destruct (Rltb (local_it_time l) (dt_ self)
              && (mc_it_nb l <? max_monte_carlo_iterations_ self)%Z) eqn:Hgo;
      [|reflexivity].
    apply andb_true_iff in Hgo as [Hlt Hmc]. apply Z.ltb_lt in Hmc.
    unfold Rltb in Hlt. destruct (Rlt_dec _ _) as [Hlt'|]; [|discriminate].
    rewrite (monte_carlo_step_fuel uniform computeParticleChi tables fuel_tau fuel_tau'
               photon_species Epart Bpart ipart ipart_ref c (self, particles, r, l)
               Hdraw Htau ltac:(lia)).
    destruct (monte_carlo_step uniform computeParticleChi tables fuel_tau photon_species
                Epart Bpart ipart ipart_ref c (self, particles, r, l))
      as [[f [[[self1 particles1] r1] l1]]|] eqn:Hstep; cbn [mbind outcome_bind];
      [|reflexivity].
    destruct f; [|reflexivity].
    pose proof (monte_carlo_step_frame _ _ _ _ _ _ _ _ _ _ _ _ _ _ _ _ _ _ _ Hstep)
      as [(_ & Hdt & Heps & Hmax & _) _].
    apply IH; [rewrite Heps; exact Hdraw|exact Htau|exact Htau'|lia|].
    destruct (monte_carlo_step_progress _ _ _ _ _ _ _ _ _ _ _ _ _ _ _ _ _ _ Hstep)
      as [Hmc1|Hloc].
    + left. rewrite Hmax, Hmc1. destruct Hfuel; [lia|lra].
    + right. rewrite Hloc. lra.
Qed.

(** Two loops whose bodies agree on the states that satisfy an invariant. *)
Lemma for_loop_agree {S : Type} (P : S -> Prop) (n i : nat)
    (body body' : nat -> S -> outcome S) (s : S) :
  (forall j x, P x -> body' j x = body j x /\ forall y, body j x = Ok y -> P y) ->
  P s -> for_loop n i body' s = for_loop n i body s.
Proof.
  intros Hbody. revert i s. induction n as [|n IH]; intros i s Hs; cbn; [reflexivity|].
  destruct (Hbody i s Hs) as [-> Hok].
  destruct (body i s) as [s1|] eqn:H1; cbn; [|reflexivity].
  apply IH. apply Hok. reflexivity.
Qed.

(** X14 - The Monte-Carlo loop of a particle runs at most
    [max_monte_carlo_iterations_] turns, and the loop that draws a new
    optical depth one turn when every draw is above [epsilon_tau_]: with
    that much fuel the call does not run out of fuel, and more fuel does
    not change its outcome. *)
Theorem radiation_terminates (uniform : nat -> R)
    (computeParticleChi : R -> R * R * R -> R -> R * R * R -> R * R * R -> R)
    (tables : RadiationTables) (fuel fuel_tau : nat) (self : Radiation)
    (particles : Particles) (photon_species : bool) (Epart Bpart : list R)
    (radiated_energy : R) (istart iend ipart_ref : Z) :
  (Z.to_nat (max_monte_carlo_iterations_ self) <= fuel)%nat ->
  (1 <= fuel_tau)%nat ->
  good_draws uniform (epsilon_tau_ self) ->
  RadiationMonteCarlo.call uniform computeParticleChi tables fuel fuel_tau self particles
    photon_species Epart Bpart radiated_energy istart iend ipart_ref
  <> Fail OutOfFuel /\
  forall fuel' fuel_tau', (fuel <= fuel')%nat -> (fuel_tau <= fuel_tau')%nat ->
    RadiationMonteCarlo.call uniform computeParticleChi tables fuel' fuel_tau' self
      particles photon_species Epart Bpart radiated_energy istart iend ipart_ref
    = RadiationMonteCarlo.call uniform computeParticleChi tables fuel fuel_tau self
        particles photon_species Epart Bpart radiated_energy istart iend ipart_ref.
Proof.
  intros Hfuel Htau Hdraw. split.
  - unfold RadiationMonteCarlo.call.
    apply bind_never.
    + unfold int_range. destruct (_ <=? _)%Z; [discriminate|].
      destruct (_ <? _)%Z; [discriminate|]. unfold for_range.
      apply (for_loop_never (fun st : Run => same_settings self st.1.1));
        [|apply same_settings_refl].
      intros j [[s p] r] Hs. cbn [fst snd] in Hs.
      pose proof Hs as (_ & _ & Heps & Hmax & _). split.
      * unfold particle_step. apply bind_never; [apply load_never|intros c _].
        apply bind_never; [|intros [[[? ?] ?] ?] _; discriminate].
        apply monte_carlo_loop_never; [rewrite Heps; exact Hdraw|exact Htau|].
        left. cbn. rewrite Hmax. lia.
      * intros [[s2 p2] r2] Hy. cbn [fst snd]. unfold particle_step in Hy.
        bind_inv Hy as c Hc. bind_inv Hy as y Hy2. destruct y as [[[s3 p3] r3] l3].
        injection Hy as <- _ _.
        apply monte_carlo_loop_frame in Hy2 as (S3 & _).
        eapply same_settings_trans; eassumption.
    + intros [[self1 particles1] r1] _. apply bind_never; [|intros ? _; discriminate].
      unfold int_range. destruct (_ <=? _)%Z; [discriminate|].
      destruct (_ <? _)%Z; [discriminate|]. unfold for_range.
      apply (for_loop_never (fun _ => True)); [|exact I].
      intros j x _. split; [apply chi_step_never|auto].
  - intros fuel' fuel_tau' Hle Hle'. unfold RadiationMonteCarlo.call.
    f_equal. unfold int_range. destruct (_ <=? _)%Z; [reflexivity|].
    destruct (_ <? _)%Z; [reflexivity|]. unfold for_range.
    apply (for_loop_agree (fun st : Run => same_settings self st.1.1));
      [|apply same_settings_refl].
    intros j [[s p] r] Hs. cbn [fst snd] in Hs.
    pose proof Hs as (_ & _ & Heps & Hmax & _). split.
    + unfold particle_step.
      destruct (load (charge p) j) as [c|]; cbn [mbind outcome_bind]; [|reflexivity].
      rewrite (monte_carlo_loop_fuel uniform computeParticleChi tables fuel fuel'
                 fuel_tau fuel_tau'); [reflexivity|rewrite Heps; exact Hdraw
                                      |exact Htau|exact Hle'|exact Hle|].
      left. cbn. rewrite Hmax. lia.
    + intros [[s2 p2] r2] Hy. cbn [fst snd]. unfold particle_step in Hy.
      bind_inv Hy as c Hc. bind_inv Hy as y Hy2. destruct y as [[[s3 p3] r3] l3].
      injection Hy as <- _ _.
      apply monte_carlo_loop_frame in Hy2 as (S3 & _).
      eapply same_settings_trans; eassumption.
Qed.

(** One unit of fuel for each loop suffices on the electron with the
    optical depth 1 pending and a yield of zero: the turn takes the whole
    time step. *)
Lemma radiation_terminates_witness :
  ((Z.to_nat (max_monte_carlo_iterations_ radiation0) <= 1)%nat /\ (1 <= 1)%nat /\
   good_draws uniform0 (epsilon_tau_ radiation0)) /\
  RadiationMonteCarlo.call uniform0 (chi_const 1) tables_zero_yield 1 1 radiation0
    (electron 1) true no_field no_field 0 0 1 0
  <> Fail OutOfFuel /\
  forall fuel' fuel_tau', (1 <= fuel')%nat -> (1 <= fuel_tau')%nat ->
    RadiationMonteCarlo.call uniform0 (chi_const 1) tables_zero_yield fuel' fuel_tau'
      radiation0 (electron 1) true no_field no_field 0 0 1 0
    = RadiationMonteCarlo.call uniform0 (chi_const 1) tables_zero_yield 1 1
        radiation0 (electron 1) true no_field no_field 0 0 1 0.
Proof.
  assert (H1 : (Z.to_nat (max_monte_carlo_iterations_ radiation0) <= 1)%nat)
    by (cbn; lia).
  assert (H2 : (1 <= 1)%nat) by lia.
  assert (H3 : good_draws uniform0 (epsilon_tau_ radiation0)).
  { intros n. right. change (uniform0 n) with (uniform0 0). rewrite depth_drawn.
    cbn. lra. }
  split; [repeat split; assumption|].
  exact (radiation_terminates uniform0 (chi_const 1) tables_zero_yield 1 1 radiation0
           (electron 1) true no_field no_field 0 0 1 0 H1 H2 H3).
Defined.

(** ** The quantum parameter at exit *)

Lemma chi_step_updated
    (computeParticleChi : R -> R * R * R -> R -> R * R * R -> R * R * R -> R)
    (self : Radiation) (Epart Bpart : list R) (ipart_ref : Z) (ipart : nat)
    (p p' : Particles) :
  chi_step computeParticleChi self Epart Bpart ipart_ref ipart p = Ok p' ->
  chi_updated computeParticleChi self Epart Bpart ipart_ref p p' ipart.
Proof.
  intros H. unfold chi_step in H. bind_inv H as c Hc.
  bind_inv H as m Hm. destruct m as [[px py] pz].
  bind_inv H as E HE. bind_inv H as B HB. bind_inv H as c2 Hc2.
  injection H as <-. exists c, px, py, pz, E, B.
  repeat split; try assumption. cbn. eapply load_store_same. exact Hc2.
Qed.

(** X12 - At exit, the quantum parameter of every particle of the range is the
    one of its momentum at exit. *)
Theorem radiation_updates_chi (uniform : nat -> R)
    (computeParticleChi : R -> R * R * R -> R -> R * R * R -> R * R * R -> R)
    (tables : RadiationTables) (fuel fuel_tau : nat) (self : Radiation)
    (particles : Particles) (photon_species : bool) (Epart Bpart : list R)
    (radiated_energy : R) (istart iend ipart_ref : Z)
    (self' : Radiation) (particles' : Particles) (e : R) (i : nat) :
  RadiationMonteCarlo.call uniform computeParticleChi tables fuel fuel_tau self particles
    photon_species Epart Bpart radiated_energy istart iend ipart_ref
  = Ok (self', particles', e) ->
  (istart <= Z.of_nat i < iend)%Z ->
  chi_updated computeParticleChi self' Epart Bpart ipart_ref particles' particles' i.
Proof.
  intros H Hi. unfold RadiationMonteCarlo.call in H.
  bind_inv H as x Hx. destruct x as [[self1 particles1] r1].
  bind_inv H as particles2 H2. injection H as <- <- _.
  unfold int_range in H2.
  destruct (Z.leb_spec iend istart); [lia|].
  destruct (Z.ltb_spec istart 0); [discriminate|]. unfold for_range in H2.
  apply (for_loop_ind
           (fun k p =>
              (charge p = charge particles1 /\ momentum_x p = momentum_x particles1 /\
               momentum_y p = momentum_y particles1 /\
               momentum_z p = momentum_z particles1) /\
              forall j, (Z.to_nat istart <= j < k)%nat ->
                chi_updated computeParticleChi self1 Epart Bpart ipart_ref
                            particles1 p j)) in H2.
  - destruct H2 as [(Hc & Hx2 & Hy2 & Hz2) Hall].
    destruct (Hall i) as (c & px & py & pz & E & B & Lc & Lm & LE & LB & Lchi); [lia|].
    exists c, px, py, pz, E, B. rewrite Hc.
    rewrite (momentum_at_congr particles1 particles2 i Hx2 Hy2 Hz2). auto.
  - intros j p q Hj [(Hc & Hx2 & Hy2 & Hz2) Hall] Hq.
    pose proof (chi_step_updated _ _ _ _ _ _ _ _ Hq) as Hnew.
    pose proof (chi_step_frame _ _ _ _ _ _ _ _ Hq)
      as ((_ & _ & Hch & _ & _ & _ & Hout) & Qx & Qy & Qz & _).
    split; [repeat split; congruence|].
    intros k Hk. destruct (decide (k = j)) as [->|Hne].
    + destruct Hnew as (c & px & py & pz & E & B & Lc & Lm & LE & LB & Lchi).
      rewrite Hc in Lc. rewrite (momentum_at_congr particles1 p j Hx2 Hy2 Hz2) in Lm.
      exists c, px, py, pz, E, B. auto.
    + destruct (Hall k) as (c & px & py & pz & E & B & Lc & Lm & LE & LB & Lchi); [lia|].
      exists c, px, py, pz, E, B. repeat split; try assumption.
      destruct (Hout k Hne) as (_ & _ & _ & _ & Hchi). unfold load. rewrite Hchi.
      exact Lchi.
  - split; [repeat split|]. intros j Hj. lia.
Qed.

(** The run of the radiation on the electron, and the theorem on its quantum
    parameter. *)
Lemma radiation_updates_chi_witness :
  (RadiationMonteCarlo.call uniform0 (chi_const 1) (tables0 (1/2)) 1 1 radiation0
     (electron (-1)) true no_field no_field 0 0 1 0
   = Ok (set_new_photons (set_rand radiation0 2) (two_photons (1/3) (1/2)),
         set_chi (electron_after (1/4) (-1)) [1], 0 + (0 + 0)) /\
   (0 <= Z.of_nat 0 < 1)%Z) /\
  chi_updated (chi_const 1)
    (set_new_photons (set_rand radiation0 2) (two_photons (1/3) (1/2)))
    no_field no_field 0
    (set_chi (electron_after (1/4) (-1)) [1])
    (set_chi (electron_after (1/4) (-1)) [1]) 0.
Proof.
  pose proof call_electron as H1.
  assert (H2 : (0 <= Z.of_nat 0 < 1)%Z) by lia.
  split; [split; assumption|].
  exact (radiation_updates_chi _ _ _ _ _ _ _ _ _ _ _ _ _ _ _ _ _ _ H1 H2).
Defined.

(** ** Particles at rest *)

Lemma monte_carlo_loop_at_rest (uniform : nat -> R)
    (computeParticleChi : R -> R * R * R -> R -> R * R * R -> R * R * R -> R)
    (tables : RadiationTables) (fuel fuel_tau : nat) (photon_species : bool)
    (Epart Bpart : list R) (ipart : nat) (ipart_ref : Z) (c : R)
    (st st' : Run * Local) :
  momentum_at st.1.1.2 ipart = Ok (0, 0, 0) ->
  monte_carlo_loop uniform computeParticleChi tables fuel fuel_tau photon_species
                   Epart Bpart ipart ipart_ref c st = Ok st' ->
  st' = st.
Proof.
  destruct st as [[[self particles] r] l]. cbn [fst snd]. intros Hm H.
  destruct fuel as [|fuel]; cbn [monte_carlo_loop] in H.
  - destruct (_ && _); [discriminate|]. injection H as <-. reflexivity.
  - destruct (_ && _); [|injection H as <-; reflexivity].
    unfold monte_carlo_step in H. rewrite Hm in H. cbn [mbind outcome_bind] in H.
    rewrite gamma_at_rest in H. unfold Reqb in H.
    destruct (Req_dec_T 1 1); [|lra]. cbn in H. injection H as <-. reflexivity.
Qed.

(** X13 - The radiation leaves particles without momentum as they are: when
    every particle of the range is at rest, nothing is drawn, nothing is
    emitted and no energy is radiated. *)
Theorem radiation_skips_particles_at_rest (uniform : nat -> R)
    (computeParticleChi : R -> R * R * R -> R -> R * R * R -> R * R * R -> R)
    (tables : RadiationTables) (fuel fuel_tau : nat) (self : Radiation)
    (particles : Particles) (photon_species : bool) (Epart Bpart : list R)
    (radiated_energy : R) (istart iend ipart_ref : Z)
    (self' : Radiation) (particles' : Particles) (e : R) :
  RadiationMonteCarlo.call uniform computeParticleChi tables fuel fuel_tau self particles
    photon_species Epart Bpart radiated_energy istart iend ipart_ref
  = Ok (self', particles', e) ->
  (forall i, (istart <= Z.of_nat i < iend)%Z -> momentum_at particles i = Ok (0, 0, 0)) ->
  self' = self /\ e = radiated_energy + 0 /\
  momentum_x particles' = momentum_x particles /\
  momentum_y particles' = momentum_y particles /\
  momentum_z particles' = momentum_z particles /\
  tau particles' = tau particles.
Proof.
  intros H Hrest. unfold RadiationMonteCarlo.call in H.
  bind_inv H as x Hx. destruct x as [[self1 particles1] r1].
  bind_inv H as particles2 H2. injection H as <- <- <-.
  apply (int_range_ind (fun st : Run => st = (self, particles, 0))) in Hx.
  - injection Hx as -> -> ->. split; [reflexivity|]. split; [reflexivity|].
    apply (int_range_inv
             (fun p => momentum_x p = momentum_x particles /\
                       momentum_y p = momentum_y particles /\
                       momentum_z p = momentum_z particles /\ tau p = tau particles))
      in H2; [exact H2| |auto].
    intros j p q (Px & Py & Pz & Pt) Hq.
    apply chi_step_frame in Hq as (_ & Qx & Qy & Qz & Qt). repeat split; congruence.
  - intros j st y Hj -> Hy. unfold particle_step in Hy.
    bind_inv Hy as c Hc. bind_inv Hy as z Hz. destruct z as [st2 l2].
    injection Hy as <-.
    apply monte_carlo_loop_at_rest in Hz; [|cbn; apply Hrest; exact Hj].
    injection Hz as ->. reflexivity.
  - reflexivity.
Qed.

(** The run of the radiation on the electron at rest. *)
Lemma radiation_skips_particles_at_rest_witness :
  (RadiationMonteCarlo.call uniform0 (chi_const 0) (tables0 (1/2)) 1 0 radiation0
     (electron_at_rest 5) true no_field no_field 0 0 1 0
   = Ok (radiation0, electron_at_rest 5, 0 + 0) /\
   (forall i, (0 <= Z.of_nat i < 1)%Z ->
      momentum_at (electron_at_rest 5) i = Ok (0, 0, 0))) /\
  (radiation0 = radiation0 /\ 0 + 0 = 0 + 0 /\
   momentum_x (electron_at_rest 5) = momentum_x (electron_at_rest 5) /\
   momentum_y (electron_at_rest 5) = momentum_y (electron_at_rest 5) /\
   momentum_z (electron_at_rest 5) = momentum_z (electron_at_rest 5) /\
   tau (electron_at_rest 5) = tau (electron_at_rest 5)).
Proof.
  pose proof (call_at_rest 5) as H1.
  assert (H2 : forall i, (0 <= Z.of_nat i < 1)%Z ->
                 momentum_at (electron_at_rest 5) i = Ok (0, 0, 0)).
  { intros i Hi. replace i with 0%nat by lia. reflexivity. }
  split; [split; assumption|].
  exact (radiation_skips_particles_at_rest _ _ _ _ _ _ _ _ _ _ _ _ _ _ _ _ _ H1 H2).
Defined.

(** ** The columns of the photons *)

Lemma photon_step_columns (self : Radiation) (particles : Particles) (ipart : nat)
    (g inv photon_chi : R) (idNew : nat) (ph ph' : Particles) :
  (nDim_ self <= 3)%nat ->
  photon_step self particles ipart g inv photon_chi idNew ph = Ok ph' ->
  isQuantumParameter ph' = isQuantumParameter ph /\
  isMonteCarlo ph' = isMonteCarlo ph /\
  (if isQuantumParameter ph then store (chi ph) idNew photon_chi = Ok (chi ph')
   else chi ph' = chi ph) /\
  (if isMonteCarlo ph then store (tau ph) idNew (-1) = Ok (tau ph')
   else tau ph' = tau ph).
Proof.
  intros HnDim H. unfold photon_step in H.
  bind_inv H as x Hx. bind_inv H as ph1 H1. bind_inv H as ph2 H2.
  destruct (photon_position_Ok _ _ _ _ _ _ _ _ HnDim Hx H1 H2)
    as (_ & _ & _ & _ & _ & _ & _ & K2 & T2 & Q2 & M2).
  bind_inv H as m Hm. destruct m as [[px py] pz].
  bind_inv H as mx Hmx. bind_inv H as my Hmy. bind_inv H as mz Hmz.
  bind_inv H as w Hw. bind_inv H as wt Hwt. bind_inv H as c Hc.
  cbn [set_charge set_weight set_momentum isQuantumParameter isMonteCarlo
       chi tau charge weight momentum_x momentum_y momentum_z] in *.
  bind_inv H as ph4 H4. rewrite <- Q2, <- M2, <- K2, <- T2.
  destruct (isQuantumParameter ph2) eqn:EQ.
  - bind_inv H4 as c4 Hc4. injection H4 as <-. cbn in *.
    destruct (isMonteCarlo ph2) eqn:EM.
    + bind_inv H as t4 Ht4. injection H as <-. cbn. auto.
    + injection H as <-. cbn. auto.
  - injection H4 as <-. cbn in *.
    destruct (isMonteCarlo ph2) eqn:EM.
    + bind_inv H as t4 Ht4. injection H as <-. cbn. auto.
    + injection H as <-. cbn. auto.
Qed.

(** X17 - The photons that an emission creates hold the photon chi in the column
    [chi] and -1 in the column [tau], where the buffer has these columns. *)
Theorem photons_hold_chi_and_tau (tables : RadiationTables) (self : Radiation)
    (ipart : nat) (particle_chi particle_gamma : R) (particles : Particles)
    (random_number : R) (self' : Radiation) (particles' : Particles) (e : R) (j : nat) :
  (nDim_ self <= 3)%nat ->
  photonEmission tables self ipart particle_chi particle_gamma particles
                 random_number true = Ok (self', particles', e) ->
  radiation_photon_gamma_threshold_ self
  <= computeRandomPhotonChiWithInterpolation tables particle_chi random_number
     / particle_chi * (particle_gamma - 1) ->
  (size (new_photons_ self) <= j
   < size (new_photons_ self) + radiation_photon_sampling_ self)%nat ->
  (isQuantumParameter (new_photons_ self) = true ->
   load (chi (new_photons_ self')) j
   = Ok (computeRandomPhotonChiWithInterpolation tables particle_chi random_number)) /\
  (isMonteCarlo (new_photons_ self) = true ->
   load (tau (new_photons_ self')) j = Ok (-1)).
Proof.
  intros HnDim H Hthr Hj.
  apply photonEmission_Ok in H as (px & py & pz & Hm & Hm' & Hw' & Hp & H).
  cbn [andb] in H. rewrite (Rleb_true _ _ Hthr) in H.
  destruct H as (Hnorm & -> & ph & -> & Hloop). cbn [new_photons_ set_new_photons].
  set (old := new_photons_ self) in *.
  set (photon_chi :=
         computeRandomPhotonChiWithInterpolation tables particle_chi random_number) in *.
  apply (for_loop_ind
           (fun k x =>
              isQuantumParameter x = isQuantumParameter old /\
              isMonteCarlo x = isMonteCarlo old /\
              forall i, (size old <= i < k)%nat ->
                (isQuantumParameter old = true -> chi x !! i = Some photon_chi) /\
                (isMonteCarlo old = true -> tau x !! i = Some (-1)))) in Hloop.
  - destruct Hloop as (_ & _ & Hall). destruct (Hall j Hj) as [Hc Ht].
    split; intros Hflag; apply load_Ok; auto.
  - intros k x y Hk (Qx & Mx & Hall) Hy.
    apply photon_step_columns in Hy as (Qy & My & Cy & Ty); [|exact HnDim].
    split; [congruence|]. split; [congruence|]. intros i Hi.
    rewrite Qx in Cy. rewrite Mx in Ty.
    destruct (decide (i = k)) as [->|Hne].
    + split; intros Hflag; rewrite Hflag in *; eapply store_same; eassumption.
    + destruct (Hall i) as [Hc Ht]; [lia|].
      split; intros Hflag; rewrite Hflag in *.
      * rewrite (store_other _ _ _ _ _ Cy) by auto. auto.
      * rewrite (store_other _ _ _ _ _ Ty) by auto. auto.
  - split; [reflexivity|]. split; [reflexivity|]. intros i Hi. lia.
Qed.


(** The emission on the electron, and the theorem on its second photon. *)
Lemma photons_hold_chi_and_tau_witness :
  ((nDim_ radiation0 <= 3)%nat /\
   photonEmission (tables0 (1/2)) radiation0 0 1 (5/3) (electron (-1)) 0 true
   = Ok (set_new_photons radiation0 (two_photons (1/3) (1/2)),
         electron_after (1/4) (-1), 0) /\
   radiation_photon_gamma_threshold_ radiation0
   <= computeRandomPhotonChiWithInterpolation (tables0 (1/2)) 1 0 / 1 * (5/3 - 1) /\
   (size (new_photons_ radiation0) <= 1
    < size (new_photons_ radiation0) + radiation_photon_sampling_ radiation0)%nat) /\
  (isQuantumParameter (new_photons_ radiation0) = true ->
   load (chi (new_photons_ (set_new_photons radiation0 (two_photons (1/3) (1/2))))) 1
   = Ok (computeRandomPhotonChiWithInterpolation (tables0 (1/2)) 1 0)) /\
  (isMonteCarlo (new_photons_ radiation0) = true ->
   load (tau (new_photons_ (set_new_photons radiation0 (two_photons (1/3) (1/2))))) 1
   = Ok (-1)).
Proof.
  assert (H1 : (nDim_ radiation0 <= 3)%nat) by (cbn; lia).
  pose proof (emission_forward 0 (-1)) as H2.
  assert (H3 : radiation_photon_gamma_threshold_ radiation0
               <= computeRandomPhotonChiWithInterpolation (tables0 (1/2)) 1 0 / 1
                  * (5/3 - 1)) by (cbn; lra).
  assert (H4 : (size (new_photons_ radiation0) <= 1
                < size (new_photons_ radiation0)
                  + radiation_photon_sampling_ radiation0)%nat) by (cbn; lia).
  split; [repeat split; first [assumption | apply H4]|].
  exact (photons_hold_chi_and_tau _ _ _ _ _ _ _ _ _ _ 1%nat H1 H2 H3 H4).
Defined.

